(** * gen-images: the batch pipeline of [src/index.ts]

    A shallow embedding of the TypeScript program: JavaScript strings are
    sequences of UTF-16 code units, the regular-expression replacements of
    [formatFileName] are written out as the scans they perform, and the
    effectful part (file system, prompt cache, the two remote services, the
    pacing timer) is threaded through an explicit world. *)

From Stdlib Require Import NArith QArith String Ascii Lia.
From stdpp Require Import base option list gmap.

Local Open Scope N_scope.

(** ** JavaScript strings *)

(** A JavaScript string is a sequence of UTF-16 code units. *)
Abbreviation jsstring := (list N).

(** A literal with Basic Latin characters only, one code unit per character. *)
Fixpoint lit (s : string) : jsstring :=
  match s with
  | EmptyString => []
  | String a t => N_of_ascii a :: lit t
  end.

Module Char.
Definition hyphen : N := 45.
Definition dot : N := 46.
Definition slash : N := 47.
Definition amp : N := 38.
Definition lparen : N := 40.
Definition rparen : N := 41.
Definition underscore : N := 95.

Definition is_digit (c : N) : bool := (48 <=? c) && (c <=? 57).
Definition is_upper (c : N) : bool := (65 <=? c) && (c <=? 90).
Definition is_lower (c : N) : bool := (97 <=? c) && (c <=? 122).

(** The class [\w] of a regular expression without the [u] and [i]
    flags: [A-Za-z0-9_]. *)
Definition is_word (c : N) : bool :=
  is_digit c || is_upper c || is_lower c || (c =? underscore).

(** The class [\s]: the ECMAScript WhiteSpace and LineTerminator code
    points, all of them in the Basic Multilingual Plane. *)
Definition is_space (c : N) : bool :=
  ((9 <=? c) && (c <=? 13)) || (c =? 32) || (c =? 160) || (c =? 5760)
  || ((8192 <=? c) && (c <=? 8202)) || (c =? 8232) || (c =? 8233)
  || (c =? 8239) || (c =? 8287) || (c =? 12288) || (c =? 65279).

(** [String.prototype.toLowerCase] on one code unit of the Basic Latin
    block; code units above it are left as they are.  This is the whole
    case mapping on the strings that [formatFileName] lower-cases, which
    are made of [A-Za-z0-9_] and hyphens. *)
Definition to_lower (c : N) : N := if is_upper c then c + 32 else c.
End Char.

(** [s.replace(/c/g, "-")] for a single-character class [p]. *)
Definition replace_each (p : N -> bool) (s : jsstring) : jsstring :=
  map (fun c => if p c then Char.hyphen else c) s.

(** [s.replace(/p+/g, "-")]: every maximal run of characters of the class
    [p] becomes one hyphen.  [in_run] tells that the previous character
    belonged to the run being replaced. *)
Fixpoint replace_runs_from (p : N -> bool) (in_run : bool) (s : jsstring)
  : jsstring :=
  match s with
  | [] => []
  | c :: t =>
      if p c then
        if in_run then replace_runs_from p true t
        else Char.hyphen :: replace_runs_from p true t
      else c :: replace_runs_from p false t
  end.

Definition replace_runs (p : N -> bool) (s : jsstring) : jsstring :=
  replace_runs_from p false s.

(** [s.replace(/^-|-$/g, "")]: the scan removes a hyphen that stands at
    the first position, and a hyphen that stands at the last one. *)
Fixpoint strip_edges_from (at_start : bool) (s : jsstring) : jsstring :=
  match s with
  | [] => []
  | c :: t =>
      if (c =? Char.hyphen)
         && (at_start || match t with [] => true | _ => false end)
      then strip_edges_from false t
      else c :: strip_edges_from false t
  end.

Definition strip_edges (s : jsstring) : jsstring := strip_edges_from true s.

(** [s.toLowerCase()] for a string [s] of the Basic Latin block. *)
Definition toLowerCase (s : jsstring) : jsstring := map Char.to_lower s.

(** ** [formatFileName] *)

(** The string as it stands before the final [.toLowerCase()]. *)
Definition formatFileName_cased (name : jsstring) : jsstring :=
  let s1 := replace_runs Char.is_space name in
  let s2 := replace_each (fun c => c =? Char.slash) s1 in
  let s3 := replace_each (fun c => c =? Char.amp) s2 in
  let s4 := replace_each (fun c => c =? Char.lparen) s3 in
  let s5 := replace_each (fun c => c =? Char.rparen) s4 in
  let s6 :=
    replace_each (fun c => negb (Char.is_word c || (c =? Char.hyphen))) s5 in
  let s7 := replace_runs (fun c => c =? Char.hyphen) s6 in
  strip_edges s7.

Definition formatFileName (name : jsstring) : jsstring :=
  toLowerCase (formatFileName_cased name).

(** *** The shape of a sanitized name *)

(** Lowercase letter, digit, underscore or hyphen. *)
Definition safe_char (c : N) : bool :=
  Char.is_lower c || Char.is_digit c || (c =? Char.underscore)
  || (c =? Char.hyphen).

Definition starts_with_hyphen (s : jsstring) : bool :=
  match s with
  | c :: _ => c =? Char.hyphen
  | [] => false
  end.

Fixpoint ends_with_hyphen (s : jsstring) : bool :=
  match s with
  | [] => false
  | [c] => c =? Char.hyphen
  | _ :: t => ends_with_hyphen t
  end.

Fixpoint has_double_hyphen (s : jsstring) : bool :=
  match s with
  | c :: (d :: _) as t =>
      ((c =? Char.hyphen) && (d =? Char.hyphen)) || has_double_hyphen t
  | _ => false
  end.

Definition sanitized (s : jsstring) : bool :=
  forallb safe_char s
  && negb (starts_with_hyphen s)
  && negb (ends_with_hyphen s)
  && negb (has_double_hyphen s).

(** [A-Za-z0-9_] or hyphen: what the sixth replacement leaves. *)
Definition word_or_hyphen (c : N) : bool :=
  Char.is_word c || (c =? Char.hyphen).

(** ** [node:path], POSIX flavour *)

Module Path.
(** [p.split("/")]. *)
Fixpoint split (p : jsstring) : list jsstring :=
  match p with
  | [] => [[]]
  | c :: t =>
      if c =? Char.slash then [] :: split t
      else match split t with
           | seg :: rest => (c :: seg) :: rest
           | [] => [[c]]
           end
  end.

(** [segs.join("/")]. *)
Fixpoint unsplit (segs : list jsstring) : jsstring :=
  match segs with
  | [] => []
  | [seg] => seg
  | seg :: rest => seg ++ Char.slash :: unsplit rest
  end.

(** One segment met by [normalizeString]; [stack] holds the segments kept
    so far, the last one first.  Empty segments and "." are dropped, ".."
    removes the segment before it, and is itself kept only in a relative
    path that has nothing left to remove. *)
Definition normalize_step (allowAboveRoot : bool) (stack : list jsstring)
  (seg : jsstring) : list jsstring :=
  if bool_decide (seg = []) || bool_decide (seg = lit ".") then stack
  else if bool_decide (seg = lit "..") then
    match stack with
    | top :: below =>
        if bool_decide (top = lit "..") then
          if allowAboveRoot then seg :: stack else stack
        else below
    | [] => if allowAboveRoot then [seg] else []
    end
  else seg :: stack.

Definition normalizeString (p : jsstring) (allowAboveRoot : bool) : jsstring :=
  unsplit (rev (fold_left (normalize_step allowAboveRoot) (split p) [])).

Definition isAbsolute (p : jsstring) : bool :=
  match p with
  | c :: _ => c =? Char.slash
  | [] => false
  end.

Definition trailingSeparator (p : jsstring) : bool :=
  match last p with
  | Some c => c =? Char.slash
  | None => false
  end.

(** [path.normalize(p)]. *)
Definition normalize (p : jsstring) : jsstring :=
  match p with
  | [] => lit "."
  | _ =>
      match normalizeString p (negb (isAbsolute p)) with
      | [] =>
          if isAbsolute p then lit "/"
          else if trailingSeparator p then lit "./" else lit "."
      | q =>
          (if isAbsolute p then lit "/" else [])
          ++ q ++ (if trailingSeparator p then lit "/" else [])
      end
  end.

(** [path.join(...args)]: the non-empty arguments, joined with "/" and
    normalized. *)
Definition join (args : list jsstring) : jsstring :=
  match filter (fun a => a <> []) args with
  | [] => lit "."
  | joined => normalize (unsplit joined)
  end.

Fixpoint drop_while (f : N -> bool) (s : jsstring) : jsstring :=
  match s with
  | c :: t => if f c then drop_while f t else s
  | [] => []
  end.

(** [path.dirname(p)]: the scan runs from the last index down to index 1,
    past the trailing separators and past the last segment, and stops at
    the separator before it. *)
Definition dirname (p : jsstring) : jsstring :=
  match p with
  | [] => lit "."
  | c0 :: rest =>
      let hasRoot := c0 =? Char.slash in
      let is_sep := fun c : N => c =? Char.slash in
      let past_trailing := drop_while is_sep (rev rest) in
      let past_segment := drop_while (fun c => negb (is_sep c)) past_trailing in
      match past_segment with
      | [] => if hasRoot then lit "/" else lit "."
      | _ :: before =>
          if hasRoot && bool_decide (before = []) then lit "//"
          else c0 :: rev before
      end
  end.
End Path.

(** [s.endsWith(suffix)]. *)
Definition endsWith (s suffix : jsstring) : bool :=
  bool_decide (drop (length s - length suffix) s = suffix).

(** [file.replace(/\.json$/, "")]. *)
Definition strip_json (file : jsstring) : jsstring :=
  if endsWith file (lit ".json") then take (length file - 5) file else file.

(** ** Data model *)

Record MenuItem := {
  name : jsstring;
  (** a JSON number, read as the rational its literal denotes; the
      program only prints it into the instruction text *)
  price : Q;
  tags : list jsstring
}.

Record Category := { Items : list MenuItem }.

(** [MenuData], as [Object.entries] lists it. *)
Abbreviation MenuData := (list (jsstring * Category)).

Record GenerateImageOptions := {
  prompt : jsstring;
  outputPath : jsstring;
  model : option jsstring
}.

(** Thrown values. *)
Inductive exn :=
| Error (message : jsstring)
| TypeError
| SystemError (code : jsstring)
| Rejected (reason : jsstring).

(** The part of a chat completion that the program reads:
    [choices[i].message.content], [null] being [None]. *)
Module OpenAI.
Record Choice := { content : option jsstring }.
Record ChatCompletion := { choices : list Choice }.
End OpenAI.

(** The part of a [generateContent] response that the program reads; every
    field is optional in the SDK's types. *)
Module GenAI.
Record Blob := { data : option jsstring }.
Record Part := { inlineData : option Blob; text : option jsstring }.
Record Content := { parts : option (list Part) }.
Record Candidate := { content : option Content }.
Record GenerateContentResponse := { candidates : option (list Candidate) }.
End GenAI.

(** What the run does to the outside, in the order it does it. *)
Inductive Event :=
| ChatCompletionsCreate (category : jsstring) (item : MenuItem)
| GenerateContent (model prompt : jsstring)
| SetTimeout (ms : N).

Inductive node :=
| File (bytes : list N)
| Dir.

(** The process and what it can reach: working directory and environment
    (never written), the file tree with every entry under the normal form
    of its path, the module-level [promptCache] in insertion order, the
    three counters of [main], and the events so far.  The counters are
    JavaScript numbers, exact on integers far beyond the size of a
    catalogue; they are natural numbers here. *)
Record State := {
  cwd : jsstring;
  GOOGLE_API_KEY : option jsstring;
  OPENAI_API_KEY : option jsstring;
  files : gmap jsstring node;
  promptCache : list (jsstring * jsstring);
  totalProcessed : N;
  totalSkipped : N;
  totalFailed : N;
  trace : list Event
}.

Definition set_files (f : gmap jsstring node) (s : State) : State :=
  {| cwd := cwd s; GOOGLE_API_KEY := GOOGLE_API_KEY s;
     OPENAI_API_KEY := OPENAI_API_KEY s; files := f;
     promptCache := promptCache s; totalProcessed := totalProcessed s;
     totalSkipped := totalSkipped s; totalFailed := totalFailed s;
     trace := trace s |}.

Definition set_promptCache (m : list (jsstring * jsstring)) (s : State)
  : State :=
  {| cwd := cwd s; GOOGLE_API_KEY := GOOGLE_API_KEY s;
     OPENAI_API_KEY := OPENAI_API_KEY s; files := files s;
     promptCache := m; totalProcessed := totalProcessed s;
     totalSkipped := totalSkipped s; totalFailed := totalFailed s;
     trace := trace s |}.

Definition set_counters (p k f : N) (s : State) : State :=
  {| cwd := cwd s; GOOGLE_API_KEY := GOOGLE_API_KEY s;
     OPENAI_API_KEY := OPENAI_API_KEY s; files := files s;
     promptCache := promptCache s; totalProcessed := p;
     totalSkipped := k; totalFailed := f; trace := trace s |}.

Definition emit (e : Event) (s : State) : State :=
  {| cwd := cwd s; GOOGLE_API_KEY := GOOGLE_API_KEY s;
     OPENAI_API_KEY := OPENAI_API_KEY s; files := files s;
     promptCache := promptCache s; totalProcessed := totalProcessed s;
     totalSkipped := totalSkipped s; totalFailed := totalFailed s;
     trace := trace s ++ [e] |}.

(** The libraries and services behind the program.  A remote call answers
    as it pleases, given all that happened before it.  [JSON_parse] stands
    for UTF-8 decoding and [JSON.parse] together, a value that parses being
    taken to have the type [MenuData] that the program gives it.
    [String_toLowerCase] is [String.prototype.toLowerCase] with the case
    mapping of all of Unicode.  [fs_fault] stands for the failures of a
    file operation that the file tree does not explain and that leave
    nothing behind (permissions and the like, met when a file is opened or
    a directory made).  [write_fault] stands for a write that is cut short
    once the file is open, so created or emptied (a full disk, a failing
    device): the error, and how many of the bytes got through. *)
Record Externals := {
  chat_completions_create :
    list Event -> jsstring -> MenuItem -> exn + OpenAI.ChatCompletion;
  models_generateContent :
    list Event -> jsstring -> jsstring -> exn + GenAI.GenerateContentResponse;
  Buffer_from_base64 : jsstring -> list N;
  readdir_names : gmap jsstring node -> jsstring -> exn + list jsstring;
  JSON_parse : list N -> exn + MenuData;
  JSON_stringify : list (jsstring * jsstring) -> list N;
  String_toLowerCase : jsstring -> jsstring;
  fs_fault : list Event -> jsstring -> option exn;
  write_fault : list Event -> jsstring -> list N -> option (exn * nat)
}.

(** ** Computations: state and exceptions *)

Inductive result (A : Type) :=
| Ok (a : A)
| Throw (e : exn).
Arguments Ok {A} a.
Arguments Throw {A} e.

Definition M (A : Type) : Type := State -> result A * State.

Definition ret {A} (a : A) : M A := fun s => (Ok a, s).

Definition throw {A} (e : exn) : M A := fun s => (Throw e, s).

Definition bind {A B} (m : M A) (k : A -> M B) : M B :=
  fun s =>
    match m s with
    | (Ok a, s') => k a s'
    | (Throw e, s') => (Throw e, s')
    end.

(** [try { body } catch (error) { handler }]. *)
Definition try_catch {A} (body : M A) (handler : exn -> M A) : M A :=
  fun s =>
    match body s with
    | (Ok a, s') => (Ok a, s')
    | (Throw e, s') => handler e s'
    end.

Definition gets {A} (f : State -> A) : M A := fun s => (Ok (f s), s).

Definition modify (f : State -> State) : M unit := fun s => (Ok tt, f s).

Definition lift {A} (r : exn + A) : M A :=
  match r with
  | inl e => throw e
  | inr a => ret a
  end.

Notation "x <- m ;; k" := (bind m (fun x => k))
  (at level 100, m at next level, right associativity).
Notation "m ;;; k" := (bind m (fun _ => k))
  (at level 100, right associativity).

(** [for (const x of l) { body }]. *)
Fixpoint for_of {A} (l : list A) (body : A -> M unit) : M unit :=
  match l with
  | [] => ret tt
  | x :: rest => body x ;;; for_of rest body
  end.

(** JavaScript truthiness of a value that is a string or [undefined]. *)
Definition truthy (v : option jsstring) : bool :=
  match v with
  | Some (_ :: _) => true
  | _ => false
  end.

(** ** [node:fs] *)

(** The tree holds an entry under the normal form of its path, without a
    separator at the end: a path is resolved as [path.resolve] does it,
    from its text, so that "." and doubled separators drop out and ".."
    takes the component before it away, whatever that component names.
    A relative path names its entry from the working directory, which the
    program never changes, and the tree holds the entry under that
    relative name.  The root, the working directory and the directories
    above it are no entries of the tree: they are always there. *)

(** The name under which the tree holds what [p] names. *)
Definition fs_key (p : jsstring) : jsstring :=
  let q := Path.normalize p in
  if Path.trailingSeparator q && negb (bool_decide (q = lit "/"))
  then removelast q else q.

(** "/", ".", "..", "../.." and the like. *)
Definition always_dir (q : jsstring) : bool :=
  forallb
    (fun seg =>
       bool_decide (seg = []) || bool_decide (seg = lit ".")
       || bool_decide (seg = lit ".."))
    (Path.split q).

(** A path that can only name a directory: its last component is empty,
    "." or "..". *)
Definition dir_form (p : jsstring) : bool :=
  match last (Path.split p) with
  | Some seg =>
      bool_decide (seg = []) || bool_decide (seg = lit ".")
      || bool_decide (seg = lit "..")
  | None => false
  end.

(** What the tree holds under a name. *)
Definition entry (f : gmap jsstring node) (q : jsstring) : option node :=
  if always_dir q then Some Dir else f !! q.

(** What a path names, if anything; the empty path names nothing, and a
    regular file is not found through a path that can only name a
    directory. *)
Definition stat (f : gmap jsstring node) (p : jsstring) : option node :=
  match p with
  | [] => None
  | _ =>
      match entry f (fs_key p) with
      | Some (File bytes) => if dir_form p then None else Some (File bytes)
      | found => found
      end
  end.

Section Program.

Variable X : Externals.

Definition fs_guard (p : jsstring) : M unit :=
  fun s =>
    match fs_fault X (trace s) p with
    | Some e => (Throw e, s)
    | None => (Ok tt, s)
    end.

(** [fs.existsSync(p)]; it never throws. *)
Definition existsSync (p : jsstring) : M bool :=
  gets (fun s =>
          match stat (files s) p with Some _ => true | None => false end).

(** The directories on the way to [p], the outermost first, [p] last. *)
Fixpoint ancestors_from (done : jsstring) (p : jsstring) : list jsstring :=
  match p with
  | [] => match done with [] => [] | _ => [rev done] end
  | c :: t =>
      (if (c =? Char.slash) && negb (bool_decide (done = []))
       then [rev done] else [])
      ++ ancestors_from (c :: done) t
  end.

Definition ancestors (p : jsstring) : list jsstring := ancestors_from [] p.

(** The error for a path that names nothing: a regular file stands
    where a directory of the path should be, or something is missing. *)
Definition absent (f : gmap jsstring node) (q : jsstring) : exn :=
  SystemError
    (if existsb
          (fun d => match entry f d with Some (File _) => true | _ => false end)
          (ancestors (Path.dirname q))
     then lit "ENOTDIR" else lit "ENOENT").

(** The directories [ds] are made one after the other, those that are
    there being left alone; the ones made before a failure stay. *)
Fixpoint mkdir_chain (t : list Event) (ds : list jsstring)
  (f : gmap jsstring node) : result unit * gmap jsstring node :=
  match ds with
  | [] => (Ok tt, f)
  | d :: rest =>
      match entry f d with
      | Some (File _) =>
          (Throw (SystemError
                    (match rest with
                     | [] => lit "EEXIST"
                     | _ => lit "ENOTDIR"
                     end)), f)
      | Some Dir => mkdir_chain t rest f
      | None =>
          match fs_fault X t d with
          | Some e => (Throw e, f)
          | None => mkdir_chain t rest (<[d := Dir]> f)
          end
      end
  end.

(** [fs.mkdirSync(p, { recursive: true })]. *)
Definition mkdirSync_recursive (p : jsstring) : M unit :=
  fun s =>
    match p with
    | [] => (Throw (SystemError (lit "ENOENT")), s)
    | _ =>
        let '(r, f) :=
          mkdir_chain (trace s) (ancestors (fs_key p)) (files s) in
        (r, set_files f s)
    end.

(** [fs.writeFileSync(p, bytes)]: the file is opened, which makes it or
    empties it, and then written; a write that is cut short leaves the
    bytes that got through. *)
Definition writeFileSync (p : jsstring) (bytes : list N) : M unit :=
  fun s =>
    let q := fs_key p in
    match p with
    | [] => (Throw (SystemError (lit "ENOENT")), s)
    | _ =>
        if dir_form p || always_dir q
        then (Throw (SystemError
                       (match entry (files s) q with
                        | Some (File _) => lit "ENOTDIR"
                        | _ => lit "EISDIR"
                        end)), s)
        else
          match files s !! q with
          | Some Dir => (Throw (SystemError (lit "EISDIR")), s)
          | _ =>
              match entry (files s) (Path.dirname q) with
              | Some Dir =>
                  match fs_fault X (trace s) p with
                  | Some e => (Throw e, s)
                  | None =>
                      match write_fault X (trace s) p bytes with
                      | Some (e, n) =>
                          (Throw e,
                           set_files
                             (<[q := File (take n bytes)]> (files s)) s)
                      | None =>
                          (Ok tt,
                           set_files (<[q := File bytes]> (files s)) s)
                      end
                  end
              | _ => (Throw (absent (files s) q), s)
              end
          end
    end.

(** [fs.readFileSync(p, "utf-8")], as the bytes that [JSON_parse] decodes. *)
Definition readFileSync (p : jsstring) : M (list N) :=
  fs_guard p ;;;
  fun s =>
    match p with
    | [] => (Throw (SystemError (lit "ENOENT")), s)
    | _ =>
        match entry (files s) (fs_key p) with
        | Some (File bytes) =>
            if dir_form p then (Throw (SystemError (lit "ENOTDIR")), s)
            else (Ok bytes, s)
        | Some Dir => (Throw (SystemError (lit "EISDIR")), s)
        | None => (Throw (absent (files s) (fs_key p)), s)
        end
    end.

(** [fs.readdirSync(p)]: the order of the names is the system's. *)
Definition readdirSync (p : jsstring) : M (list jsstring) :=
  fs_guard p ;;;
  fun s => lift (readdir_names X (files s) p) s.

(** ** The prompt cache, a [Map<string, string>] *)

Fixpoint Map_get (k : jsstring) (m : list (jsstring * jsstring))
  : option jsstring :=
  match m with
  | [] => None
  | (k', v) :: rest => if bool_decide (k' = k) then Some v else Map_get k rest
  end.

Definition Map_has (k : jsstring) (m : list (jsstring * jsstring)) : bool :=
  match Map_get k m with Some _ => true | None => false end.

(** An existing key keeps its place, a new one goes last. *)
Fixpoint Map_set (k v : jsstring) (m : list (jsstring * jsstring))
  : list (jsstring * jsstring) :=
  match m with
  | [] => [(k, v)]
  | (k', v') :: rest =>
      if bool_decide (k' = k) then (k, v) :: rest
      else (k', v') :: Map_set k v rest
  end.

Definition getCacheKey (itemName category : jsstring) : jsstring :=
  category ++ lit "::" ++ itemName.

(** ** Stage 1: [generatePromptWithGPT] *)

(** [openai.chat.completions.create(...)]: the instruction text is a fixed
    function of the category and of the item, which stand for it here. *)
Definition chat_create (category : jsstring) (item : MenuItem)
  : M OpenAI.ChatCompletion :=
  fun s =>
    lift (chat_completions_create X (trace s) category item)
      (emit (ChatCompletionsCreate category item) s).

Definition generatePromptWithGPT (item : MenuItem) (category : jsstring)
  : M jsstring :=
  let cacheKey := getCacheKey (name item) category in
  cached <- gets (fun s => Map_has cacheKey (promptCache s)) ;;
  if cached then
    gets (fun s => default [] (Map_get cacheKey (promptCache s)))
  else
    try_catch
      (response <- chat_create category item ;;
       match OpenAI.choices response with
       | [] => throw TypeError
       | choice :: _ =>
           let generatedPrompt := default [] (OpenAI.content choice) in
           match generatedPrompt with
           | [] => throw (Error (lit "Empty prompt generated from ChatGPT"))
           | _ =>
               modify (fun s =>
                         set_promptCache
                           (Map_set cacheKey generatedPrompt (promptCache s))
                           s) ;;;
               ret generatedPrompt
           end
       end)
      (fun error => throw error).

(** ** Stage 2: [generateImage] *)

(** [ai.models.generateContent({ model, contents: prompt })]. *)
Definition generateContent (model prompt : jsstring)
  : M GenAI.GenerateContentResponse :=
  fun s =>
    lift (models_generateContent X (trace s) model prompt)
      (emit (GenerateContent model prompt) s).

(** [part.inlineData && part.inlineData.data]: the payload when both are
    truthy, an empty string being falsy. *)
Definition inline_payload (part : GenAI.Part) : option jsstring :=
  match GenAI.inlineData part with
  | Some blob =>
      match GenAI.data blob with
      | Some (c :: d) => Some (c :: d)
      | _ => None
      end
  | None => None
  end.

(** The body of the [if] inside the loop, up to its [break]. *)
Definition save_image (outputPath imageData : jsstring) : M unit :=
  let buffer := Buffer_from_base64 X imageData in
  let outputDir := Path.dirname outputPath in
  dir_exists <- existsSync outputDir ;;
  (if negb dir_exists then mkdirSync_recursive outputDir else ret tt) ;;;
  writeFileSync outputPath buffer.

(** The loop over [candidate.content.parts]; its value is [imageSaved]. *)
Fixpoint save_first_image (outputPath : jsstring) (ps : list GenAI.Part)
  : M bool :=
  match ps with
  | [] => ret false
  | part :: rest =>
      match inline_payload part with
      | Some imageData => save_image outputPath imageData ;;; ret true
      | None => save_first_image outputPath rest
      end
  end.

Definition default_model : jsstring := lit "gemini-2.5-flash-image".

Definition generateImage (options : GenerateImageOptions) : M unit :=
  let model := default default_model (model options) in
  try_catch
    (apiKey <- gets GOOGLE_API_KEY ;;
     if negb (truthy apiKey) then
       throw (Error (lit "GOOGLE_API_KEY environment variable is not set. Please create a .env file with your API key."))
     else
       response <- generateContent model (prompt options) ;;
       match GenAI.candidates response with
       | None | Some [] =>
           throw (Error (lit "No image generated. Please try a different prompt."))
       | Some (candidate :: _) =>
           match GenAI.content candidate with
           | None =>
               throw (Error (lit "Invalid response structure from Gemini API."))
           | Some content =>
               match GenAI.parts content with
               | None =>
                   throw (Error (lit "Invalid response structure from Gemini API."))
               | Some parts =>
                   imageSaved <- save_first_image (outputPath options) parts ;;
                   if negb imageSaved then
                     throw (Error (lit "No image data found in response"))
                   else ret tt
               end
           end
       end)
    (fun error => throw error).

(** ** The orchestrator: [main] *)

(** [await new Promise((resolve) => setTimeout(resolve, ms))]. *)
Definition sleep (ms : N) : M unit := modify (emit (SetTimeout ms)).

(** [totalProcessed++], [totalSkipped++], [totalFailed++]. *)
Definition bump_processed (s : State) : State :=
  set_counters (totalProcessed s + 1) (totalSkipped s) (totalFailed s) s.

Definition bump_skipped (s : State) : State :=
  set_counters (totalProcessed s) (totalSkipped s + 1) (totalFailed s) s.

Definition bump_failed (s : State) : State :=
  set_counters (totalProcessed s) (totalSkipped s) (totalFailed s + 1) s.

Definition incr_processed : M unit := modify bump_processed.

Definition incr_skipped : M unit := modify bump_skipped.

Definition incr_failed : M unit := modify bump_failed.

(** The path of an item's image, as the innermost loop computes it. *)
Definition item_outputPath (outputBaseDir segment formattedCategory : jsstring)
  (item : MenuItem) : jsstring :=
  let fileName := formatFileName (name item) ++ lit ".png" in
  let categoryDir := Path.join [outputBaseDir; segment; formattedCategory] in
  Path.join [categoryDir; fileName].

(** The two stages at the head of the [try] block. *)
Definition stages (categoryName outputPath : jsstring) (item : MenuItem)
  : M unit :=
  prompt <- generatePromptWithGPT item categoryName ;;
  generateImage
    {| prompt := prompt; outputPath := outputPath; model := None |}.

(** The body of [for (const item of category.Items)]. *)
Definition process_item (outputBaseDir segment categoryName
  formattedCategory : jsstring) (item : MenuItem) : M unit :=
  let outputPath :=
    item_outputPath outputBaseDir segment formattedCategory item in
  file_exists <- existsSync outputPath ;;
  if file_exists then incr_skipped
  else
    try_catch
      (stages categoryName outputPath item ;;;
       incr_processed ;;;
       sleep 1000)
      (fun error => incr_failed).

(** The body of [for (const [categoryName, category] of ...)]. *)
Definition process_category (outputBaseDir segment : jsstring)
  (entry : jsstring * Category) : M unit :=
  let '(categoryName, category) := entry in
  let formattedCategory := formatFileName categoryName in
  for_of (Items category)
    (process_item outputBaseDir segment categoryName formattedCategory).

(** [file.replace(/\.json$/, "").toLowerCase()]: a file name is any text,
    so this is the lower-casing of the library. *)
Definition segment_of (file : jsstring) : jsstring :=
  String_toLowerCase X (strip_json file).

(** The body of [for (const file of files)]. *)
Definition process_file (inputDir outputBaseDir : jsstring) (file : jsstring)
  : M unit :=
  let segment := segment_of file in
  let inputPath := Path.join [inputDir; file] in
  inputData <- readFileSync inputPath ;;
  menuData <- lift (JSON_parse X inputData) ;;
  for_of menuData (process_category outputBaseDir segment).

(** The four lines of the closing report. *)
Record Summary := {
  Generated : N;
  Skipped : N;
  Failed : N;
  Total : N
}.

(** The [try] block of [main]. *)
Definition main_try : M Summary :=
  google <- gets GOOGLE_API_KEY ;;
  if negb (truthy google) then
    throw (Error (lit "GOOGLE_API_KEY environment variable is not set. Please create a .env file with your API key."))
  else
  openai <- gets OPENAI_API_KEY ;;
  if negb (truthy openai) then
    throw (Error (lit "OPENAI_API_KEY environment variable is not set. Please create a .env file with your API key."))
  else
  here <- gets cwd ;;
  let inputDir := Path.join [here; lit "input"] in
  input_exists <- existsSync inputDir ;;
  if negb input_exists then
    throw (Error (lit "input directory not found at " ++ inputDir))
  else
  names <- readdirSync inputDir ;;
  let files := filter (fun file => endsWith file (lit ".json") = true) names in
  match files with
  | [] => throw (Error (lit "No JSON files found in " ++ inputDir))
  | _ =>
      let outputBaseDir := Path.join [here; lit "output"] in
      modify (set_counters 0 0 0) ;;;
      for_of files (process_file inputDir outputBaseDir) ;;;
      let cacheOutputPath := Path.join [here; lit "prompts-cache.json"] in
      cacheData <- gets promptCache ;;
      writeFileSync cacheOutputPath (JSON_stringify X cacheData) ;;;
      p <- gets totalProcessed ;;
      k <- gets totalSkipped ;;
      f <- gets totalFailed ;;
      ret {| Generated := p; Skipped := k; Failed := f; Total := p + k + f |}
  end.

(** How the process ends: [main] returns and the process exits with
    status 0, or the [catch] block calls [process.exit(1)]. *)
Inductive Ending :=
| Returned (report : Summary)
| Exited (code : N).

Definition exit_status (e : Ending) : N :=
  match e with
  | Returned _ => 0
  | Exited code => code
  end.

Definition main (s : State) : Ending * State :=
  match main_try s with
  | (Ok report, s') => (Returned report, s')
  | (Throw _, s') => (Exited 1, s')
  end.

(** *** The documents that a run enumerates *)

Definition count_document (menuData : MenuData) : N :=
  fold_right
    (fun entry n => N.of_nat (length (Items (snd entry))) + n) 0 menuData.

(** The names that [main] keeps in [files]. *)
Definition input_files (s : State) : list jsstring :=
  match readdir_names X (files s) (Path.join [cwd s; lit "input"]) with
  | inr names => filter (fun file => endsWith file (lit ".json") = true) names
  | inl _ => []
  end.

(** The document that the file of that name holds, when it parses. *)
Definition input_document (s : State) (file : jsstring) : option MenuData :=
  match files s !! Path.join [Path.join [cwd s; lit "input"]; file] with
  | Some (File bytes) =>
      match JSON_parse X bytes with
      | inr menuData => Some menuData
      | inl _ => None
      end
  | _ => None
  end.

(** The number of items in the documents of the input directory. *)
Definition enumerated_items (s : State) : N :=
  fold_right
    (fun file n =>
       match input_document s file with
       | Some menuData => count_document menuData
       | None => 0
       end + n)
    0 (input_files s).

End Program.

(** ** Observations on a run *)

(** A request to one of the two remote services. *)
Definition is_request (e : Event) : bool :=
  match e with
  | ChatCompletionsCreate _ _ | GenerateContent _ _ => true
  | SetTimeout _ => false
  end.

(** [s'] comes after [s] with the counters of [main] as they were and
    nothing but remote requests in between. *)
Definition staged (s s' : State) : Prop :=
  cwd s' = cwd s
  /\ GOOGLE_API_KEY s' = GOOGLE_API_KEY s
  /\ OPENAI_API_KEY s' = OPENAI_API_KEY s
  /\ totalProcessed s' = totalProcessed s
  /\ totalSkipped s' = totalSkipped s
  /\ totalFailed s' = totalFailed s
  /\ exists requests,
       trace s' = trace s ++ requests
       /\ forallb is_request requests = true.

(** No regular file appeared or changed except, possibly, at [p]. *)
Definition files_kept_but (p : jsstring) (s s' : State) : Prop :=
  forall k bytes,
    files s' !! k = Some (File bytes) ->
    k = p \/ files s !! k = Some (File bytes).

(** The regular files of [s'] whose name does not end with "g" were in [s]
    already, with the same bytes. *)
Definition inputs_kept (s s' : State) : Prop :=
  forall k bytes,
    last k <> Some 103 ->
    files s' !! k = Some (File bytes) -> files s !! k = Some (File bytes).

Definition counted (s : State) : N :=
  totalProcessed s + totalSkipped s + totalFailed s.

(** [s'] comes after [s] in the same process, with [n] more items counted
    and no counter lower than it was. *)
Definition advanced (n : N) (s s' : State) : Prop :=
  cwd s' = cwd s
  /\ inputs_kept s s'
  /\ counted s' = counted s + n
  /\ totalProcessed s <= totalProcessed s'
  /\ totalSkipped s <= totalSkipped s'
  /\ totalFailed s <= totalFailed s'.

(** ** Resolved paths *)

(** A path segment that normalization keeps as it is. *)
Definition is_plain (seg : jsstring) : bool :=
  negb (bool_decide (seg = []))
  && forallb (fun c => negb (c =? Char.slash)) seg
  && negb (bool_decide (seg = lit "."))
  && negb (bool_decide (seg = lit "..")).

(** The absolute path made of these segments; the root for none. *)
Definition absolute (segs : list jsstring) : jsstring :=
  Char.slash :: Path.unsplit segs.

(** The relative path [rel], read from the directory [dir]. *)
Definition under (dir rel : jsstring) : jsstring :=
  if bool_decide (dir = lit "/") then Char.slash :: rel
  else dir ++ Char.slash :: rel.

(** What [normalizeString] keeps of a path, the last segment first: names,
    and under them the ".." that lead a relative path. *)
Definition kept (allow : bool) (stack : list jsstring) : Prop :=
  exists names dots,
    stack = names ++ dots
    /\ Forall (fun seg => is_plain seg = true) names
    /\ Forall (fun seg => seg = lit "..") dots
    /\ (allow = false -> dots = []).

(** ** A small catalogue to run the program on *)

Module Demo.
Definition steak : MenuItem :=
  {| name := lit "Steak Frites"; price := 24 # 1;
     tags := [lit "beef"; lit "french"] |}.

Definition soup : MenuItem :=
  {| name := lit "Onion Soup"; price := 19 # 2; tags := [] |}.

Definition mystery : MenuItem :=
  {| name := lit "Mystery Box"; price := 5 # 1; tags := [lit "surprise"] |}.

Definition image_part (d : jsstring) : GenAI.Part :=
  {| GenAI.inlineData := Some {| GenAI.data := Some d |};
     GenAI.text := None |}.

Definition text_part (t : jsstring) : GenAI.Part :=
  {| GenAI.inlineData := None; GenAI.text := Some t |}.

Definition candidate_of (ps : list GenAI.Part) : GenAI.Candidate :=
  {| GenAI.content := Some {| GenAI.parts := Some ps |} |}.

(** Two candidates; the first one holds a text part and two images. *)
Definition illustrated : GenAI.GenerateContentResponse :=
  {| GenAI.candidates :=
       Some [candidate_of [text_part (lit "here it is");
                           image_part (lit "aGk=");
                           image_part (lit "eA==")];
             candidate_of [image_part (lit "eQ==")]] |}.

Definition dinner : MenuData :=
  [(lit "Mains", {| Items := [steak; soup] |})].

(** The text service refuses the mystery box and describes the rest; the
    image service has no candidate when exactly one event came before its
    call, and illustrates the prompt otherwise; a file holding "dinner"
    parses, no other does; the input directory lists "Broken.json" too
    when it is there. *)
Definition services : Externals :=
  {| chat_completions_create := fun _ _ item =>
       if bool_decide (name item = lit "Mystery Box")
       then inl (Rejected (lit "429 Too Many Requests"))
       else inr {| OpenAI.choices :=
                     [{| OpenAI.content :=
                           Some (lit "photo of " ++ name item) |}] |};
     models_generateContent := fun t _ _ =>
       match t with
       | [_] => inr {| GenAI.candidates := Some [] |}
       | _ => inr illustrated
       end;
     Buffer_from_base64 := fun d => d;
     readdir_names := fun f _ =>
       match f !! lit "/work/input/Broken.json" with
       | Some _ => inr [lit "Dinner.json"; lit "Broken.json"]
       | None => inr [lit "notes.txt"; lit "Dinner.json"]
       end;
     JSON_parse := fun bytes =>
       if bool_decide (bytes = lit "dinner") then inr dinner
       else inl (Error (lit "Unexpected token"));
     JSON_stringify := fun m => concat (map (fun kv => fst kv ++ snd kv) m);
     String_toLowerCase := toLowerCase;
     fs_fault := fun _ _ => None;
     write_fault := fun _ _ _ => None |}.

(** The same services on a disk that takes one byte of an image and no
    more. *)
Definition flaky : Externals :=
  {| chat_completions_create := chat_completions_create services;
     models_generateContent := models_generateContent services;
     Buffer_from_base64 := Buffer_from_base64 services;
     readdir_names := readdir_names services;
     JSON_parse := JSON_parse services;
     JSON_stringify := JSON_stringify services;
     String_toLowerCase := String_toLowerCase services;
     fs_fault := fs_fault services;
     write_fault := fun _ p _ =>
       if endsWith p (lit ".png")
       then Some (SystemError (lit "ENOSPC"), 1%nat) else None |}.

Definition tree : gmap jsstring node :=
  <[lit "/work/input/Dinner.json" := File (lit "dinner")]>
    (<[lit "/work/input" := Dir]> (<[lit "/work" := Dir]> ∅)).

Definition boot : State :=
  {| cwd := lit "/work";
     GOOGLE_API_KEY := Some (lit "google-key");
     OPENAI_API_KEY := Some (lit "openai-key");
     files := tree;
     promptCache := [];
     totalProcessed := 0; totalSkipped := 0; totalFailed := 0;
     trace := [] |}.

(** The same, with a second document that does not parse. *)
Definition boot_broken : State :=
  set_files (<[lit "/work/input/Broken.json" := File (lit "{")]> tree) boot.

(** The same, with the image of the steak already there. *)
Definition boot_resumed : State :=
  set_files
    (<[lit "/work/output/dinner/mains/steak-frites.png" := File (lit "old")]>
       tree) boot.

(** The same, once the prompt of the steak is in the cache. *)
Definition boot_cached : State :=
  set_promptCache [(lit "Mains::Steak Frites", lit "photo of Steak Frites")]
    boot.

Definition base : jsstring := lit "/work/output".
End Demo.

(** ** More observations *)

(** The characters of [s] in the class [\w], which is [A-Za-z0-9_]: the
    Basic Latin letters, the ASCII digits and the underscore, in their
    order.  A letter of another script is not one of them. *)
Fixpoint word_chars (s : jsstring) : jsstring :=
  match s with
  | [] => []
  | c :: t => if Char.is_word c then c :: word_chars t else word_chars t
  end.

(** No colon in [s]. *)
Definition colon_free (s : jsstring) : bool :=
  forallb (fun c => negb (c =? 58)) s.

(** [s'] comes after [s] with no prompt lost or changed, every new prompt
    being a non-empty answer to a request made in between. *)
Definition cache_grown (s s' : State) : Prop :=
  exists t,
    trace s' = trace s ++ t
    /\ (forall k v,
          Map_get k (promptCache s) = Some v ->
          Map_get k (promptCache s') = Some v)
    /\ (forall k v,
          Map_get k (promptCache s') = Some v ->
          Map_get k (promptCache s) = Some v
          \/ (v <> []
              /\ exists category item,
                   k = getCacheKey (name item) category
                   /\ In (ChatCompletionsCreate category item) t)).

Definition is_chat_request (e : Event) : bool :=
  match e with ChatCompletionsCreate _ _ => true | _ => false end.

Definition is_image_request (e : Event) : bool :=
  match e with GenerateContent _ _ => true | _ => false end.

Definition is_pause (e : Event) : bool :=
  match e with SetTimeout _ => true | _ => false end.

(** The number of events of [t] of the kind [f]. *)
Fixpoint count_events (f : Event -> bool) (t : list Event) : N :=
  match t with
  | [] => 0
  | e :: rest => (if f e then 1 else 0) + count_events f rest
  end.

(** [s'] comes after [s] with [p] more items generated and [f] more
    failed, the events [t] in between being as many pauses as items
    generated, an image request for each of these and for no more than the
    failed ones besides, and no more chat requests than both together; and
    with a Google key, at least one request for each of them. *)
Definition accounted (s s' : State) : Prop :=
  GOOGLE_API_KEY s' = GOOGLE_API_KEY s
  /\ exists p f t,
       totalProcessed s' = totalProcessed s + p
       /\ totalFailed s' = totalFailed s + f
       /\ trace s' = trace s ++ t
       /\ count_events is_pause t = p
       /\ p <= count_events is_image_request t
       /\ count_events is_image_request t <= p + f
       /\ count_events is_chat_request t <= p + f
       /\ (truthy (GOOGLE_API_KEY s) = true ->
           p + f
           <= count_events is_chat_request t
              + count_events is_image_request t).

(** The output paths of the items of a document read from [file], in the
    order of the loops. *)
Definition output_paths (X : Externals) (s : State) (file : jsstring)
  (menuData : MenuData) : list jsstring :=
  flat_map
    (fun entry : jsstring * Category =>
       map (item_outputPath (Path.join [cwd s; lit "output"])
              (segment_of X file) (formatFileName (fst entry)))
         (Items (snd entry)))
    menuData.

(** [s'] comes after [s] with nothing generated, nothing failed, nothing
    asked and nothing written. *)
Definition idle (s s' : State) : Prop :=
  cwd s' = cwd s
  /\ files s' = files s
  /\ promptCache s' = promptCache s
  /\ trace s' = trace s
  /\ totalProcessed s' = totalProcessed s
  /\ totalFailed s' = totalFailed s.

(** The small catalogue once both of its images are there. *)
Definition boot_complete : State :=
  set_files
    (<[lit "/work/output/dinner/mains/onion-soup.png" := File (lit "old")]>
       (files Demo.boot_resumed)) Demo.boot.

(** An item whose name sanitizes as that of the steak does. *)
Definition steak_again : MenuItem :=
  {| name := lit "STEAK (frites)"; price := 30 # 1; tags := [] |}.

(** [s'] comes after [s] with every prompt of [s] still in the cache and no
    chat request for an item whose prompt [s] held. *)
Definition memoized (s s' : State) : Prop :=
  exists t,
    trace s' = trace s ++ t
    /\ (forall k v,
          Map_get k (promptCache s) = Some v ->
          Map_get k (promptCache s') = Some v)
    /\ (forall category item,
          In (ChatCompletionsCreate category item) t ->
          Map_get (getCacheKey (name item) category) (promptCache s) = None).

(* ================================================================== *)

(** * Properties *)

(** ** Character classes *)

Ltac char_step :=
  match goal with
  | |- context [N.leb ?a ?b] => destruct (N.leb_spec a b)
  | |- context [N.eqb ?a ?b] => destruct (N.eqb_spec a b)
  | H : context [N.leb ?a ?b] |- _ => destruct (N.leb_spec a b)
  | H : context [N.eqb ?a ?b] |- _ => destruct (N.eqb_spec a b)
  end;
  cbn [andb orb negb] in *.

Ltac char_cases :=
  unfold safe_char, Char.to_lower, Char.is_word, Char.is_space, Char.is_digit,
    Char.is_upper, Char.is_lower, Char.hyphen, Char.underscore, Char.slash,
    Char.amp, Char.lparen, Char.rparen, Char.dot in *;
  repeat char_step; first [ discriminate | reflexivity | lia ].

Lemma to_lower_safe c : word_or_hyphen c = true -> safe_char (Char.to_lower c) = true.
Proof. unfold word_or_hyphen. char_cases. Qed.

Lemma to_lower_hyphen c : (Char.to_lower c =? Char.hyphen) = (c =? Char.hyphen).
Proof. char_cases. Qed.

Lemma safe_not_space c : safe_char c = true -> Char.is_space c = false.
Proof. char_cases. Qed.

Lemma safe_word_or_hyphen c : safe_char c = true -> word_or_hyphen c = true.
Proof. unfold word_or_hyphen. char_cases. Qed.

Lemma safe_to_lower c : safe_char c = true -> Char.to_lower c = c.
Proof. char_cases. Qed.

(** ** The scans of [formatFileName] *)

Abbreviation is_hyphen := (fun c : N => c =? Char.hyphen).

Lemma has_double_hyphen_cons c d r :
  has_double_hyphen (c :: d :: r)
  = ((c =? Char.hyphen) && (d =? Char.hyphen)) || has_double_hyphen (d :: r).
Proof. reflexivity. Qed.

Lemma ends_with_hyphen_cons c d r :
  ends_with_hyphen (c :: d :: r) = ends_with_hyphen (d :: r).
Proof. reflexivity. Qed.

Lemma strip_edges_from_cons b c d r :
  strip_edges_from b (c :: d :: r)
  = if (c =? Char.hyphen) && b then strip_edges_from false (d :: r)
    else c :: strip_edges_from false (d :: r).
Proof.
  change (strip_edges_from b (c :: d :: r))
    with (if (c =? Char.hyphen) && (b || false)
          then strip_edges_from false (d :: r)
          else c :: strip_edges_from false (d :: r)).
  rewrite orb_false_r. reflexivity.
Qed.

Lemma has_double_hyphen_tail c s :
  has_double_hyphen (c :: s) = false -> has_double_hyphen s = false.
Proof.
  destruct s as [|d r]; [reflexivity|]. rewrite has_double_hyphen_cons.
  intros H. apply orb_false_iff in H as [_ H]. exact H.
Qed.

Lemma has_double_hyphen_head c s :
  has_double_hyphen (c :: s) = false -> (c =? Char.hyphen) = true ->
  starts_with_hyphen s = false.
Proof.
  destruct s as [|d r]; [reflexivity|]. rewrite has_double_hyphen_cons.
  intros H E. rewrite E in H. apply orb_false_iff in H as [H _]. exact H.
Qed.

Lemma has_double_hyphen_build c s :
  has_double_hyphen s = false ->
  ((c =? Char.hyphen) = true -> starts_with_hyphen s = false) ->
  has_double_hyphen (c :: s) = false.
Proof.
  destruct s as [|d r]; [reflexivity|]. rewrite has_double_hyphen_cons.
  intros -> H. rewrite orb_false_r. cbn [starts_with_hyphen] in H.
  destruct (c =? Char.hyphen); [rewrite H|]; reflexivity.
Qed.

Lemma replace_each_word s :
  forallb word_or_hyphen
    (replace_each (fun c => negb (Char.is_word c || (c =? Char.hyphen))) s)
  = true.
Proof.
  induction s as [|c s IH]; [reflexivity|]. cbn [replace_each map forallb].
  fold (replace_each (fun c => negb (Char.is_word c || (c =? Char.hyphen))) s).
  rewrite IH, andb_true_r. unfold word_or_hyphen.
  destruct (Char.is_word c || (c =? Char.hyphen)) eqn:E; cbn [negb]; [exact E|].
  reflexivity.
Qed.

Lemma replace_runs_word b s :
  forallb word_or_hyphen s = true ->
  forallb word_or_hyphen (replace_runs_from is_hyphen b s) = true.
Proof.
  revert b. induction s as [|c s IH]; intros b H; [reflexivity|].
  cbn [forallb] in H. apply andb_true_iff in H as [Hc Hs].
  cbn [replace_runs_from].
  destruct (c =? Char.hyphen) eqn:E; [destruct b|]; cbn [forallb];
    rewrite ?IH by assumption; rewrite ?Hc; reflexivity.
Qed.

Lemma replace_runs_single b s :
  has_double_hyphen (replace_runs_from is_hyphen b s) = false
  /\ (b = true -> starts_with_hyphen (replace_runs_from is_hyphen b s) = false).
Proof.
  revert b. induction s as [|c s IH]; intros b; [split; reflexivity|].
  cbn [replace_runs_from].
  destruct (c =? Char.hyphen) eqn:E.
  - destruct (IH true) as [Hd Hs]. specialize (Hs eq_refl). destruct b.
    + split; [exact Hd | intros _; exact Hs].
    + split; [|discriminate].
      apply has_double_hyphen_build; [exact Hd | intros _; exact Hs].
  - destruct (IH false) as [Hd _]. split.
    + apply has_double_hyphen_build; [exact Hd | congruence].
    + intros _. cbn [starts_with_hyphen]. exact E.
Qed.

(** Past the first position the scan can only drop the last character. *)
Lemma strip_tail_shape s :
  forallb word_or_hyphen s = true ->
  has_double_hyphen s = false ->
  forallb word_or_hyphen (strip_edges_from false s) = true
  /\ has_double_hyphen (strip_edges_from false s) = false
  /\ ends_with_hyphen (strip_edges_from false s) = false
  /\ (starts_with_hyphen s = false ->
      starts_with_hyphen (strip_edges_from false s) = false).
Proof.
  induction s as [|c s IH]; intros Hw Hd; [repeat split|].
  cbn [forallb] in Hw. apply andb_true_iff in Hw as [Hc Hs].
  pose proof (has_double_hyphen_tail _ _ Hd) as Hd'.
  destruct (IH Hs Hd') as (Iw & Id & Ie & Ist). clear IH.
  destruct s as [|d r].
  - cbn [strip_edges_from orb]. rewrite andb_true_r.
    destruct (c =? Char.hyphen) eqn:E.
    + repeat split.
    + cbn [strip_edges_from forallb has_double_hyphen ends_with_hyphen
             starts_with_hyphen]. rewrite Hc, E. repeat split.
  - rewrite strip_edges_from_cons, andb_false_r.
    set (q := strip_edges_from false (d :: r)) in *.
    cbn [forallb]. rewrite Hc, Iw. split; [reflexivity|].
    pose proof (has_double_hyphen_head _ _ Hd) as Hcd.
    split; [|split].
    + apply has_double_hyphen_build; [exact Id|]. intros E. auto.
    + destruct q as [|e q'] eqn:Eq; [|rewrite ends_with_hyphen_cons; exact Ie].
      cbn [ends_with_hyphen].
      destruct r as [|e r'].
      * subst q. cbn [strip_edges_from orb] in Eq. rewrite andb_true_r in Eq.
        destruct (d =? Char.hyphen) eqn:Ed; [|discriminate].
        destruct (c =? Char.hyphen) eqn:E; [|reflexivity].
        specialize (Hcd eq_refl). cbn [starts_with_hyphen] in Hcd. congruence.
      * subst q. rewrite strip_edges_from_cons, andb_false_r in Eq.
        discriminate.
    + intros H; exact H.
Qed.

Lemma strip_edges_shape s :
  forallb word_or_hyphen s = true ->
  has_double_hyphen s = false ->
  forallb word_or_hyphen (strip_edges s) = true
  /\ has_double_hyphen (strip_edges s) = false
  /\ ends_with_hyphen (strip_edges s) = false
  /\ starts_with_hyphen (strip_edges s) = false.
Proof.
  intros Hw Hd. unfold strip_edges. destruct s as [|c s]; [repeat split|].
  cbn [forallb] in Hw. apply andb_true_iff in Hw as [Hc Hs].
  pose proof (has_double_hyphen_tail _ _ Hd) as Hd'.
  destruct (c =? Char.hyphen) eqn:E.
  - assert (R : strip_edges_from true (c :: s) = strip_edges_from false s).
    { cbn [strip_edges_from orb]. rewrite E. reflexivity. }
    rewrite R.
    destruct (strip_tail_shape s Hs Hd') as (Iw & Id & Ie & Ist).
    repeat split; try assumption. apply Ist.
    exact (has_double_hyphen_head _ _ Hd E).
  - assert (R : strip_edges_from true (c :: s)
                = strip_edges_from false (c :: s)).
    { cbn [strip_edges_from]. rewrite E. reflexivity. }
    rewrite R.
    destruct (strip_tail_shape (c :: s)) as (Iw & Id & Ie & Ist).
    + cbn [forallb]. rewrite Hc, Hs. reflexivity.
    + exact Hd.
    + repeat split; try assumption. apply Ist. exact E.
Qed.

(** Lower-casing keeps the hyphens where they are. *)
Lemma toLowerCase_starts s :
  starts_with_hyphen (toLowerCase s) = starts_with_hyphen s.
Proof. destruct s as [|c s]; [reflexivity|]. apply to_lower_hyphen. Qed.

Lemma toLowerCase_ends s :
  ends_with_hyphen (toLowerCase s) = ends_with_hyphen s.
Proof.
  induction s as [|c [|d r] IH]; [reflexivity|apply to_lower_hyphen|].
  exact IH.
Qed.

Lemma toLowerCase_double s :
  has_double_hyphen (toLowerCase s) = has_double_hyphen s.
Proof.
  induction s as [|c [|d r] IH]; [reflexivity|reflexivity|].
  change (toLowerCase (c :: d :: r))
    with (Char.to_lower c :: Char.to_lower d :: toLowerCase r).
  rewrite !has_double_hyphen_cons, !to_lower_hyphen.
  f_equal. exact IH.
Qed.

Lemma toLowerCase_safe s :
  forallb word_or_hyphen s = true -> forallb safe_char (toLowerCase s) = true.
Proof.
  induction s as [|c s IH]; [reflexivity|]. cbn [forallb toLowerCase map].
  intros H. apply andb_true_iff in H as [Hc Hs].
  rewrite (to_lower_safe _ Hc). exact (IH Hs).
Qed.

(** What reaches [.toLowerCase()] is made of [A-Za-z0-9_] and hyphens, so
    the Basic Latin case mapping is all that [formatFileName] needs. *)
Lemma formatFileName_cased_shape name :
  forallb word_or_hyphen (formatFileName_cased name) = true
  /\ has_double_hyphen (formatFileName_cased name) = false
  /\ ends_with_hyphen (formatFileName_cased name) = false
  /\ starts_with_hyphen (formatFileName_cased name) = false.
Proof.
  unfold formatFileName_cased. apply strip_edges_shape.
  - apply replace_runs_word, replace_each_word.
  - apply replace_runs_single.
Qed.

Lemma formatFileName_sanitized name : sanitized (formatFileName name) = true.
Proof.
  destruct (formatFileName_cased_shape name) as (Hw & Hd & He & Hs).
  unfold sanitized, formatFileName.
  rewrite toLowerCase_safe, toLowerCase_starts, toLowerCase_ends,
    toLowerCase_double by exact Hw.
  rewrite Hd, He, Hs. reflexivity.
Qed.

(** *** A sanitized name is a fixed point *)

Lemma replace_runs_from_none p b s :
  forallb (fun c => negb (p c)) s = true -> replace_runs_from p b s = s.
Proof.
  revert b. induction s as [|c s IH]; intros b H; [reflexivity|].
  cbn [forallb] in H. apply andb_true_iff in H as [Hc Hs].
  cbn [replace_runs_from]. apply negb_true_iff in Hc. rewrite Hc.
  f_equal. exact (IH _ Hs).
Qed.

Lemma replace_each_none p s :
  forallb (fun c => negb (p c)) s = true -> replace_each p s = s.
Proof.
  induction s as [|c s IH]; intros H; [reflexivity|].
  cbn [forallb] in H. apply andb_true_iff in H as [Hc Hs].
  cbn [replace_each map]. apply negb_true_iff in Hc. rewrite Hc.
  f_equal. exact (IH Hs).
Qed.

Lemma forallb_impl_safe (q : N -> bool) s :
  (forall c, safe_char c = true -> q c = true) ->
  forallb safe_char s = true -> forallb q s = true.
Proof.
  intros Hq H. apply forallb_forall. intros c Hc. apply Hq.
  exact (proj1 (forallb_forall _ _) H c Hc).
Qed.

Lemma replace_runs_hyphen_id b s :
  has_double_hyphen s = false ->
  (b = true -> starts_with_hyphen s = false) ->
  replace_runs_from is_hyphen b s = s.
Proof.
  revert b. induction s as [|c s IH]; intros b Hd Hb; [reflexivity|].
  cbn [replace_runs_from]. cbn [starts_with_hyphen] in Hb.
  pose proof (has_double_hyphen_tail _ _ Hd) as Hd'.
  destruct (c =? Char.hyphen) eqn:E.
  - destruct b; [specialize (Hb eq_refl); discriminate|].
    pose proof (has_double_hyphen_head _ _ Hd E) as Hh.
    apply N.eqb_eq in E. subst c. f_equal. apply IH; [exact Hd'|].
    intros _. exact Hh.
  - f_equal. apply IH; [exact Hd' | discriminate].
Qed.

Lemma strip_edges_from_id b s :
  ends_with_hyphen s = false ->
  (b = true -> starts_with_hyphen s = false) ->
  strip_edges_from b s = s.
Proof.
  revert b. induction s as [|c s IH]; intros b He Hb; [reflexivity|].
  destruct s as [|d r].
  - cbn [strip_edges_from ends_with_hyphen] in *. rewrite He. reflexivity.
  - rewrite strip_edges_from_cons. rewrite ends_with_hyphen_cons in He.
    cbn [starts_with_hyphen] in Hb.
    destruct b; [rewrite (Hb eq_refl) | rewrite andb_false_r]; cbn [andb];
      f_equal; apply IH; auto; discriminate.
Qed.

Lemma toLowerCase_id s : forallb safe_char s = true -> toLowerCase s = s.
Proof.
  induction s as [|c s IH]; intros H; [reflexivity|].
  cbn [forallb] in H. apply andb_true_iff in H as [Hc Hs].
  cbn [toLowerCase map]. rewrite (safe_to_lower _ Hc). f_equal. exact (IH Hs).
Qed.

Lemma formatFileName_fixed s : sanitized s = true -> formatFileName s = s.
Proof.
  unfold sanitized. intros H.
  apply andb_true_iff in H as [H Hd]. apply andb_true_iff in H as [H He].
  apply andb_true_iff in H as [Hsafe Hs].
  apply negb_true_iff in Hd, He, Hs.
  unfold formatFileName, formatFileName_cased, replace_runs, strip_edges.
  rewrite (replace_runs_from_none Char.is_space)
    by (revert Hsafe; apply forallb_impl_safe; intros c Hc;
        rewrite (safe_not_space _ Hc); reflexivity).
  assert (Hnone : forall p, (forall c, safe_char c = true -> p c = false) ->
                            replace_each p s = s).
  { intros p Hp. apply replace_each_none. revert Hsafe.
    apply forallb_impl_safe. intros c Hc. rewrite (Hp c Hc). reflexivity. }
  rewrite (Hnone (fun c => c =? Char.slash)) by (intros c Hc; char_cases).
  rewrite (Hnone (fun c => c =? Char.amp)) by (intros c Hc; char_cases).
  rewrite (Hnone (fun c => c =? Char.lparen)) by (intros c Hc; char_cases).
  rewrite (Hnone (fun c => c =? Char.rparen)) by (intros c Hc; char_cases).
  rewrite (Hnone (fun c => negb (Char.is_word c || (c =? Char.hyphen))))
    by (intros c Hc; char_cases).
  rewrite replace_runs_hyphen_id by (auto; discriminate).
  rewrite strip_edges_from_id by auto.
  apply toLowerCase_id, Hsafe.
Qed.

(** *** The boolean shape predicates, read as statements on the string *)

Lemma starts_with_hyphen_head s :
  starts_with_hyphen s = false -> head s <> Some Char.hyphen.
Proof.
  destruct s as [|c s]; [discriminate|]. cbn. intros H [= ->]. discriminate.
Qed.

Lemma ends_with_hyphen_last s :
  ends_with_hyphen s = false -> last s <> Some Char.hyphen.
Proof.
  induction s as [|c [|d r] IH]; [discriminate| |exact IH].
  cbn. intros H [= ->]. discriminate.
Qed.

Lemma has_double_hyphen_infix s :
  has_double_hyphen s = false ->
  forall pre post, s <> pre ++ Char.hyphen :: Char.hyphen :: post.
Proof.
  intros H pre. revert s H. induction pre as [|a pre IH]; intros s H post E.
  - subst s. discriminate.
  - destruct s as [|c s]; [discriminate|]. injection E as -> E.
    exact (IH s (has_double_hyphen_tail _ _ H) post E).
Qed.

(** C7.  The sanitizer is idempotent: sanitizing a sanitized name gives it
    back, [formatFileName (formatFileName x) = formatFileName x] for every
    string [x]. *)
Theorem formatFileName_idempotent (x : jsstring) :
  formatFileName (formatFileName x) = formatFileName x.
Proof. apply formatFileName_fixed, formatFileName_sanitized. Qed.

(** C8.  The output of the sanitizer is made of lowercase letters, digits,
    underscores and hyphens only, it neither starts nor ends with a hyphen
    and holds no two hyphens in a row; and the name
    "Grilled Chicken & Rice (Large)" becomes "grilled-chicken-rice-large". *)
Theorem formatFileName_shape (x : jsstring) :
  Forall (fun c => safe_char c = true) (formatFileName x)
  /\ head (formatFileName x) <> Some Char.hyphen
  /\ last (formatFileName x) <> Some Char.hyphen
  /\ (forall pre post,
        formatFileName x <> pre ++ Char.hyphen :: Char.hyphen :: post)
  /\ formatFileName (lit "Grilled Chicken & Rice (Large)")
     = lit "grilled-chicken-rice-large".
Proof.
  pose proof (formatFileName_sanitized x) as H. unfold sanitized in H.
  apply andb_true_iff in H as [H Hd]. apply andb_true_iff in H as [H He].
  apply andb_true_iff in H as [Hsafe Hs].
  apply negb_true_iff in Hd, He, Hs.
  split; [|split; [|split; [|split]]].
  - apply Forall_forall. intros c Hc.
    apply (proj1 (forallb_forall _ _) Hsafe). apply list_elem_of_In. exact Hc.
  - apply starts_with_hyphen_head, Hs.
  - apply ends_with_hyphen_last, He.
  - apply has_double_hyphen_infix, Hd.
  - vm_compute. reflexivity.
Qed.

(** ** Computations *)

Lemma try_catch_rethrow {A} (body : M A) s :
  try_catch body (fun error => throw error) s = body s.
Proof. unfold try_catch, throw. destruct (body s) as [[a|e] s']; reflexivity. Qed.

Lemma bind_ok {A B} (m : M A) (k : A -> M B) s a s' :
  m s = (Ok a, s') -> bind m k s = k a s'.
Proof. unfold bind. intros ->. reflexivity. Qed.

Lemma bind_throw {A B} (m : M A) (k : A -> M B) s e s' :
  m s = (Throw e, s') -> bind m k s = (Throw e, s').
Proof. unfold bind. intros ->. reflexivity. Qed.

Lemma for_of_cons {A} (x : A) rest body s s1 :
  body x s = (Ok tt, s1) -> for_of (x :: rest) body s = for_of rest body s1.
Proof. intros H. cbn [for_of]. rewrite (bind_ok _ _ _ _ _ H). reflexivity. Qed.

(** ** The prompt cache *)

Lemma Map_get_set k v m : Map_get k (Map_set k v m) = Some v.
Proof.
  induction m as [|[k' v'] m IH]; cbn [Map_set Map_get].
  - rewrite bool_decide_eq_true_2; reflexivity.
  - destruct (bool_decide (k' = k)) eqn:E; cbn [Map_get].
    + rewrite bool_decide_eq_true_2; reflexivity.
    + rewrite E. exact IH.
Qed.

Section Properties.

Variable X : Externals.

(** *** Stage 1 *)

Lemma generatePromptWithGPT_hit item category s v :
  Map_get (getCacheKey (name item) category) (promptCache s) = Some v ->
  generatePromptWithGPT X item category s = (Ok v, s).
Proof.
  intros H. unfold generatePromptWithGPT, bind, gets, Map_has.
  rewrite H. cbn [default]. rewrite H. reflexivity.
Qed.

(** What a call that misses the cache does, by the answer of the service. *)
Lemma generatePromptWithGPT_miss item category s :
  Map_get (getCacheKey (name item) category) (promptCache s) = None ->
  generatePromptWithGPT X item category s
  = let called := emit (ChatCompletionsCreate category item) s in
    match chat_completions_create X (trace s) category item with
    | inl e => (Throw e, called)
    | inr response =>
        match OpenAI.choices response with
        | [] => (Throw TypeError, called)
        | choice :: _ =>
            match OpenAI.content choice with
            | Some (c :: t) =>
                (Ok (c :: t),
                 set_promptCache
                   (Map_set (getCacheKey (name item) category) (c :: t)
                      (promptCache s)) called)
            | _ =>
                (Throw (Error (lit "Empty prompt generated from ChatGPT")),
                 called)
            end
        end
    end.
Proof.
  intros H. unfold generatePromptWithGPT. unfold bind at 1.
  unfold gets, Map_has. rewrite H, try_catch_rethrow.
  unfold bind, chat_create, lift.
  destruct (chat_completions_create X (trace s) category item) as [e|r];
    [reflexivity|].
  unfold ret. destruct (OpenAI.choices r) as [|ch rest]; [reflexivity|].
  destruct (OpenAI.content ch) as [[|c t]|]; reflexivity.
Qed.

(** C3.  Prompt memoization with no caching of failures.  With the key
    [category::item.name] in the cache, the cached value is returned and
    nothing else happens, so no request goes to the text service.  Without
    it: a service error comes out as the same error and an empty text as
    an error of its own; a call that returns can only return a non-empty
    text, stored under the key by then, with exactly one request made, and
    asking again returns that text and makes no request; and whenever the
    call fails the cache is as it was. *)
Theorem generatePromptWithGPT_memoizes (item : MenuItem) (category : jsstring)
  (s : State) :
  let key := getCacheKey (name item) category in
  (forall v, Map_get key (promptCache s) = Some v ->
     generatePromptWithGPT X item category s = (Ok v, s))
  /\ (forall c t response others,
        Map_get key (promptCache s) = None ->
        chat_completions_create X (trace s) category item = inr response ->
        OpenAI.choices response
        = {| OpenAI.content := Some (c :: t) |} :: others ->
        exists s', generatePromptWithGPT X item category s = (Ok (c :: t), s'))
  /\ (forall v s',
        Map_get key (promptCache s) = None ->
        generatePromptWithGPT X item category s = (Ok v, s') ->
        v <> []
        /\ promptCache s' = Map_set key v (promptCache s)
        /\ Map_get key (promptCache s') = Some v
        /\ trace s' = trace s ++ [ChatCompletionsCreate category item]
        /\ generatePromptWithGPT X item category s' = (Ok v, s'))
  /\ (forall e,
        Map_get key (promptCache s) = None ->
        chat_completions_create X (trace s) category item = inl e ->
        exists s', generatePromptWithGPT X item category s = (Throw e, s'))
  /\ (forall response choice others,
        Map_get key (promptCache s) = None ->
        chat_completions_create X (trace s) category item = inr response ->
        OpenAI.choices response = choice :: others ->
        default [] (OpenAI.content choice) = [] ->
        exists s',
          generatePromptWithGPT X item category s
          = (Throw (Error (lit "Empty prompt generated from ChatGPT")), s'))
  /\ (forall e s',
        generatePromptWithGPT X item category s = (Throw e, s') ->
        promptCache s' = promptCache s).
Proof.
  intros key. split; [|split; [|split; [|split; [|split]]]].
  - intros v H. exact (generatePromptWithGPT_hit _ _ _ _ H).
  - intros c t response others Hmiss Hr Hc.
    rewrite (generatePromptWithGPT_miss _ _ _ Hmiss). cbn zeta.
    rewrite Hr, Hc. cbn. eexists. reflexivity.
  - intros v s' Hmiss. rewrite (generatePromptWithGPT_miss _ _ _ Hmiss).
    cbn zeta.
    destruct (chat_completions_create X (trace s) category item) as [e|r];
      [discriminate|].
    destruct (OpenAI.choices r) as [|ch rest]; [discriminate|].
    destruct (OpenAI.content ch) as [[|c t]|]; try discriminate.
    intros [= <- <-]. cbn [promptCache set_promptCache trace emit].
    fold key. repeat split.
    + discriminate.
    + apply Map_get_set.
    + apply generatePromptWithGPT_hit. cbn [promptCache set_promptCache].
      apply Map_get_set.
  - intros e Hmiss He. rewrite (generatePromptWithGPT_miss _ _ _ Hmiss).
    cbn zeta. rewrite He. eexists. reflexivity.
  - intros response choice others Hmiss Hr Hc Hempty.
    rewrite (generatePromptWithGPT_miss _ _ _ Hmiss). cbn zeta.
    rewrite Hr, Hc.
    destruct (OpenAI.content choice) as [[|c t]|]; try discriminate;
      eexists; reflexivity.
  - intros e s'.
    destruct (Map_get key (promptCache s)) as [v|] eqn:Hget.
    + rewrite (generatePromptWithGPT_hit _ _ _ _ Hget). discriminate.
    + rewrite (generatePromptWithGPT_miss _ _ _ Hget). cbn zeta.
      destruct (chat_completions_create X (trace s) category item) as [e'|r];
        [intros [= <- <-]; reflexivity|].
      destruct (OpenAI.choices r) as [|ch rest]; [intros [= <- <-]; reflexivity|].
      destruct (OpenAI.content ch) as [[|c t]|]; try discriminate;
        intros [= <- <-]; reflexivity.
Qed.

(** *** Paths *)

Lemma Path_split_nonempty p : Path.split p <> [].
Proof.
  destruct p as [|c t]; cbn [Path.split]; [discriminate|].
  destruct (c =? Char.slash); [discriminate|].
  destruct (Path.split t); discriminate.
Qed.

Lemma Path_split_app a b :
  Path.split (a ++ Char.slash :: b) = Path.split a ++ Path.split b.
Proof.
  induction a as [|c a IH]; cbn [app Path.split].
  - rewrite N.eqb_refl. reflexivity.
  - destruct (c =? Char.slash); [rewrite IH; reflexivity|].
    rewrite IH. pose proof (Path_split_nonempty a) as Hne.
    destruct (Path.split a) as [|seg rest]; [contradiction|]. reflexivity.
Qed.

Lemma Path_split_snoc w c :
  c <> Char.slash ->
  exists init seg, Path.split (w ++ [c]) = init ++ [seg ++ [c]].
Proof.
  intros Hc. induction w as [|a w (init & seg & IH)]; cbn [app Path.split].
  - apply N.eqb_neq in Hc. rewrite Hc. exists [], []. reflexivity.
  - rewrite IH. destruct (a =? Char.slash).
    + exists ([] :: init), seg. reflexivity.
    + destruct init as [|i init]; cbn [app].
      * exists [], (a :: seg). reflexivity.
      * exists ((a :: i) :: init), seg. reflexivity.
Qed.

Lemma Path_unsplit_cons seg rest :
  rest <> [] ->
  Path.unsplit (seg :: rest) = seg ++ Char.slash :: Path.unsplit rest.
Proof. destruct rest; [contradiction|reflexivity]. Qed.

Lemma Path_unsplit_snoc l x c :
  exists y, Path.unsplit (l ++ [x ++ [c]]) = y ++ [c].
Proof.
  induction l as [|a l [y IH]]; cbn [app].
  - exists x. reflexivity.
  - rewrite Path_unsplit_cons by (destruct l; discriminate). rewrite IH.
    exists (a ++ Char.slash :: y). rewrite <- app_assoc. reflexivity.
Qed.

Lemma snoc_not_dots seg c :
  c <> Char.dot ->
  seg ++ [c] <> [] /\ seg ++ [c] <> lit "." /\ seg ++ [c] <> lit "..".
Proof.
  unfold Char.dot. intros Hc.
  change (lit ".") with [46]. change (lit "..") with [46; 46].
  split; [destruct seg; discriminate|].
  split; intros E.
  - destruct seg as [|a [|b seg]]; inversion E. congruence.
  - destruct seg as [|a [|b [|d seg]]]; inversion E. congruence.
Qed.

Lemma normalize_step_push allow stack seg c :
  c <> Char.dot ->
  Path.normalize_step allow stack (seg ++ [c]) = (seg ++ [c]) :: stack.
Proof.
  intros Hc. destruct (snoc_not_dots seg c Hc) as (H0 & H1 & H2).
  unfold Path.normalize_step.
  rewrite (bool_decide_eq_false_2 _ H0), (bool_decide_eq_false_2 _ H1),
    (bool_decide_eq_false_2 _ H2).
  reflexivity.
Qed.

Lemma trailingSeparator_snoc w c :
  Path.trailingSeparator (w ++ [c]) = (c =? Char.slash).
Proof. unfold Path.trailingSeparator. rewrite last_snoc. reflexivity. Qed.

(** A path that ends with a character other than "/" and "." still ends
    with it once normalized. *)
Lemma Path_normalize_last w c :
  c <> Char.slash -> c <> Char.dot ->
  last (Path.normalize (w ++ [c])) = Some c.
Proof.
  intros Hs Hd. unfold Path.normalize.
  destruct (w ++ [c]) as [|a t] eqn:Ep; [destruct w; discriminate|].
  rewrite <- Ep. clear a t Ep.
  rewrite trailingSeparator_snoc. apply N.eqb_neq in Hs as Hs'. rewrite Hs'.
  unfold Path.normalizeString.
  destruct (Path_split_snoc w c Hs) as (init & seg & ->).
  rewrite fold_left_app. cbn [fold_left].
  rewrite normalize_step_push by exact Hd. cbn [rev].
  destruct (Path_unsplit_snoc
              (rev (fold_left
                      (Path.normalize_step (negb (Path.isAbsolute (w ++ [c]))))
                      init [])) seg c) as [y ->].
  destruct (y ++ [c]) as [|a t] eqn:E; [destruct y; discriminate|].
  rewrite <- E, app_nil_r, app_assoc. apply last_snoc.
Qed.

Lemma Path_join_last pre f c :
  c <> Char.slash -> c <> Char.dot ->
  last (Path.join (pre ++ [f ++ [c]])) = Some c.
Proof.
  intros Hs Hd. unfold Path.join. rewrite filter_app.
  assert (E : filter (fun a : jsstring => a <> []) [f ++ [c]] = [f ++ [c]]).
  { cbn. rewrite decide_True by (destruct f; discriminate). reflexivity. }
  rewrite E.
  destruct (Path_unsplit_snoc (filter (fun a : jsstring => a <> []) pre) f c)
    as [y Hy].
  destruct (filter (fun a : jsstring => a <> []) pre ++ [f ++ [c]])
    as [|a t] eqn:El; [destruct (filter _ pre); discriminate|].
  rewrite Hy. apply Path_normalize_last; assumption.
Qed.

Lemma item_outputPath_last base seg fcat item :
  last (item_outputPath base seg fcat item) = Some 103.
Proof.
  unfold item_outputPath.
  change (formatFileName (name item) ++ lit ".png")
    with (formatFileName (name item) ++ [46; 112; 110] ++ [103]).
  rewrite app_assoc.
  apply (Path_join_last [_]); discriminate.
Qed.

Lemma endsWith_split s suffix :
  endsWith s suffix = true -> exists pre, s = pre ++ suffix.
Proof.
  unfold endsWith. intros H. apply bool_decide_eq_true_1 in H.
  exists (take (length s - length suffix) s).
  transitivity (take (length s - length suffix) s
                ++ drop (length s - length suffix) s);
    [symmetry; apply take_drop | f_equal; exact H].
Qed.

Lemma json_path_last dir file :
  endsWith file (lit ".json") = true ->
  last (Path.join [dir; file]) = Some 110.
Proof.
  intros H. destruct (endsWith_split _ _ H) as [pre ->].
  change (lit ".json") with ([46; 106; 115; 111] ++ [110]).
  rewrite app_assoc. apply (Path_join_last [_]); discriminate.
Qed.

(** *** Normal forms *)

Lemma is_plain_inv seg :
  is_plain seg = true ->
  seg <> [] /\ forallb (fun c => negb (c =? Char.slash)) seg = true
  /\ seg <> lit "." /\ seg <> lit "..".
Proof.
  unfold is_plain. intros H.
  apply andb_true_iff in H as [H H4]. apply andb_true_iff in H as [H H3].
  apply andb_true_iff in H as [H1 H2].
  apply negb_true_iff, bool_decide_eq_false_1 in H1, H3, H4. auto.
Qed.

Lemma Path_split_segment seg :
  forallb (fun c => negb (c =? Char.slash)) seg = true ->
  Path.split seg = [seg].
Proof.
  induction seg as [|c seg IH]; [reflexivity|]. cbn [forallb Path.split].
  intros H. apply andb_true_iff in H as [Hc Hs].
  apply negb_true_iff in Hc. rewrite Hc, (IH Hs). reflexivity.
Qed.

Lemma Path_split_unsplit_free segs :
  Forall (fun seg => forallb (fun c => negb (c =? Char.slash)) seg = true)
    segs ->
  segs <> [] -> Path.split (Path.unsplit segs) = segs.
Proof.
  induction 1 as [|seg segs Hseg Hsegs IH]; [contradiction|]. intros _.
  destruct segs as [|seg' segs].
  - exact (Path_split_segment _ Hseg).
  - rewrite Path_unsplit_cons by discriminate.
    rewrite Path_split_app, (Path_split_segment _ Hseg).
    rewrite IH by discriminate. reflexivity.
Qed.

Lemma kept_nil allow : kept allow [].
Proof. exists [], []. repeat split; auto. Qed.

Lemma kept_tail allow x stack : kept allow (x :: stack) -> kept allow stack.
Proof.
  intros (names & dots & E & Hn & Hd & Ha). destruct names as [|n names].
  - cbn [app] in E. subst dots. inversion Hd; subst.
    exists [], stack. repeat split; auto.
    intros Hf. specialize (Ha Hf). discriminate.
  - injection E as <- ->. inversion Hn; subst.
    exists names, dots. repeat split; auto.
Qed.

Lemma kept_suffix allow a b : kept allow (a ++ b) -> kept allow b.
Proof.
  induction a as [|x a IH]; [auto|]. intros H. apply IH.
  exact (kept_tail _ _ _ H).
Qed.

(** A kept segment is a name or "..", and never has a separator. *)
Lemma kept_head allow x stack :
  kept allow (x :: stack) ->
  x <> [] /\ x <> lit "."
  /\ forallb (fun c => negb (c =? Char.slash)) x = true
  /\ (is_plain x = true
      \/ x = lit ".." /\ allow = true
         /\ Forall (fun seg => seg = lit "..") stack).
Proof.
  intros (names & dots & E & Hn & Hd & Ha). destruct names as [|n names].
  - cbn [app] in E. subst dots. inversion Hd; subst.
    split; [discriminate|]. split; [discriminate|]. split; [reflexivity|].
    right. split; [reflexivity|]. split; [|assumption].
    destruct allow; [reflexivity|]. specialize (Ha eq_refl). discriminate.
  - injection E as <- ->. inversion Hn as [|? ? Hp _]; subst.
    destruct (is_plain_inv _ Hp) as (H0 & H1 & H2 & H3). auto.
Qed.

Lemma kept_free allow stack :
  kept allow stack ->
  Forall (fun seg => forallb (fun c => negb (c =? Char.slash)) seg = true)
    stack.
Proof.
  induction stack as [|x stack IH]; intros H; constructor.
  - exact (proj1 (proj2 (proj2 (kept_head _ _ _ H)))).
  - exact (IH (kept_tail _ _ _ H)).
Qed.

Lemma normalize_step_kept allow stack seg :
  forallb (fun c => negb (c =? Char.slash)) seg = true ->
  kept allow stack -> kept allow (Path.normalize_step allow stack seg).
Proof.
  intros Hf H. unfold Path.normalize_step.
  destruct (bool_decide (seg = [])) eqn:E0; [exact H|].
  destruct (bool_decide (seg = lit ".")) eqn:E1; [exact H|]. cbn [orb].
  apply bool_decide_eq_false_1 in E0, E1.
  destruct (bool_decide (seg = lit "..")) eqn:E2.
  - apply bool_decide_eq_true_1 in E2. subst seg.
    destruct stack as [|top below].
    + destruct allow; [|apply kept_nil].
      exists [], [lit ".."]. repeat split; auto. discriminate.
    + destruct (bool_decide (top = lit "..")) eqn:Et;
        [|exact (kept_tail _ _ _ H)].
      destruct allow; [|exact H].
      apply bool_decide_eq_true_1 in Et. subst top.
      destruct (kept_head _ _ _ H) as (_ & _ & _ & [Hp|(_ & _ & Hd)]);
        [discriminate|].
      exists [], (lit ".." :: lit ".." :: below).
      repeat split; auto. discriminate.
  - apply bool_decide_eq_false_1 in E2.
    destruct H as (names & dots & -> & Hn & Hd & Ha).
    exists (seg :: names), dots. repeat split; auto.
    constructor; [|exact Hn]. unfold is_plain.
    rewrite Hf, (bool_decide_eq_false_2 _ E0), (bool_decide_eq_false_2 _ E1),
      (bool_decide_eq_false_2 _ E2). reflexivity.
Qed.

Lemma normalize_fold_kept allow segs stack :
  Forall (fun seg => forallb (fun c => negb (c =? Char.slash)) seg = true)
    segs ->
  kept allow stack -> kept allow (fold_left (Path.normalize_step allow) segs stack).
Proof.
  intros H. revert stack. induction H as [|seg segs Hseg _ IH]; intros stack Hs.
  - exact Hs.
  - cbn [fold_left]. apply IH, normalize_step_kept; assumption.
Qed.

Lemma Path_split_slash_free p :
  Forall (fun seg => forallb (fun c => negb (c =? Char.slash)) seg = true)
    (Path.split p).
Proof.
  induction p as [|c p IH]; cbn [Path.split].
  - constructor; [reflexivity | constructor].
  - destruct (c =? Char.slash) eqn:E.
    + constructor; [reflexivity | exact IH].
    + destruct (Path.split p) as [|seg rest]; constructor.
      * cbn [forallb]. rewrite E. reflexivity.
      * constructor.
      * cbn [forallb]. rewrite E. inversion IH; subst. assumption.
      * inversion IH; subst. assumption.
Qed.

(** Walking a kept path again keeps all of it. *)
Lemma normalize_fold_again allow l acc :
  kept allow (rev l ++ acc) ->
  fold_left (Path.normalize_step allow) l acc = rev l ++ acc.
Proof.
  revert acc. induction l as [|x l IH]; intros acc H; [reflexivity|].
  cbn [rev] in H. rewrite <- app_assoc in H. cbn [app] in H.
  cbn [fold_left].
  assert (Hx : Path.normalize_step allow acc x = x :: acc).
  { pose proof (kept_suffix _ _ _ H) as Hk.
    destruct (kept_head _ _ _ Hk) as (H0 & H1 & _ & [Hp|(-> & -> & Hd)]).
    - destruct (is_plain_inv _ Hp) as (_ & _ & _ & H2).
      unfold Path.normalize_step.
      rewrite (bool_decide_eq_false_2 _ H0), (bool_decide_eq_false_2 _ H1),
        (bool_decide_eq_false_2 _ H2). reflexivity.
    - unfold Path.normalize_step. cbn [orb].
      change (bool_decide (lit ".." = [])) with false.
      change (bool_decide (lit ".." = lit ".")) with false.
      change (bool_decide (lit ".." = lit "..")) with true. cbn [orb].
      destruct acc as [|top below]; [reflexivity|].
      inversion Hd; subst. reflexivity. }
  rewrite Hx, (IH (x :: acc) H). cbn [rev]. rewrite <- app_assoc. reflexivity.
Qed.

Lemma kept_unsplit_nonempty allow stack :
  kept allow stack -> stack <> [] -> Path.unsplit (rev stack) <> [].
Proof.
  intros H Hne.
  assert (Hall : Forall (fun seg : jsstring => seg <> []) (rev stack)).
  { apply Forall_rev. clear Hne.
    induction stack as [|x stack IH]; constructor.
    - exact (proj1 (kept_head _ _ _ H)).
    - exact (IH (kept_tail _ _ _ H)). }
  destruct (rev stack) as [|a l] eqn:E.
  - apply (f_equal (@rev jsstring)) in E. rewrite rev_involutive in E.
    contradiction.
  - inversion Hall as [|? ? Ha _]; subst.
    destruct l; [exact Ha|]. rewrite Path_unsplit_cons by discriminate.
    destruct a; [contradiction | discriminate].
Qed.

(** The first and the last character of kept segments put together. *)
Lemma unsplit_free_head segs :
  Forall (fun seg => forallb (fun c => negb (c =? Char.slash)) seg = true)
    segs ->
  Forall (fun seg : jsstring => seg <> []) segs ->
  Path.isAbsolute (Path.unsplit segs) = false.
Proof.
  intros Hf Hn. destruct segs as [|a l]; [reflexivity|].
  inversion Hf as [|? ? Ha _]; inversion Hn as [|? ? Hne _]; subst.
  destruct a as [|c a]; [contradiction|].
  cbn [forallb] in Ha. apply andb_true_iff in Ha as [Hc _].
  apply negb_true_iff in Hc.
  destruct l; [exact Hc|]. rewrite Path_unsplit_cons by discriminate.
  exact Hc.
Qed.

Lemma free_last seg :
  forallb (fun c => negb (c =? Char.slash)) seg = true -> seg <> [] ->
  exists w c, seg = w ++ [c] /\ (c =? Char.slash) = false.
Proof.
  intros Hf Hne. destruct (exists_last Hne) as (w & c & ->).
  exists w, c. split; [reflexivity|].
  rewrite forallb_app in Hf. apply andb_true_iff in Hf as [_ Hc].
  cbn [forallb] in Hc. rewrite andb_true_r in Hc.
  apply negb_true_iff in Hc. exact Hc.
Qed.

Lemma unsplit_free_last pre segs :
  Forall (fun seg => forallb (fun c => negb (c =? Char.slash)) seg = true)
    segs ->
  Forall (fun seg : jsstring => seg <> []) segs -> segs <> [] ->
  Path.trailingSeparator (pre ++ Path.unsplit segs) = false.
Proof.
  intros Hf Hn Hne.
  destruct (exists_last Hne) as (init & x & ->).
  apply Forall_app in Hf as [_ Hf]. apply Forall_app in Hn as [_ Hn].
  inversion Hf as [|? ? Hx _]; inversion Hn as [|? ? Hx0 _]; subst.
  destruct (free_last _ Hx Hx0) as (w & c & -> & Hc).
  destruct (Path_unsplit_snoc init w c) as [y ->].
  rewrite app_assoc, trailingSeparator_snoc. exact Hc.
Qed.

Lemma Path_normalize_nonempty p :
  p <> [] ->
  Path.normalize p
  = match Path.normalizeString p (negb (Path.isAbsolute p)) with
    | [] =>
        if Path.isAbsolute p then lit "/"
        else if Path.trailingSeparator p then lit "./" else lit "."
    | q =>
        (if Path.isAbsolute p then lit "/" else [])
        ++ q ++ (if Path.trailingSeparator p then lit "/" else [])
    end.
Proof. destruct p; [contradiction | reflexivity]. Qed.

(** [path.normalize], by what [normalizeString] keeps. *)
Lemma Path_normalize_kept p :
  p <> [] ->
  exists stack,
    kept (negb (Path.isAbsolute p)) stack
    /\ Path.normalize p
       = match stack with
         | [] =>
             if Path.isAbsolute p then lit "/"
             else if Path.trailingSeparator p then lit "./" else lit "."
         | _ =>
             (if Path.isAbsolute p then lit "/" else [])
             ++ Path.unsplit (rev stack)
             ++ (if Path.trailingSeparator p then lit "/" else [])
         end.
Proof.
  intros Hne.
  exists (fold_left (Path.normalize_step (negb (Path.isAbsolute p)))
            (Path.split p) []).
  assert (K : kept (negb (Path.isAbsolute p))
                (fold_left (Path.normalize_step (negb (Path.isAbsolute p)))
                   (Path.split p) []))
    by (apply normalize_fold_kept; [apply Path_split_slash_free | apply kept_nil]).
  split; [exact K|].
  unfold Path.normalize. destruct p as [|c t]; [contradiction|].
  unfold Path.normalizeString.
  destruct (fold_left _ (Path.split (c :: t)) []) as [|x stack] eqn:E;
    [reflexivity|].
  pose proof (kept_unsplit_nonempty _ _ K) as Hu.
  destruct (Path.unsplit (rev (x :: stack))) as [|a u];
    [destruct Hu; [discriminate | reflexivity] | reflexivity].
Qed.

(** A kept path, written out, is its own normal form. *)
Lemma Path_normalize_written (abs trail : bool) stack :
  kept (negb abs) stack -> stack <> [] ->
  Path.normalize
    ((if abs then lit "/" else []) ++ Path.unsplit (rev stack)
     ++ (if trail then lit "/" else []))
  = (if abs then lit "/" else []) ++ Path.unsplit (rev stack)
    ++ (if trail then lit "/" else []).
Proof.
  intros K Hne.
  set (u := Path.unsplit (rev stack)).
  set (r := (if abs then lit "/" else []) ++ u ++ (if trail then lit "/" else [])).
  pose proof (kept_free _ _ K) as Hf. apply Forall_rev in Hf.
  assert (Hn : Forall (fun seg : jsstring => seg <> []) (rev stack)).
  { apply Forall_rev. clear Hne Hf u r.
    induction stack as [|x stack IH]; constructor.
    - exact (proj1 (kept_head _ _ _ K)).
    - exact (IH (kept_tail _ _ _ K)). }
  assert (Hrev : rev stack <> []).
  { intros E. apply (f_equal (@rev jsstring)) in E.
    rewrite rev_involutive in E. contradiction. }
  pose proof (kept_unsplit_nonempty _ _ K Hne) as Hu. fold u in Hu.
  assert (Hr : r <> []).
  { unfold r. destruct abs; [discriminate|]. cbn [app].
    destruct u; [contradiction | discriminate]. }
  assert (Habs : Path.isAbsolute r = abs).
  { unfold r. destruct abs; [reflexivity|]. cbn [app].
    pose proof (unsplit_free_head _ Hf Hn) as H0. fold u in H0.
    destruct u as [|c u']; [contradiction|]. exact H0. }
  assert (Htrail : Path.trailingSeparator r = trail).
  { unfold r. destruct trail.
    - rewrite !app_assoc. apply trailingSeparator_snoc.
    - rewrite app_nil_r. apply (unsplit_free_last _ _ Hf Hn Hrev). }
  assert (Hsplit : fold_left (Path.normalize_step (negb abs)) (Path.split r) []
                   = stack).
  { assert (Hin : fold_left (Path.normalize_step (negb abs))
                    (Path.split (u ++ (if trail then lit "/" else []))) []
                  = stack).
    { assert (Hag : fold_left (Path.normalize_step (negb abs)) (rev stack) []
                    = stack).
      { rewrite (normalize_fold_again (negb abs) (rev stack) []);
          rewrite rev_involutive, app_nil_r; [reflexivity | exact K]. }
      destruct trail.
      - change (lit "/") with (Char.slash :: []).
        rewrite Path_split_app, fold_left_app.
        unfold u. rewrite (Path_split_unsplit_free _ Hf Hrev), Hag.
        reflexivity.
      - rewrite app_nil_r. unfold u.
        rewrite (Path_split_unsplit_free _ Hf Hrev). exact Hag. }
    unfold r. destruct abs; [|exact Hin].
    change (lit "/" ++ u ++ (if trail then lit "/" else []))
      with (Char.slash :: u ++ (if trail then lit "/" else [])).
    cbn [Path.split]. rewrite N.eqb_refl. cbn [fold_left]. exact Hin. }
  rewrite (Path_normalize_nonempty r Hr). unfold Path.normalizeString.
  rewrite Habs, Htrail, Hsplit. fold u. unfold r.
  destruct u as [|a u']; [contradiction | reflexivity].
Qed.

(** [path.normalize] is idempotent. *)
Lemma Path_normalize_idem p :
  Path.normalize (Path.normalize p) = Path.normalize p.
Proof.
  destruct p as [|c t]; [reflexivity|].
  destruct (Path_normalize_kept (c :: t)) as (stack & K & ->); [discriminate|].
  destruct stack as [|x stack].
  - destruct (Path.isAbsolute (c :: t)); [reflexivity|].
    destruct (Path.trailingSeparator (c :: t)); reflexivity.
  - apply Path_normalize_written; [exact K | discriminate].
Qed.

Lemma Path_join_normal args : Path.normalize (Path.join args) = Path.join args.
Proof.
  unfold Path.join. destruct (filter _ args); [reflexivity|].
  apply Path_normalize_idem.
Qed.

(** *** Joining plain segments *)

Lemma Path_split_slash t : Path.split (Char.slash :: t) = [] :: Path.split t.
Proof. reflexivity. Qed.

Lemma Path_split_unsplit segs :
  Forall (fun seg => is_plain seg = true) segs -> segs <> [] ->
  Path.split (Path.unsplit segs) = segs.
Proof.
  induction 1 as [|seg segs Hseg Hsegs IH]; [contradiction|]. intros _.
  apply is_plain_inv in Hseg as (_ & Hseg & _).
  destruct segs as [|seg' segs].
  - apply Path_split_segment, Hseg.
  - rewrite Path_unsplit_cons by discriminate.
    rewrite Path_split_app, (Path_split_segment _ Hseg), IH by discriminate.
    reflexivity.
Qed.

Lemma Path_unsplit_app l1 l2 :
  l1 <> [] -> l2 <> [] ->
  Path.unsplit (l1 ++ l2) = Path.unsplit l1 ++ Char.slash :: Path.unsplit l2.
Proof.
  intros H1 H2. induction l1 as [|a l1 IH]; [contradiction|].
  destruct l1 as [|b l1].
  - cbn [app]. apply Path_unsplit_cons, H2.
  - change ((a :: b :: l1) ++ l2) with (a :: (b :: l1) ++ l2).
    rewrite Path_unsplit_cons by discriminate.
    rewrite IH by discriminate.
    rewrite (Path_unsplit_cons a (b :: l1)) by discriminate.
    rewrite <- app_assoc. reflexivity.
Qed.

Lemma normalize_fold_plain allow l stack :
  Forall (fun seg => seg = [] \/ is_plain seg = true) l ->
  fold_left (Path.normalize_step allow) l stack
  = rev (filter (fun seg : jsstring => seg <> []) l) ++ stack.
Proof.
  intros H. revert stack. induction H as [|seg l Hseg _ IH]; intros stack;
    [reflexivity|].
  cbn [fold_left]. rewrite IH. destruct Hseg as [->|Hseg].
  - rewrite filter_cons_False by (intros E; apply E; reflexivity). reflexivity.
  - apply is_plain_inv in Hseg as (H0 & _ & H1 & H2).
    rewrite filter_cons_True by exact H0. cbn [rev].
    unfold Path.normalize_step.
    rewrite (bool_decide_eq_false_2 _ H0), (bool_decide_eq_false_2 _ H1),
      (bool_decide_eq_false_2 _ H2).
    cbn [orb]. rewrite <- app_assoc. reflexivity.
Qed.

Lemma plain_last segs :
  Forall (fun seg => is_plain seg = true) segs -> segs <> [] ->
  exists init x c, segs = init ++ [x ++ [c]] /\ c <> Char.slash.
Proof.
  intros H Hne.
  destruct (exists_last Hne) as (init & seg & ->).
  apply Forall_app in H as [_ H]. inversion H as [|? ? Hseg _]; subst.
  apply is_plain_inv in Hseg as (H0 & Hs & _).
  destruct (exists_last H0) as (x & c & ->).
  exists init, x, c. split; [reflexivity|].
  rewrite forallb_app in Hs. apply andb_true_iff in Hs as [_ Hs].
  cbn in Hs. rewrite andb_true_r in Hs. apply negb_true_iff in Hs.
  apply N.eqb_neq. exact Hs.
Qed.

Lemma filter_plain segs :
  Forall (fun seg => is_plain seg = true) segs ->
  filter (fun seg : jsstring => seg <> []) segs = segs.
Proof.
  induction 1 as [|seg segs Hseg _ IH]; [reflexivity|].
  apply is_plain_inv in Hseg as (H0 & _).
  rewrite filter_cons_True by exact H0. rewrite IH. reflexivity.
Qed.

(** Joining plain segments to an absolute path of plain segments only
    appends them. *)
Lemma Path_join_absolute dirs segs :
  Forall (fun seg => is_plain seg = true) dirs ->
  Forall (fun seg => is_plain seg = true) segs ->
  segs <> [] ->
  Path.join (absolute dirs :: segs) = absolute (dirs ++ segs).
Proof.
  intros Hd Hs Hne. unfold Path.join.
  rewrite filter_cons_True by discriminate. rewrite (filter_plain _ Hs).
  rewrite Path_unsplit_cons by exact Hne.
  destruct (plain_last segs Hs Hne) as (init & x & c & E & Hc).
  assert (Hq : exists y, Path.unsplit (dirs ++ segs) = y ++ [c]).
  { rewrite E, app_assoc. apply Path_unsplit_snoc. }
  assert (Hp : exists w, absolute dirs ++ Char.slash :: Path.unsplit segs
                         = w ++ [c]).
  { rewrite E. destruct (Path_unsplit_snoc init x c) as [y ->].
    exists (absolute dirs ++ Char.slash :: y).
    rewrite <- app_assoc. reflexivity. }
  assert (Hn : Path.normalizeString
                 (absolute dirs ++ Char.slash :: Path.unsplit segs) false
               = Path.unsplit (dirs ++ segs)).
  { unfold Path.normalizeString, absolute.
    change ((Char.slash :: Path.unsplit dirs) ++ Char.slash :: Path.unsplit segs)
      with (Char.slash :: (Path.unsplit dirs ++ Char.slash :: Path.unsplit segs)).
    rewrite Path_split_slash, Path_split_app, (Path_split_unsplit _ Hs Hne).
    rewrite normalize_fold_plain.
    - rewrite app_nil_r, rev_involutive.
      rewrite filter_cons_False by (intros F; apply F; reflexivity).
      rewrite filter_app, (filter_plain _ Hs). f_equal. f_equal.
      destruct dirs as [|d dirs]; [reflexivity|].
      rewrite (Path_split_unsplit _ Hd) by discriminate.
      apply filter_plain, Hd.
    - constructor; [left; reflexivity|]. apply Forall_app. split.
      + destruct dirs as [|d dirs]; [repeat constructor|].
        rewrite (Path_split_unsplit _ Hd) by discriminate.
        eapply Forall_impl; [exact Hd|]. intros seg H. right. exact H.
      + eapply Forall_impl; [exact Hs|]. intros seg H. right. exact H. }
  destruct Hp as [w Hp].
  rewrite Path_normalize_nonempty by (rewrite Hp; destruct w; discriminate).
  replace (Path.trailingSeparator _) with false
    by (rewrite Hp, trailingSeparator_snoc; symmetry; apply N.eqb_neq, Hc).
  replace (Path.isAbsolute _) with true by reflexivity.
  cbn [negb]. rewrite Hn. destruct Hq as [y Hq].
  change (absolute (dirs ++ segs))
    with (Char.slash :: Path.unsplit (dirs ++ segs)).
  destruct (Path.unsplit (dirs ++ segs)) as [|a' t'] eqn:Eu;
    [destruct y; discriminate|].
  rewrite app_nil_r. reflexivity.
Qed.

Lemma absolute_under dirs segs :
  Forall (fun seg => is_plain seg = true) dirs -> segs <> [] ->
  absolute (dirs ++ segs) = under (absolute dirs) (Path.unsplit segs).
Proof.
  intros Hd Hne. unfold under, absolute. destruct dirs as [|d dirs].
  - reflexivity.
  - rewrite Path_unsplit_app by (discriminate || exact Hne).
    rewrite bool_decide_eq_false_2; [reflexivity|].
    inversion Hd as [|? ? Hp _]; subst.
    apply is_plain_inv in Hp as (H0 & _).
    change (lit "/") with [Char.slash]. intros [= E].
    destruct dirs as [|d' dirs]; cbn in E; [congruence|].
    destruct d; [congruence|discriminate].
Qed.

Lemma safe_forallb_no_slash s :
  forallb safe_char s = true ->
  forallb (fun c => negb (c =? Char.slash)) s = true.
Proof.
  apply forallb_impl_safe. intros c Hc. clear -Hc. char_cases.
Qed.

Lemma safe_no_dot s : forallb safe_char s = true -> head s <> Some Char.dot.
Proof.
  destruct s as [|c s]; [discriminate|]. cbn [forallb head].
  intros H. apply andb_true_iff in H as [Hc _]. intros [= ->].
  clear -Hc. vm_compute in Hc. discriminate.
Qed.

Lemma formatFileName_safe x : forallb safe_char (formatFileName x) = true.
Proof.
  pose proof (formatFileName_sanitized x) as H. unfold sanitized in H.
  apply andb_true_iff in H as [H _]. apply andb_true_iff in H as [H _].
  apply andb_true_iff in H as [H _]. exact H.
Qed.

Lemma formatFileName_plain x :
  formatFileName x <> [] -> is_plain (formatFileName x) = true.
Proof.
  intros H0. pose proof (formatFileName_safe x) as Hs.
  pose proof (safe_no_dot _ Hs) as Hd.
  unfold is_plain. rewrite (safe_forallb_no_slash _ Hs).
  rewrite (bool_decide_eq_false_2 _ H0).
  rewrite !bool_decide_eq_false_2; [reflexivity| |];
    intros E; rewrite E in Hd; apply Hd; reflexivity.
Qed.

Lemma fileName_plain x : is_plain (formatFileName x ++ lit ".png") = true.
Proof.
  pose proof (formatFileName_safe x) as Hs.
  unfold is_plain. rewrite forallb_app, (safe_forallb_no_slash _ Hs).
  assert (L : (4 <= length (formatFileName x ++ lit ".png"))%nat)
    by (rewrite length_app; cbn; lia).
  rewrite !bool_decide_eq_false_2; [reflexivity| | |];
    intros E; rewrite E in L; cbn in L; lia.
Qed.

Lemma Path_normalize_absolute dirs :
  Forall (fun seg => is_plain seg = true) dirs -> dirs <> [] ->
  Path.normalize (absolute dirs) = absolute dirs.
Proof.
  intros Hd Hne.
  destruct (plain_last dirs Hd Hne) as (init & x & c & E & Hc).
  destruct (Path_unsplit_snoc init x c) as [y Hy]. rewrite <- E in Hy.
  assert (Hp : absolute dirs = (Char.slash :: y) ++ [c])
    by (unfold absolute; rewrite Hy; reflexivity).
  rewrite Path_normalize_nonempty by discriminate.
  replace (Path.trailingSeparator _) with false
    by (rewrite Hp, trailingSeparator_snoc; symmetry; apply N.eqb_neq, Hc).
  replace (Path.isAbsolute _) with true by reflexivity.
  cbn [negb]. unfold Path.normalizeString, absolute.
  rewrite Path_split_slash, (Path_split_unsplit _ Hd Hne).
  rewrite normalize_fold_plain.
  2:{ constructor; [left; reflexivity|].
      eapply Forall_impl; [exact Hd|]. intros seg H. right. exact H. }
  rewrite app_nil_r, rev_involutive.
  rewrite filter_cons_False by (intros F; apply F; reflexivity).
  rewrite (filter_plain _ Hd), Hy.
  destruct (y ++ [c]) as [|a t] eqn:Ey; [destruct y; discriminate|].
  rewrite app_nil_r. reflexivity.
Qed.

Lemma filter_optional segs :
  Forall (fun seg => seg = [] \/ is_plain seg = true) segs ->
  Forall (fun seg => is_plain seg = true)
    (filter (fun seg : jsstring => seg <> []) segs).
Proof.
  induction 1 as [|seg segs Hseg _ IH]; [constructor|].
  destruct Hseg as [->|Hseg].
  - rewrite filter_cons_False by (intros F; apply F; reflexivity). exact IH.
  - rewrite filter_cons_True by (apply is_plain_inv in Hseg; tauto).
    constructor; assumption.
Qed.

(** Empty arguments are left out of the join. *)
Lemma Path_join_optional dirs segs :
  Forall (fun seg => is_plain seg = true) dirs -> dirs <> [] ->
  Forall (fun seg => seg = [] \/ is_plain seg = true) segs ->
  Path.join (absolute dirs :: segs)
  = absolute (dirs ++ filter (fun seg : jsstring => seg <> []) segs).
Proof.
  intros Hd Hne Hs. pose proof (filter_optional _ Hs) as Hf.
  destruct (filter (fun seg : jsstring => seg <> []) segs) as [|seg' segs']
    eqn:E.
  - unfold Path.join. rewrite filter_cons_True by discriminate. rewrite E.
    rewrite app_nil_r. apply Path_normalize_absolute; assumption.
  - rewrite <- (Path_join_absolute dirs (seg' :: segs') Hd Hf)
      by discriminate.
    unfold Path.join. rewrite !filter_cons_True by discriminate.
    rewrite E, (filter_plain _ Hf). reflexivity.
Qed.

Lemma strip_json_split file :
  endsWith file (lit ".json") = true -> file = strip_json file ++ lit ".json".
Proof.
  intros H. unfold strip_json. rewrite H. unfold endsWith in H.
  apply bool_decide_eq_true_1 in H.
  transitivity (take (length file - 5) file ++ drop (length file - 5) file);
    [symmetry; apply take_drop | f_equal; exact H].
Qed.

(** With a plain segment, or none, nothing is left to normalize. *)
Lemma item_outputPath_plain (dirs : list jsstring) (s : State)
  (file categoryName : jsstring) (item : MenuItem) :
  cwd s = absolute dirs ->
  Forall (fun seg => is_plain seg = true) dirs ->
  segment_of X file = [] \/ is_plain (segment_of X file) = true ->
  item_outputPath (Path.join [cwd s; lit "output"]) (segment_of X file)
       (formatFileName categoryName) item
     = under (cwd s)
         (Path.unsplit
            (filter (fun seg : jsstring => seg <> [])
               [lit "output"; segment_of X file; formatFileName categoryName;
                formatFileName (name item) ++ lit ".png"]))
  /\ (segment_of X file <> [] -> formatFileName categoryName <> [] ->
      item_outputPath (Path.join [cwd s; lit "output"]) (segment_of X file)
        (formatFileName categoryName) item
      = under (cwd s)
          (lit "output/" ++ segment_of X file ++ lit "/"
           ++ formatFileName categoryName ++ lit "/"
           ++ formatFileName (name item) ++ lit ".png")).
Proof.
  intros Hcwd Hd Hseg.
  set (seg := segment_of X file) in *.
  set (fcat := formatFileName categoryName).
  set (fileName := formatFileName (name item) ++ lit ".png").
  assert (Hout : is_plain (lit "output") = true) by reflexivity.
  assert (Hfile : is_plain fileName = true) by apply fileName_plain.
  assert (Hcat : fcat = [] \/ is_plain fcat = true).
  { destruct fcat eqn:E; [left; reflexivity|]. right. rewrite <- E.
    apply formatFileName_plain. fold fcat. rewrite E. discriminate. }
  assert (Hopt : Forall (fun x => x = [] \/ is_plain x = true) [seg; fcat])
    by (constructor; [exact Hseg | constructor; [exact Hcat | constructor]]).
  assert (Hone : forall x, is_plain x = true ->
                 Forall (fun seg => is_plain seg = true) [x])
    by (intros x Hx; constructor; [exact Hx | constructor]).
  assert (Hpath : item_outputPath (Path.join [cwd s; lit "output"]) seg fcat item
    = absolute (dirs ++ [lit "output"]
                ++ filter (fun x : jsstring => x <> []) [seg; fcat]
                ++ [fileName])).
  { unfold item_outputPath. fold fileName. rewrite Hcwd.
    rewrite (Path_join_absolute dirs [lit "output"])
      by (exact Hd || exact (Hone _ Hout) || discriminate).
    rewrite (Path_join_optional (dirs ++ [lit "output"]) [seg; fcat]);
      [|apply Forall_app; split; [exact Hd | exact (Hone _ Hout)]
       |destruct dirs; discriminate|exact Hopt].
    rewrite (Path_join_absolute _ [fileName]).
    - rewrite <- !app_assoc. reflexivity.
    - apply Forall_app. split.
      + apply Forall_app; split; [exact Hd | exact (Hone _ Hout)].
      + apply filter_optional, Hopt.
    - exact (Hone _ Hfile).
    - discriminate. }
  assert (Hgen : item_outputPath (Path.join [cwd s; lit "output"]) seg fcat item
    = under (cwd s)
        (Path.unsplit
           (filter (fun x : jsstring => x <> [])
              [lit "output"; seg; fcat; fileName]))).
  { rewrite Hpath, Hcwd, (absolute_under dirs) by (exact Hd || discriminate).
    f_equal. f_equal.
    change [lit "output"; seg; fcat; fileName]
      with ([lit "output"] ++ [seg; fcat] ++ [fileName]).
    rewrite !filter_app.
    rewrite (filter_cons_True _ (lit "output")) by discriminate.
    rewrite (filter_cons_True _ fileName)
      by (apply is_plain_inv in Hfile; tauto).
    reflexivity. }
  split; [exact Hgen|]. intros Hs Hc. rewrite Hgen. f_equal.
  rewrite !filter_cons_True
    by (assumption || discriminate || (apply is_plain_inv in Hfile; tauto)).
  rewrite filter_nil.
  rewrite !Path_unsplit_cons by discriminate. cbn [Path.unsplit].
  reflexivity.
Qed.

(** *** Normalizing an absolute path, as a stack of segments *)

Lemma normalize_step_keeps_plain stack seg :
  forallb (fun c => negb (c =? Char.slash)) seg = true ->
  Forall (fun x => is_plain x = true) stack ->
  Forall (fun x => is_plain x = true) (Path.normalize_step false stack seg).
Proof.
  intros Hseg Hst. unfold Path.normalize_step.
  destruct (bool_decide (seg = [])) eqn:E0; [exact Hst|].
  destruct (bool_decide (seg = lit ".")) eqn:E1; [exact Hst|]. cbn [orb].
  destruct (bool_decide (seg = lit "..")) eqn:E2.
  - destruct stack as [|top below]; [constructor|].
    destruct (bool_decide (top = lit "..")); [exact Hst|].
    inversion Hst; assumption.
  - constructor; [|exact Hst]. unfold is_plain.
    rewrite E0, E1, E2, Hseg. reflexivity.
Qed.

Lemma normalize_fold_keeps_plain segs stack :
  Forall (fun seg => forallb (fun c => negb (c =? Char.slash)) seg = true)
    segs ->
  Forall (fun x => is_plain x = true) stack ->
  Forall (fun x => is_plain x = true)
    (fold_left (Path.normalize_step false) segs stack).
Proof.
  intros Hsegs. revert stack.
  induction Hsegs as [|seg segs Hseg _ IH]; intros stack Hst; [exact Hst|].
  cbn [fold_left]. apply IH, normalize_step_keeps_plain; assumption.
Qed.

Lemma Path_unsplit_nonempty segs :
  Forall (fun x => is_plain x = true) segs -> segs <> [] ->
  Path.unsplit segs <> [].
Proof.
  intros H Hne. destruct segs as [|seg rest]; [contradiction|].
  inversion H as [|? ? Hseg _]; subst.
  apply is_plain_inv in Hseg as (H0 & _).
  destruct rest; cbn [Path.unsplit]; [exact H0|].
  destruct seg; [contradiction | discriminate].
Qed.

(** The text that [path.normalize] gives for the stack [st] of an absolute
    path, with or without a separator at the end. *)
Lemma Path_normalize_rooted rest :
  Path.normalize (Char.slash :: rest)
  = match fold_left (Path.normalize_step false) (Path.split rest) [] with
    | [] => lit "/"
    | st =>
        Char.slash :: Path.unsplit (rev st)
        ++ (if Path.trailingSeparator (Char.slash :: rest) then lit "/"
            else [])
    end.
Proof.
  rewrite Path_normalize_nonempty by discriminate.
  replace (Path.isAbsolute (Char.slash :: rest)) with true by reflexivity.
  cbn [negb]. unfold Path.normalizeString. rewrite Path_split_slash.
  cbn [fold_left].
  change (Path.normalize_step false [] []) with (@nil jsstring).
  pose proof (normalize_fold_keeps_plain (Path.split rest) []
                (Path_split_slash_free rest) (Forall_nil_2 _)) as Hp.
  destruct (fold_left (Path.normalize_step false) (Path.split rest) [])
    as [|top below] eqn:E; [reflexivity|].
  assert (Hne : Path.unsplit (rev (top :: below)) <> []).
  { apply Path_unsplit_nonempty.
    - apply Forall_rev. exact Hp.
    - cbn [rev]. destruct (rev below); discriminate. }
  destruct (Path.unsplit (rev (top :: below))) as [|a t]; [contradiction|].
  reflexivity.
Qed.

(** Normalizing what normalization gave finds the same stack. *)
Lemma normalize_fold_rendered st (tail : bool) :
  Forall (fun x => is_plain x = true) st -> st <> [] ->
  fold_left (Path.normalize_step false)
    (Path.split (Path.unsplit (rev st) ++ (if tail then lit "/" else []))) []
  = st.
Proof.
  intros Hp Hne.
  assert (Hr : Forall (fun x => is_plain x = true) (rev st))
    by (apply Forall_rev; exact Hp).
  assert (Hrne : rev st <> []).
  { destruct st as [|top below]; [contradiction|]. cbn [rev].
    destruct (rev below); discriminate. }
  assert (Hopt : Forall (fun seg => seg = [] \/ is_plain seg = true) (rev st)).
  { eapply Forall_impl; [exact Hr|]. intros seg H. right. exact H. }
  destruct tail.
  - change (lit "/") with (Char.slash :: []).
    rewrite Path_split_app, (Path_split_unsplit _ Hr Hrne).
    cbn [Path.split]. rewrite normalize_fold_plain.
    + rewrite filter_app, (filter_plain _ Hr).
      rewrite filter_cons_False by (intros F; apply F; reflexivity).
      rewrite filter_nil, !app_nil_r. apply rev_involutive.
    + apply Forall_app. split; [exact Hopt|].
      constructor; [left; reflexivity | constructor].
  - rewrite app_nil_r, (Path_split_unsplit _ Hr Hrne).
    rewrite normalize_fold_plain by exact Hopt.
    rewrite (filter_plain _ Hr), app_nil_r. apply rev_involutive.
Qed.

Lemma trailingSeparator_app x b :
  Path.trailingSeparator (x ++ Char.slash :: b)
  = Path.trailingSeparator (Char.slash :: b).
Proof.
  unfold Path.trailingSeparator.
  rewrite last_app. destruct (last (Char.slash :: b)) eqn:E; [reflexivity|].
  apply last_None in E. discriminate.
Qed.

(** [path.join(path.join(a), b)] is [path.join(a, b)] for an absolute [a]:
    normalizing first changes nothing. *)
Lemma Path_normalize_prefix a b :
  Path.normalize (Path.normalize (Char.slash :: a) ++ Char.slash :: b)
  = Path.normalize (Char.slash :: a ++ Char.slash :: b).
Proof.
  rewrite (Path_normalize_rooted a).
  pose proof (normalize_fold_keeps_plain (Path.split a) []
                (Path_split_slash_free a) (Forall_nil_2 _)) as Hp.
  rewrite (Path_normalize_rooted (a ++ Char.slash :: b)).
  rewrite Path_split_app, fold_left_app.
  change (Char.slash :: a ++ Char.slash :: b)
    with ((Char.slash :: a) ++ Char.slash :: b).
  rewrite trailingSeparator_app.
  destruct (fold_left (Path.normalize_step false) (Path.split a) [])
    as [|top below] eqn:E.
  - change (lit "/" ++ Char.slash :: b) with (Char.slash :: ([] ++ Char.slash :: b)).
    rewrite (Path_normalize_rooted ([] ++ Char.slash :: b)).
    rewrite Path_split_app, fold_left_app. cbn [Path.split fold_left].
    change (Path.normalize_step false [] []) with (@nil jsstring).
    change (Char.slash :: [] ++ Char.slash :: b)
      with ([Char.slash] ++ Char.slash :: b).
    rewrite trailingSeparator_app. reflexivity.
  - set (st := top :: below) in *.
    set (tail := Path.trailingSeparator (Char.slash :: a)).
    change ((Char.slash :: Path.unsplit (rev st)
             ++ (if tail then lit "/" else [])) ++ Char.slash :: b)
      with (Char.slash
            :: ((Path.unsplit (rev st) ++ (if tail then lit "/" else []))
                ++ Char.slash :: b)).
    rewrite (Path_normalize_rooted
               ((Path.unsplit (rev st) ++ (if tail then lit "/" else []))
                ++ Char.slash :: b)).
    rewrite Path_split_app, fold_left_app.
    rewrite (normalize_fold_rendered st tail Hp) by discriminate.
    change (Char.slash
            :: (Path.unsplit (rev st) ++ (if tail then lit "/" else []))
               ++ Char.slash :: b)
      with ((Char.slash
             :: Path.unsplit (rev st) ++ (if tail then lit "/" else []))
            ++ Char.slash :: b).
    rewrite trailingSeparator_app. reflexivity.
Qed.

(** A doubled separator counts as one. *)
Lemma Path_normalize_double a b :
  Path.normalize (Char.slash :: a ++ Char.slash :: Char.slash :: b)
  = Path.normalize (Char.slash :: a ++ Char.slash :: b).
Proof.
  rewrite !Path_normalize_rooted, !Path_split_app, !fold_left_app.
  rewrite Path_split_slash. cbn [fold_left].
  change (Path.normalize_step false
            (fold_left (Path.normalize_step false) (Path.split a) []) [])
    with (fold_left (Path.normalize_step false) (Path.split a) []).
  change (Char.slash :: a ++ Char.slash :: Char.slash :: b)
    with ((Char.slash :: a) ++ Char.slash :: Char.slash :: b).
  change (Char.slash :: a ++ Char.slash :: b)
    with ((Char.slash :: a) ++ Char.slash :: b).
  rewrite !trailingSeparator_app.
  change (Char.slash :: Char.slash :: b) with ([Char.slash] ++ Char.slash :: b).
  rewrite trailingSeparator_app. reflexivity.
Qed.

(** *** The names of the paths of the program *)

(** A normal path that ends with a character other than "/" is its own
    name in the tree. *)
Lemma fs_key_named p c :
  Path.normalize p = p -> last p = Some c -> c <> Char.slash -> fs_key p = p.
Proof.
  intros Hn Hl Hc. unfold fs_key. rewrite Hn. cbv zeta.
  unfold Path.trailingSeparator. rewrite Hl.
  apply N.eqb_neq in Hc. rewrite Hc. reflexivity.
Qed.

Lemma named_forms p c :
  last p = Some c -> c <> Char.slash -> c <> Char.dot ->
  dir_form p = false /\ always_dir p = false.
Proof.
  intros Hl Hs Hd. apply last_Some in Hl as [w ->].
  destruct (Path_split_snoc w c Hs) as (init & seg & E).
  destruct (snoc_not_dots seg c Hd) as (H0 & H1 & H2).
  unfold dir_form, always_dir. rewrite E, last_snoc, forallb_app.
  cbn [forallb].
  rewrite (bool_decide_eq_false_2 _ H0), (bool_decide_eq_false_2 _ H1),
    (bool_decide_eq_false_2 _ H2).
  split; [reflexivity|]. cbn [orb andb]. apply andb_false_r.
Qed.

Lemma stat_named f p c :
  Path.normalize p = p -> last p = Some c ->
  c <> Char.slash -> c <> Char.dot ->
  stat f p = f !! p.
Proof.
  intros Hn Hl Hs Hd. destruct (named_forms p c Hl Hs Hd) as [Hf Ha].
  unfold stat, entry. rewrite (fs_key_named p c Hn Hl Hs), Ha, Hf.
  destruct p as [|a p]; [discriminate|].
  destruct (f !! (a :: p)) as [[b|]|]; reflexivity.
Qed.

Lemma item_outputPath_normal base seg fcat item :
  Path.normalize (item_outputPath base seg fcat item)
  = item_outputPath base seg fcat item.
Proof. unfold item_outputPath. apply Path_join_normal. Qed.

Lemma item_outputPath_key base seg fcat item :
  fs_key (item_outputPath base seg fcat item)
  = item_outputPath base seg fcat item.
Proof.
  apply (fs_key_named _ 103);
    [apply item_outputPath_normal | apply item_outputPath_last | discriminate].
Qed.

Lemma item_outputPath_stat f base seg fcat item :
  stat f (item_outputPath base seg fcat item)
  = f !! item_outputPath base seg fcat item.
Proof.
  apply (stat_named _ _ 103);
    [apply item_outputPath_normal | apply item_outputPath_last
    | discriminate | discriminate].
Qed.

Lemma json_path_stat f dir file :
  endsWith file (lit ".json") = true ->
  stat f (Path.join [dir; file]) = f !! Path.join [dir; file].
Proof.
  intros H. apply (stat_named _ _ 110);
    [apply Path_join_normal | apply json_path_last, H
    | discriminate | discriminate].
Qed.

Lemma json_path_key dir file :
  endsWith file (lit ".json") = true ->
  fs_key (Path.join [dir; file]) = Path.join [dir; file].
Proof.
  intros H. apply (fs_key_named _ 110);
    [apply Path_join_normal | apply json_path_last, H | discriminate].
Qed.

Lemma input_path_stat f dir :
  stat f (Path.join [dir; lit "input"]) = f !! Path.join [dir; lit "input"].
Proof.
  apply (stat_named _ _ 116);
    [apply Path_join_normal | | discriminate | discriminate].
  change (lit "input") with (lit "inpu" ++ [116]).
  apply (Path_join_last [_]); discriminate.
Qed.

(** *** The file operations *)

Lemma set_files_id s : set_files (files s) s = s.
Proof. destruct s. reflexivity. Qed.

Lemma fs_guard_state p r s s' : fs_guard X p s = (r, s') -> s' = s.
Proof.
  unfold fs_guard. destruct (fs_fault X (trace s) p); intros [= _ <-];
    reflexivity.
Qed.

Lemma entry_raw f q n : f !! q = Some n -> always_dir q = false ->
  entry f q = Some n.
Proof. unfold entry. intros H ->. exact H. Qed.

Lemma entry_file f q bytes :
  entry f q = Some (File bytes) -> f !! q = Some (File bytes).
Proof. unfold entry. destruct (always_dir q); [discriminate | auto]. Qed.

Lemma entry_none f q : entry f q = None -> f !! q = None.
Proof. unfold entry. destruct (always_dir q); [discriminate | auto]. Qed.

(** What [fs.writeFileSync] does: nothing, when the file cannot be opened;
    else all of the write, or the part of it that got through. *)
Lemma writeFileSync_inv p bytes r s s' :
  writeFileSync X p bytes s = (r, s') ->
  (s' = s /\ exists e, r = Throw e)
  \/ (files s !! fs_key p <> Some Dir
      /\ entry (files s) (Path.dirname (fs_key p)) = Some Dir
      /\ dir_form p = false /\ always_dir (fs_key p) = false
      /\ fs_fault X (trace s) p = None
      /\ ((r = Ok tt
           /\ write_fault X (trace s) p bytes = None
           /\ s' = set_files (<[fs_key p := File bytes]> (files s)) s)
          \/ exists e n,
               r = Throw e
               /\ write_fault X (trace s) p bytes = Some (e, n)
               /\ s' = set_files
                         (<[fs_key p := File (take n bytes)]> (files s)) s)).
Proof.
  unfold writeFileSync. cbv zeta.
  destruct p as [|a p]; [intros [= <- <-]; left; eauto|].
  destruct (dir_form (a :: p)); cbn [orb]; [intros [= <- <-]; left; eauto|].
  destruct (always_dir (fs_key (a :: p)));
    [intros [= <- <-]; left; eauto|].
  destruct (files s !! fs_key (a :: p)) as [[b|]|] eqn:E;
    try (intros [= <- <-]; left; eauto; fail).
  all: destruct (entry (files s) (Path.dirname (fs_key (a :: p))))
         as [[b'|]|]; try (intros [= <- <-]; left; eauto; fail).
  all: destruct (fs_fault X (trace s) (a :: p)) as [e|];
         [intros [= <- <-]; left; eauto|].
  all: destruct (write_fault X (trace s) (a :: p) bytes) as [[e n]|];
         intros [= <- <-]; right; (split; [discriminate|]);
         repeat (split; [reflexivity|]).
  all: try (right; eauto; fail).
  all: left; auto.
Qed.

Lemma writeFileSync_ok p bytes s s' :
  writeFileSync X p bytes s = (Ok tt, s') ->
  s' = set_files (<[fs_key p := File bytes]> (files s)) s.
Proof.
  intros H.
  apply writeFileSync_inv in H
    as [[_ [e He]]|(_ & _ & _ & _ & _ & [(_ & _ & H)|(e & n & He & _)])];
    [discriminate | exact H | discriminate].
Qed.

Lemma writeFileSync_written p bytes s s' :
  writeFileSync X p bytes s = (Ok tt, s') ->
  files s' !! fs_key p = Some (File bytes)
  /\ stat (files s') p = Some (File bytes).
Proof.
  intros H.
  apply writeFileSync_inv in H
    as [[_ [e He]]|(_ & _ & Hf & Ha & _ & [(_ & _ & ->)|(e & n & He & _)])];
    try discriminate.
  cbn [files set_files]. rewrite lookup_insert_eq. split; [reflexivity|].
  unfold stat, entry. rewrite Ha, Hf, lookup_insert_eq.
  destruct p; [discriminate Hf | reflexivity].
Qed.

(** What making a chain of directories does to the tree. *)
Lemma mkdir_chain_inv t ds f r f' :
  mkdir_chain X t ds f = (r, f') ->
  f ⊆ f'
  /\ forall k,
       f' !! k = f !! k
       \/ (f !! k = None /\ f' !! k = Some Dir /\ In k ds).
Proof.
  revert f. induction ds as [|d ds IH]; intros f; cbn [mkdir_chain].
  - intros [= _ <-]. split; [reflexivity | auto].
  - destruct (entry f d) as [[b|]|] eqn:E.
    + intros [= _ <-]. split; [reflexivity | auto].
    + intros H. apply IH in H as [H1 H2]. split; [exact H1|].
      intros k. destruct (H2 k) as [?|(? & ? & ?)]; [auto|].
      right. cbn [In]. auto.
    + apply entry_none in E.
      destruct (fs_fault X t d) as [e|];
        [intros [= _ <-]; split; [reflexivity | auto]|].
      intros H. apply IH in H as [H1 H2]. split.
      * transitivity (<[d := Dir]> f); [apply insert_subseteq; exact E|].
        exact H1.
      * intros k. destruct (decide (d = k)) as [<-|Hne].
        -- right. split; [exact E|]. split; [|left; reflexivity].
           refine (lookup_weaken _ _ _ _ _ H1). apply lookup_insert_eq.
        -- destruct (H2 k) as [Hk|(Hk & ? & ?)];
             rewrite lookup_insert_ne in Hk by exact Hne; [auto|].
           right. cbn [In]. auto.
Qed.

Lemma mkdir_chain_files t ds f r f' :
  mkdir_chain X t ds f = (r, f') ->
  forall k bytes, f' !! k = Some (File bytes) -> f !! k = Some (File bytes).
Proof.
  intros H k b Hk. apply mkdir_chain_inv in H as [_ H].
  destruct (H k) as [<-|(_ & Hd & _)]; [exact Hk | congruence].
Qed.

Lemma mkdirSync_recursive_inv p r s s' :
  mkdirSync_recursive X p s = (r, s') ->
  exists f',
    s' = set_files f' s
    /\ files s ⊆ f'
    /\ forall k,
         f' !! k = files s !! k
         \/ (files s !! k = None /\ f' !! k = Some Dir
             /\ In k (ancestors (fs_key p))).
Proof.
  unfold mkdirSync_recursive. destruct p as [|a p].
  - intros [= _ <-]. exists (files s).
    split; [symmetry; apply set_files_id|]. split; [reflexivity | auto].
  - destruct (mkdir_chain X (trace s) (ancestors (fs_key (a :: p))) (files s))
      as [r' f'] eqn:E.
    intros [= _ <-]. exists f'. split; [reflexivity|].
    exact (mkdir_chain_inv _ _ _ _ _ E).
Qed.

(** What the saving of one payload does: directories may be made on the
    way to the file, and then the file is written, in full or in part, or
    not at all. *)
Lemma save_image_inv p d r s s' :
  save_image X p d s = (r, s') ->
  exists f1,
    files s ⊆ f1
    /\ (forall k,
          f1 !! k = files s !! k
          \/ (files s !! k = None /\ f1 !! k = Some Dir
              /\ In k (ancestors (fs_key (Path.dirname p)))))
    /\ ((s' = set_files f1 s /\ exists e, r = Throw e)
        \/ (f1 !! fs_key p <> Some Dir
            /\ ((r = Ok tt
                 /\ write_fault X (trace s) p (Buffer_from_base64 X d) = None
                 /\ s' = set_files
                           (<[fs_key p := File (Buffer_from_base64 X d)]> f1)
                           s)
                \/ exists e n,
                     r = Throw e
                     /\ write_fault X (trace s) p (Buffer_from_base64 X d)
                        = Some (e, n)
                     /\ s' = set_files
                               (<[fs_key p :=
                                    File (take n (Buffer_from_base64 X d))]>
                                  f1) s))).
Proof.
  unfold save_image. unfold bind at 1. unfold existsSync, gets.
  assert (Hw : forall f1 r s',
             writeFileSync X p (Buffer_from_base64 X d) (set_files f1 s)
             = (r, s') ->
             (s' = set_files f1 s /\ exists e, r = Throw e)
             \/ (f1 !! fs_key p <> Some Dir
                 /\ ((r = Ok tt
                      /\ write_fault X (trace s) p (Buffer_from_base64 X d)
                         = None
                      /\ s' = set_files
                                (<[fs_key p :=
                                     File (Buffer_from_base64 X d)]> f1) s)
                     \/ exists e n,
                          r = Throw e
                          /\ write_fault X (trace s) p
                               (Buffer_from_base64 X d) = Some (e, n)
                          /\ s' = set_files
                                    (<[fs_key p :=
                                         File (take n
                                                 (Buffer_from_base64 X d))]>
                                       f1) s))).
  { intros f1 r0 s0 H.
    apply writeFileSync_inv in H
      as [H|(Hq & _ & _ & _ & _ & [(-> & Hf & ->)|(e & n & -> & Hf & ->)])];
      [left; exact H | right | right]; (split; [exact Hq|]).
    - left. auto.
    - right. exists e, n. auto. }
  destruct (stat (files s) (Path.dirname p)); cbn [negb].
  - unfold bind, ret. intros H. exists (files s).
    split; [reflexivity|]. split; [auto|].
    rewrite <- (set_files_id s) in H at 1. exact (Hw _ _ _ H).
  - unfold bind.
    destruct (mkdirSync_recursive X (Path.dirname p) s) as [[[]|e] s1] eqn:E;
      apply mkdirSync_recursive_inv in E as (f1 & -> & H1 & H2);
      intros Hwrite; exists f1; (split; [exact H1|]); (split; [exact H2|]).
    + exact (Hw _ _ _ Hwrite).
    + injection Hwrite as <- <-. left. eauto.
Qed.

(** *** The directory of a path *)

Lemma drop_while_suffix f s : exists pre, s = pre ++ Path.drop_while f s.
Proof.
  induction s as [|c s [pre IH]]; cbn [Path.drop_while].
  - exists []. reflexivity.
  - destruct (f c); [|exists []; reflexivity].
    exists (c :: pre). cbn [app]. f_equal. exact IH.
Qed.

(** The directory of an absolute path that names a file is a proper prefix
    of the path. *)
Lemma Path_dirname_prefix p :
  Path.isAbsolute p = true -> Path.trailingSeparator p = false ->
  exists rest, rest <> [] /\ p = Path.dirname p ++ rest.
Proof.
  destruct p as [|c0 rest]; [discriminate|]. cbn [Path.isAbsolute].
  intros Habs Htrail. unfold Path.dirname. rewrite Habs. cbn [andb].
  destruct (rev rest) as [|x r] eqn:Er.
  { apply (f_equal (@rev N)) in Er. rewrite rev_involutive in Er.
    cbn [rev] in Er. subst rest.
    unfold Path.trailingSeparator in Htrail.
    change (last [c0]) with (Some c0) in Htrail. congruence. }
  assert (Hrest : rest = rev r ++ [x]).
  { apply (f_equal (@rev N)) in Er. rewrite rev_involutive in Er.
    cbn [rev] in Er. exact Er. }
  assert (Hx : (x =? Char.slash) = false).
  { unfold Path.trailingSeparator in Htrail. rewrite Hrest in Htrail.
    change (c0 :: rev r ++ [x]) with ((c0 :: rev r) ++ [x]) in Htrail.
    rewrite last_snoc in Htrail. exact Htrail. }
  cbn [Path.drop_while]. rewrite Hx. cbn [Path.drop_while].
  rewrite Hx. cbn [negb].
  destruct (drop_while_suffix (fun c => negb (c =? Char.slash)) r)
    as [pre Hpre].
  destruct (Path.drop_while (fun c => negb (c =? Char.slash)) r)
    as [|y before] eqn:Ed.
  - exists rest. split; [rewrite Hrest; destruct (rev r); discriminate|].
    apply N.eqb_eq in Habs. subst c0. reflexivity.
  - assert (Hsplit : rest = rev before ++ y :: rev pre ++ [x]).
    { rewrite Hrest, Hpre, rev_app_distr. cbn [rev].
      rewrite <- !app_assoc. reflexivity. }
    destruct (bool_decide (before = [])) eqn:Eb.
    + apply bool_decide_eq_true_1 in Eb. subst before.
      assert (Hy : (y =? Char.slash) = true).
      { destruct r as [|z r']; [discriminate|].
        cbn [Path.drop_while] in Ed.
        clear - Ed. revert z Ed.
        induction r' as [|w r' IH]; intros z; cbn [Path.drop_while].
        - destruct (z =? Char.slash) eqn:Ez; cbn [negb];
            [intros [= <-]; exact Ez | discriminate].
        - destruct (z =? Char.slash) eqn:Ez; cbn [negb];
            [intros [= <- _]; exact Ez|].
          intros H. exact (IH w H). }
      apply N.eqb_eq in Habs, Hy. subst c0 y.
      exists (rev pre ++ [x]). split; [destruct (rev pre); discriminate|].
      rewrite Hsplit. reflexivity.
    + exists (y :: rev pre ++ [x]). split; [discriminate|].
      rewrite Hsplit. reflexivity.
Qed.

Lemma Path_dirname_nonempty p : Path.dirname p <> [].
Proof.
  destruct p as [|c0 rest]; [discriminate|]. unfold Path.dirname.
  destruct (Path.drop_while _ (Path.drop_while _ (rev rest)));
    [destruct (c0 =? Char.slash); discriminate|].
  destruct (_ && _); discriminate.
Qed.

Lemma ancestors_from_prefix done q d :
  In d (ancestors_from done q) -> exists rest, rev done ++ q = d ++ rest.
Proof.
  revert done. induction q as [|c q IH]; intros done; cbn [ancestors_from].
  - destruct done as [|x done]; [intros []|]. intros [<-|[]].
    exists []. reflexivity.
  - intros H. apply in_app_or in H as [H|H].
    + destruct (_ && _); [|destruct H]. destruct H as [<-|[]].
      exists (c :: q). reflexivity.
    + destruct (IH _ H) as [rest E]. exists rest. rewrite <- E.
      cbn [rev]. rewrite <- app_assoc. reflexivity.
Qed.

Lemma ancestors_from_self done q :
  rev done ++ q <> [] -> In (rev done ++ q) (ancestors_from done q).
Proof.
  revert done. induction q as [|c q IH]; intros done; cbn [ancestors_from].
  - rewrite app_nil_r. destruct done as [|x done];
      [intros H; destruct H; reflexivity|].
    intros _. left. reflexivity.
  - intros _. apply in_or_app. right.
    replace (rev done ++ c :: q) with (rev (c :: done) ++ q)
      by (cbn [rev]; rewrite <- app_assoc; reflexivity).
    apply IH. cbn [rev]. destruct (rev done); discriminate.
Qed.

Lemma drop_while_all f a b :
  forallb f a = true -> Path.drop_while f (a ++ b) = Path.drop_while f b.
Proof.
  induction a as [|c a IH]; [reflexivity|]. cbn [forallb app Path.drop_while].
  intros H. apply andb_true_iff in H as [-> H]. exact (IH H).
Qed.

Lemma forallb_rev_free (seg : jsstring) :
  forallb (fun c => negb (c =? Char.slash)) seg = true ->
  forallb (fun c => negb (c =? Char.slash)) (rev seg) = true.
Proof.
  intros H. apply forallb_forall. intros c Hc. apply in_rev in Hc.
  exact (proj1 (forallb_forall _ _) H c Hc).
Qed.

(** The directory of "/a/b/c" is "/a/b", and that of "/c" is the root. *)
Lemma Path_dirname_absolute dirs file :
  Forall (fun seg => is_plain seg = true) (dirs ++ [file]) ->
  Path.dirname (absolute (dirs ++ [file])) = absolute dirs.
Proof.
  intros H. apply Forall_app in H as [Hd Hf].
  inversion Hf as [|? ? Hfile _]; subst.
  apply is_plain_inv in Hfile as (H0 & Hfree & _).
  destruct (free_last _ Hfree H0) as (w & c & -> & Hc).
  assert (Hrev : rev (w ++ [c]) = c :: rev w)
    by (rewrite rev_app_distr; reflexivity).
  assert (Hw : forallb (fun c => negb (c =? Char.slash)) (rev w) = true).
  { apply forallb_rev_free. rewrite forallb_app in Hfree.
    apply andb_true_iff in Hfree as [Hfree _]. exact Hfree. }
  unfold absolute, Path.dirname. rewrite N.eqb_refl. cbn [andb].
  destruct dirs as [|d dirs].
  - cbn [app Path.unsplit]. rewrite Hrev. cbn [Path.drop_while].
    rewrite Hc. cbn [negb Path.drop_while]. rewrite Hc. cbn [negb].
    rewrite <- (app_nil_r (rev w)), (drop_while_all _ _ _ Hw).
    reflexivity.
  - rewrite Path_unsplit_app by discriminate.
    cbn [Path.unsplit]. rewrite rev_app_distr. cbn [rev].
    rewrite Hrev, <- !app_assoc. cbn [app Path.drop_while].
    rewrite Hc. cbn [negb Path.drop_while]. rewrite Hc. cbn [negb].
    rewrite (drop_while_all _ _ _ Hw). cbn [Path.drop_while].
    rewrite N.eqb_refl. cbn [negb].
    pose proof (Path_unsplit_nonempty (d :: dirs) Hd) as Hne.
    rewrite bool_decide_eq_false_2.
    + rewrite rev_involutive. reflexivity.
    + intros E. apply Hne; [discriminate|].
      apply (f_equal (@rev N)) in E. rewrite rev_involutive in E. exact E.
Qed.

(** A normal absolute path that names a file is made of plain segments. *)
Lemma Path_normal_segments p :
  Path.isAbsolute p = true -> Path.normalize p = p ->
  Path.trailingSeparator p = false ->
  exists dirs file,
    p = absolute (dirs ++ [file])
    /\ Forall (fun seg => is_plain seg = true) (dirs ++ [file]).
Proof.
  intros Habs Hn Ht.
  assert (Hne : p <> []) by (destruct p; discriminate).
  destruct (Path_normalize_kept p Hne) as (stack & K & E).
  rewrite Hn, Habs, Ht in E. cbn [negb] in K.
  destruct stack as [|x stack];
    [subst p; discriminate|].
  destruct K as (names & dots & Es & Hnames & _ & Hdots).
  rewrite Hdots, app_nil_r in Es by (rewrite Habs; reflexivity).
  assert (Hr : rev (x :: stack) <> []).
  { intros F. apply (f_equal (@rev jsstring)) in F.
    rewrite rev_involutive in F. discriminate. }
  destruct (exists_last Hr) as (dirs & file & Er).
  exists dirs, file. rewrite <- Er. split.
  - rewrite E, app_nil_r. reflexivity.
  - rewrite Es. apply Forall_rev. exact Hnames.
Qed.

(** The names in the tree of a path made of plain segments and of its
    directory. *)
Lemma absolute_names dirs file :
  Forall (fun seg => is_plain seg = true) (dirs ++ [file]) ->
  fs_key (absolute (dirs ++ [file])) = absolute (dirs ++ [file])
  /\ dir_form (absolute (dirs ++ [file])) = false
  /\ always_dir (absolute (dirs ++ [file])) = false
  /\ fs_key (absolute dirs) = absolute dirs.
Proof.
  intros H.
  assert (Hne : dirs ++ [file] <> []) by (destruct dirs; discriminate).
  assert (Hlast : is_plain file = true).
  { apply Forall_app in H as [_ H]. inversion H; subst. assumption. }
  assert (Hkey : forall segs,
             Forall (fun seg => is_plain seg = true) segs -> segs <> [] ->
             fs_key (absolute segs) = absolute segs).
  { intros segs Hs Hn. unfold fs_key.
    rewrite (Path_normalize_absolute _ Hs Hn). cbv zeta.
    destruct (plain_last segs Hs Hn) as (init & x & c & E & Hc).
    destruct (Path_unsplit_snoc init x c) as [y Hy]. rewrite <- E in Hy.
    unfold absolute. rewrite Hy.
    change (Char.slash :: y ++ [c]) with ((Char.slash :: y) ++ [c]).
    rewrite trailingSeparator_snoc. apply N.eqb_neq in Hc. rewrite Hc.
    reflexivity. }
  assert (Hsplit : Path.split (absolute (dirs ++ [file]))
                   = [] :: dirs ++ [file]).
  { unfold absolute. rewrite Path_split_slash, (Path_split_unsplit _ H Hne).
    reflexivity. }
  apply is_plain_inv in Hlast as (H0 & _ & H1 & H2).
  split; [exact (Hkey _ H Hne)|]. split; [|split].
  - unfold dir_form. rewrite Hsplit.
    change ([] :: dirs ++ [file]) with (([] :: dirs) ++ [file]).
    rewrite last_snoc.
    rewrite (bool_decide_eq_false_2 _ H0), (bool_decide_eq_false_2 _ H1),
      (bool_decide_eq_false_2 _ H2). reflexivity.
  - unfold always_dir. rewrite Hsplit.
    change ([] :: dirs ++ [file]) with (([] :: dirs) ++ [file]).
    rewrite forallb_app. cbn [forallb].
    rewrite (bool_decide_eq_false_2 _ H0), (bool_decide_eq_false_2 _ H1),
      (bool_decide_eq_false_2 _ H2). cbn [orb andb]. apply andb_false_r.
  - destruct dirs as [|d dirs]; [reflexivity|].
    apply Hkey; [|discriminate]. apply Forall_app in H as [H _]. exact H.
Qed.

(** *** Stage 2 *)

Lemma save_first_image_first p before part after d s :
  Forall (fun q => inline_payload q = None) before ->
  inline_payload part = Some d ->
  save_first_image X p (before ++ part :: after) s
  = bind (save_image X p d) (fun _ => ret true) s.
Proof.
  intros Hb Hp. induction Hb as [|q before Hq _ IH]; cbn [app save_first_image].
  - rewrite Hp. reflexivity.
  - rewrite Hq. exact IH.
Qed.

Lemma save_first_image_none p ps s :
  Forall (fun q => inline_payload q = None) ps ->
  save_first_image X p ps s = (Ok false, s).
Proof.
  intros H. induction H as [|q ps Hq _ IH]; cbn [save_first_image].
  - reflexivity.
  - rewrite Hq. exact IH.
Qed.

(** The loop over the parts saves one payload, or finds none. *)
Lemma save_first_image_inv p ps r s s' :
  save_first_image X p ps s = (r, s') ->
  (r = Ok false /\ s' = s)
  \/ exists d r0,
       save_image X p d s = (r0, s')
       /\ r = match r0 with Ok _ => Ok true | Throw e => Throw e end.
Proof.
  induction ps as [|part ps IH]; cbn [save_first_image].
  - intros [= <- <-]. left. auto.
  - destruct (inline_payload part) as [d|]; [|exact IH].
    unfold bind. destruct (save_image X p d s) as [r0 s1] eqn:E.
    intros H. right. exists d, r0.
    destruct r0 as [[]|e]; injection H as <- <-; auto.
Qed.

(** [generateImage] once the service has answered. *)
Lemma generateImage_answered options s response :
  truthy (GOOGLE_API_KEY s) = true ->
  models_generateContent X (trace s) (default default_model (model options))
    (prompt options) = inr response ->
  let called :=
    emit (GenerateContent (default default_model (model options))
            (prompt options)) s in
  generateImage X options s
  = match GenAI.candidates response with
    | None | Some [] =>
        (Throw (Error (lit "No image generated. Please try a different prompt.")),
         called)
    | Some (candidate :: _) =>
        match GenAI.content candidate with
        | None =>
            (Throw (Error (lit "Invalid response structure from Gemini API.")),
             called)
        | Some content =>
            match GenAI.parts content with
            | None =>
                (Throw (Error (lit "Invalid response structure from Gemini API.")),
                 called)
            | Some parts =>
                bind (save_first_image X (outputPath options) parts)
                  (fun imageSaved =>
                     if negb imageSaved
                     then throw (Error (lit "No image data found in response"))
                     else ret tt) called
            end
        end
    end.
Proof.
  intros Hkey Hresp called.
  unfold generateImage. rewrite try_catch_rethrow.
  unfold bind at 1. unfold gets. rewrite Hkey. cbn [negb].
  unfold bind at 1. unfold generateContent. rewrite Hresp. cbn [lift].
  unfold ret at 1. fold called.
  destruct (GenAI.candidates response) as [[|candidate others]|];
    try reflexivity.
  destruct (GenAI.content candidate) as [content|]; [|reflexivity].
  destruct (GenAI.parts content) as [parts|]; reflexivity.
Qed.

(** The ways for [generateImage] to end: without its key, with the state as
    it was; after its request, without a write; or as the saving of one
    payload ends. *)
Lemma generateImage_inv options r s s' :
  generateImage X options s = (r, s') ->
  let called :=
    emit (GenerateContent (default default_model (model options))
            (prompt options)) s in
  (truthy (GOOGLE_API_KEY s) = false /\ s' = s /\ exists e, r = Throw e)
  \/ (truthy (GOOGLE_API_KEY s) = true
      /\ ((s' = called /\ exists e, r = Throw e)
          \/ exists d,
               save_image X (outputPath options) d called = (r, s'))).
Proof.
  intros H called. revert H.
  unfold generateImage. rewrite try_catch_rethrow.
  unfold bind at 1. unfold gets.
  destruct (truthy (GOOGLE_API_KEY s)); cbn [negb];
    [|intros [= <- <-]; left; eauto].
  unfold bind at 1. unfold generateContent. fold called.
  intros H. right. split; [reflexivity|]. revert H.
  destruct (models_generateContent X (trace s) _ (prompt options)) as [e|resp];
    cbn [lift]; [intros [= <- <-]; left; eauto|].
  unfold ret at 1.
  destruct (GenAI.candidates resp) as [[|candidate others]|];
    try (intros [= <- <-]; left; eauto).
  destruct (GenAI.content candidate) as [content|];
    [|intros [= <- <-]; left; eauto].
  destruct (GenAI.parts content) as [parts|];
    [|intros [= <- <-]; left; eauto].
  unfold bind.
  destruct (save_first_image X (outputPath options) parts called)
    as [r1 s1] eqn:E.
  apply save_first_image_inv in E as [[-> ->]|(d & r0 & E & ->)].
  - cbn [negb]. intros [= <- <-]. left. eauto.
  - destruct r0 as [[]|e]; cbn [negb]; intros [= <- <-]; right; eauto.
Qed.

(** *** When the image is saved *)

Lemma entry_mono f f' q n : f ⊆ f' -> entry f q = Some n -> entry f' q = Some n.
Proof.
  unfold entry. intros Hsub. destruct (always_dir q); [auto|].
  intros H. exact (lookup_weaken _ _ _ _ H Hsub).
Qed.

(** With no regular file in the way and no fault, the chain of directories
    is made. *)
Lemma mkdir_chain_ok t ds f :
  (forall d b, In d ds -> f !! d <> Some (File b)) ->
  (forall d, In d ds -> fs_fault X t d = None) ->
  exists f',
    mkdir_chain X t ds f = (Ok tt, f')
    /\ forall d, In d ds -> entry f' d = Some Dir.
Proof.
  revert f. induction ds as [|d ds IH]; intros f Hf Hg; cbn [mkdir_chain].
  - exists f. split; [reflexivity | intros d []].
  - destruct (entry f d) as [[b|]|] eqn:E.
    + apply entry_file in E. destruct (Hf d b (or_introl eq_refl) E).
    + destruct (IH f) as (f' & M & D);
        [intros a b Ha; apply Hf; right; exact Ha
        |intros a Ha; apply Hg; right; exact Ha|].
      exists f'. split; [exact M|].
      intros a [<-|Ha]; [|exact (D a Ha)].
      exact (entry_mono _ _ _ _ (proj1 (mkdir_chain_inv _ _ _ _ _ M)) E).
    + rewrite (Hg d (or_introl eq_refl)).
      destruct (IH (<[d := Dir]> f)) as (f' & M & D).
      { intros a b Ha. destruct (decide (d = a)) as [<-|N].
        - rewrite lookup_insert_eq. discriminate.
        - rewrite lookup_insert_ne by exact N. apply Hf. right. exact Ha. }
      { intros a Ha. apply Hg. right. exact Ha. }
      exists f'. split; [exact M|].
      intros a [<-|Ha]; [|exact (D a Ha)].
      apply (entry_mono (<[d := Dir]> f));
        [exact (proj1 (mkdir_chain_inv _ _ _ _ _ M))|].
      unfold entry in *. destruct (always_dir d); [reflexivity|].
      apply lookup_insert_eq.
Qed.

Lemma ancestors_dirname_fresh p :
  Path.isAbsolute p = true -> Path.trailingSeparator p = false ->
  ~ In p (ancestors (Path.dirname p)).
Proof.
  intros Habs Htrail Hin.
  destruct (Path_dirname_prefix p Habs Htrail) as (rest & Hrest & E).
  apply ancestors_from_prefix in Hin as [rest' E']. cbn [rev app] in E'.
  apply (f_equal (@length N)) in E, E'. rewrite length_app in E, E'.
  destruct rest; [congruence|]. cbn [length] in E. lia.
Qed.

Lemma stat_dirname f p :
  Path.isAbsolute p = true -> Path.normalize p = p ->
  Path.trailingSeparator p = false ->
  entry f (Path.dirname p) = Some Dir -> stat f (Path.dirname p) = Some Dir.
Proof.
  intros Habs Hn Htrail E.
  destruct (Path_normal_segments p Habs Hn Htrail) as (dirs & file & Ep & Hs).
  destruct (absolute_names dirs file Hs) as (_ & _ & _ & K4).
  pose proof (Path_dirname_absolute dirs file Hs) as Ed.
  rewrite <- Ep in Ed.
  pose proof (Path_dirname_nonempty p) as Hdne.
  unfold stat. rewrite Ed, K4, <- Ed, E.
  destruct (Path.dirname p); [contradiction | reflexivity].
Qed.

Lemma writeFileSync_succeeds p bytes s :
  p <> [] -> dir_form p = false -> always_dir (fs_key p) = false ->
  files s !! fs_key p <> Some Dir ->
  entry (files s) (Path.dirname (fs_key p)) = Some Dir ->
  fs_fault X (trace s) p = None ->
  write_fault X (trace s) p bytes = None ->
  writeFileSync X p bytes s
  = (Ok tt, set_files (<[fs_key p := File bytes]> (files s)) s).
Proof.
  intros Hne Hf Ha Hq Hd Hg Hw. unfold writeFileSync. cbv zeta.
  destruct p as [|a p]; [contradiction|].
  rewrite Hf, Ha, Hd, Hg, Hw. cbn [orb].
  destruct (files s !! fs_key (a :: p)) as [[b|]|]; try reflexivity.
  contradiction.
Qed.

(** The saving of a payload goes through when the path is a normal
    absolute path that names no directory, no regular file stands where a
    directory of the path is to be, and the file system raises no fault:
    the directories that are missing are made and the file is written. *)
Lemma save_image_succeeds p d s :
  Path.isAbsolute p = true -> Path.normalize p = p ->
  Path.trailingSeparator p = false ->
  files s !! p <> Some Dir ->
  (forall q bytes,
     In q (ancestors (Path.dirname p)) -> files s !! q <> Some (File bytes)) ->
  (forall q, In q (ancestors (Path.dirname p)) ->
             fs_fault X (trace s) q = None) ->
  fs_fault X (trace s) p = None ->
  write_fault X (trace s) p (Buffer_from_base64 X d) = None ->
  exists f1,
    save_image X p d s
    = (Ok tt, set_files (<[p := File (Buffer_from_base64 X d)]> f1) s)
    /\ files s ⊆ f1
    /\ entry f1 (Path.dirname p) = Some Dir
    /\ (forall k bytes,
          f1 !! k = Some (File bytes) -> files s !! k = Some (File bytes)).
Proof.
  intros Habs Hn Htrail Hp Hanc Hgd Hgp Hwp.
  pose proof (ancestors_dirname_fresh p Habs Htrail) as Hfresh.
  destruct (Path_normal_segments p Habs Hn Htrail) as (dirs & file & Ep & Hs).
  destruct (absolute_names dirs file Hs) as (K1 & K2 & K3 & K4).
  pose proof (Path_dirname_absolute dirs file Hs) as Ed.
  rewrite <- Ep in K1, K2, K3, Ed.
  assert (Hpne : p <> []) by (destruct p; discriminate).
  assert (Hdne : Path.dirname p <> []) by apply Path_dirname_nonempty.
  assert (Hkd : fs_key (Path.dirname p) = Path.dirname p)
    by (rewrite Ed; exact K4).
  assert (Hself : In (Path.dirname p) (ancestors (Path.dirname p))).
  { apply (ancestors_from_self [] (Path.dirname p)). cbn [rev app].
    exact Hdne. }
  assert (Hstat : stat (files s) (Path.dirname p)
                  = entry (files s) (Path.dirname p)).
  { unfold stat. rewrite Hkd.
    destruct (Path.dirname p) as [|a dir] eqn:Edir; [contradiction|].
    rewrite <- Edir in *.
    destruct (entry (files s) (Path.dirname p)) as [[b|]|] eqn:E;
      try reflexivity.
    apply entry_file in E. destruct (Hanc _ b Hself E). }
  assert (Hnf : forall b, entry (files s) (Path.dirname p) <> Some (File b)).
  { intros b E. apply entry_file in E. exact (Hanc _ b Hself E). }
  unfold save_image. unfold bind at 1. unfold existsSync, gets.
  rewrite Hstat.
  destruct (entry (files s) (Path.dirname p)) as [[b|]|] eqn:E; cbn [negb].
  - destruct (Hnf b eq_refl).
  - exists (files s). unfold bind, ret.
    rewrite writeFileSync_succeeds; rewrite ?K1; try assumption.
    split; [reflexivity|]. split; [reflexivity|]. split; [exact E|]. auto.
  - unfold bind, mkdirSync_recursive.
    destruct (Path.dirname p) as [|a dir] eqn:Edir; [contradiction|].
    rewrite <- Edir in *. rewrite Hkd.
    destruct (mkdir_chain_ok (trace s) (ancestors (Path.dirname p)) (files s)
                Hanc Hgd) as (f' & M & D).
    rewrite M. exists f'.
    destruct (mkdir_chain_inv _ _ _ _ _ M) as [Hsub Hk].
    rewrite writeFileSync_succeeds; rewrite ?K1; cbn [files set_files trace];
      try assumption.
    + split; [reflexivity|]. split; [exact Hsub|]. split; [exact (D _ Hself)|].
      exact (mkdir_chain_files _ _ _ _ _ M).
    + destruct (Hk p) as [->|(_ & _ & Hin)]; [exact Hp | contradiction].
    + exact (D _ Hself).
Qed.

(** [generateImage] goes through as the saving of the first payload does. *)
Lemma generateImage_saves options s response candidate others content
  before part after imageData :
  truthy (GOOGLE_API_KEY s) = true ->
  models_generateContent X (trace s) (default default_model (model options))
    (prompt options) = inr response ->
  GenAI.candidates response = Some (candidate :: others) ->
  GenAI.content candidate = Some content ->
  GenAI.parts content = Some (before ++ part :: after) ->
  Forall (fun q => inline_payload q = None) before ->
  inline_payload part = Some imageData ->
  generateImage X options s
  = save_image X (outputPath options) imageData
      (emit (GenerateContent (default default_model (model options))
               (prompt options)) s).
Proof.
  intros Hkey Hresp Hc Hco Hp Hb Hi.
  rewrite (generateImage_answered _ _ _ Hkey Hresp). cbv zeta.
  rewrite Hc, Hco, Hp. unfold bind at 1.
  rewrite (save_first_image_first _ _ _ _ _ _ Hb Hi). unfold bind, ret.
  destruct (save_image X (outputPath options) imageData _)
    as [[[]|e] s1]; reflexivity.
Qed.

Lemma save_image_written p d s s' :
  save_image X p d s = (Ok tt, s') ->
  files s' !! fs_key p = Some (File (Buffer_from_base64 X d))
  /\ stat (files s') p = Some (File (Buffer_from_base64 X d)).
Proof.
  unfold save_image. unfold bind at 1. unfold existsSync, gets.
  destruct (stat (files s) (Path.dirname p)); cbn [negb]; unfold bind.
  - unfold ret. apply writeFileSync_written.
  - destruct (mkdirSync_recursive X (Path.dirname p) s) as [[[]|e] s1];
      [apply writeFileSync_written | discriminate].
Qed.

(** C5.  First match wins.  Once the service has answered, [generateImage]
    looks at the first candidate only.  The first of its parts that carries
    a non-empty inline payload is decoded and written to the output path,
    after the directories that are missing on the way to it are made,
    whatever the later parts and the other candidates hold.  When the call
    returns, the file holds the decoded payload; and the call does return,
    with the file written, its directory there and every other regular
    file as it was, when the output path is a normal absolute path that
    names no directory, no regular file stands where a directory of the
    path is to be, and the file system raises no fault.  With no
    candidate, with a first candidate without content or parts, or with no
    payload among the parts of the first candidate, the call throws and the
    file tree is as it was, whatever the other candidates hold. *)
Theorem generateImage_first_match (options : GenerateImageOptions)
  (s : State) (response : GenAI.GenerateContentResponse) :
  truthy (GOOGLE_API_KEY s) = true ->
  models_generateContent X (trace s) (default default_model (model options))
    (prompt options) = inr response ->
  let called :=
    emit (GenerateContent (default default_model (model options))
            (prompt options)) s in
  let p := outputPath options in
  files called = files s
  /\ (forall candidate others content before part after imageData,
        GenAI.candidates response = Some (candidate :: others) ->
        GenAI.content candidate = Some content ->
        GenAI.parts content = Some (before ++ part :: after) ->
        Forall (fun q => inline_payload q = None) before ->
        inline_payload part = Some imageData ->
        generateImage X options s = save_image X p imageData called
        /\ (forall s',
              generateImage X options s = (Ok tt, s') ->
              stat (files s') p
              = Some (File (Buffer_from_base64 X imageData)))
        /\ (Path.isAbsolute p = true ->
            Path.normalize p = p ->
            Path.trailingSeparator p = false ->
            files s !! p <> Some Dir ->
            (forall q bytes,
               In q (ancestors (Path.dirname p)) ->
               files s !! q <> Some (File bytes)) ->
            (forall q,
               In q (ancestors (Path.dirname p)) ->
               fs_fault X (trace called) q = None) ->
            fs_fault X (trace called) p = None ->
            write_fault X (trace called) p (Buffer_from_base64 X imageData)
            = None ->
            exists s',
              generateImage X options s = (Ok tt, s')
              /\ files s' !! p
                 = Some (File (Buffer_from_base64 X imageData))
              /\ stat (files s') (Path.dirname p) = Some Dir
              /\ forall k bytes,
                   k <> p ->
                   files s' !! k = Some (File bytes) ->
                   files s !! k = Some (File bytes)))
  /\ (GenAI.candidates response = None \/ GenAI.candidates response = Some [] ->
      generateImage X options s
      = (Throw (Error (lit "No image generated. Please try a different prompt.")),
         called))
  /\ (forall candidate others,
        GenAI.candidates response = Some (candidate :: others) ->
        (GenAI.content candidate = None
         \/ exists content,
              GenAI.content candidate = Some content
              /\ GenAI.parts content = None) ->
        generateImage X options s
        = (Throw (Error (lit "Invalid response structure from Gemini API.")),
           called))
  /\ (forall candidate others content parts,
        GenAI.candidates response = Some (candidate :: others) ->
        GenAI.content candidate = Some content ->
        GenAI.parts content = Some parts ->
        Forall (fun q => inline_payload q = None) parts ->
        generateImage X options s
        = (Throw (Error (lit "No image data found in response")), called)).
Proof.
  intros Hkey Hresp called p.
  pose proof (generateImage_answered _ _ _ Hkey Hresp) as Hgen.
  cbv zeta in Hgen. fold called in Hgen.
  split; [reflexivity|]. split; [|split; [|split]].
  - intros candidate others content before part after imageData Hc Hco Hp Hb Hi.
    pose proof (generateImage_saves _ _ _ _ _ _ _ _ _ _ Hkey Hresp Hc Hco Hp
                  Hb Hi) as E.
    fold called p in E.
    split; [exact E|]. split.
    + intros s'. rewrite E. intros H. exact (proj2 (save_image_written _ _ _ _ H)).
    + intros Habs Hn Htrail Hnd Hanc Hgd Hgp Hwp.
      destruct (save_image_succeeds p imageData called Habs Hn Htrail Hnd
                  Hanc Hgd Hgp Hwp) as (f1 & Hs & Hsub & Hdir & Hfiles).
      eexists. split; [rewrite E; exact Hs|]. cbn [files set_files].
      split; [apply lookup_insert_eq|]. split.
      * apply (stat_dirname _ p Habs Hn Htrail).
        assert (Hne : p <> Path.dirname p).
        { intros F.
          destruct (Path_dirname_prefix p Habs Htrail) as (rest & Hr & Er).
          apply (f_equal (@length N)) in Er.
          rewrite length_app, <- F in Er.
          destruct rest; [contradiction|]. cbn [length] in Er. lia. }
        unfold entry in *. destruct (always_dir (Path.dirname p));
          [reflexivity|].
        rewrite lookup_insert_ne by exact Hne. exact Hdir.
      * intros k bytes Hk. rewrite lookup_insert_ne by congruence.
        apply Hfiles.
  - intros [H|H]; rewrite Hgen, H; reflexivity.
  - intros candidate others Hc [H|[content [H1 H2]]]; rewrite Hgen, Hc.
    + rewrite H. reflexivity.
    + rewrite H1, H2. reflexivity.
  - intros candidate others content parts Hc Hco Hp Hnone.
    rewrite Hgen, Hc, Hco, Hp. unfold bind.
    rewrite (save_first_image_none _ _ _ Hnone). reflexivity.
Qed.

(** *** What the two stages leave alone *)

Lemma staged_refl s : staged s s.
Proof.
  repeat split. exists []. rewrite app_nil_r. split; reflexivity.
Qed.

Lemma staged_trans s1 s2 s3 : staged s1 s2 -> staged s2 s3 -> staged s1 s3.
Proof.
  intros (A1 & A2 & A3 & A4 & A5 & A6 & r1 & A7 & A8)
         (B1 & B2 & B3 & B4 & B5 & B6 & r2 & B7 & B8).
  repeat split; try congruence.
  exists (r1 ++ r2). rewrite B7, A7, <- app_assoc. split; [reflexivity|].
  rewrite forallb_app, A8, B8. reflexivity.
Qed.

Lemma staged_set_files f s : staged s (set_files f s).
Proof. exact (staged_refl s). Qed.

Lemma staged_set_promptCache m s : staged s (set_promptCache m s).
Proof. exact (staged_refl s). Qed.

Lemma staged_emit e s : is_request e = true -> staged s (emit e s).
Proof.
  intros H. repeat split. exists [e]. split; [reflexivity|].
  cbn. rewrite H. reflexivity.
Qed.

Lemma files_kept_refl p s : files_kept_but p s s.
Proof. intros k b H. right. exact H. Qed.

Lemma files_kept_trans p s1 s2 s3 :
  files_kept_but p s1 s2 -> files_kept_but p s2 s3 -> files_kept_but p s1 s3.
Proof.
  intros H12 H23 k b H. destruct (H23 k b H) as [->|H2]; [left; reflexivity|].
  exact (H12 k b H2).
Qed.

Lemma mkdirSync_recursive_staged p r s s' :
  mkdirSync_recursive X p s = (r, s') ->
  staged s s' /\ (forall q, files_kept_but q s s')
  /\ promptCache s' = promptCache s.
Proof.
  unfold mkdirSync_recursive.
  destruct p as [|a p].
  - intros [= _ <-]. split; [apply staged_refl|].
    split; [intros q; apply files_kept_refl | reflexivity].
  - destruct (mkdir_chain X (trace s) (ancestors (fs_key (a :: p))) (files s))
      as [r' f'] eqn:E.
    intros [= _ <-]. split; [apply staged_set_files|]. split; [|reflexivity].
    intros q k b H. right. exact (mkdir_chain_files _ _ _ _ _ E k b H).
Qed.

Lemma writeFileSync_staged p bytes r s s' :
  writeFileSync X p bytes s = (r, s') ->
  staged s s' /\ files_kept_but (fs_key p) s s'
  /\ promptCache s' = promptCache s.
Proof.
  intros H.
  assert (Hins : forall n,
            files_kept_but (fs_key p) s
              (set_files (<[fs_key p := n]> (files s)) s)).
  { intros n k b Hk. cbn [files set_files] in Hk.
    destruct (decide (fs_key p = k)) as [<-|Hne]; [left; reflexivity|].
    rewrite lookup_insert_ne in Hk by exact Hne. right. exact Hk. }
  apply writeFileSync_inv in H
    as [[-> _]|(_ & _ & _ & _ & _ & [(_ & _ & ->)|(e & n & _ & _ & ->)])].
  - split; [apply staged_refl|]. split; [apply files_kept_refl|reflexivity].
  - split; [apply staged_set_files|]. split; [apply Hins|reflexivity].
  - split; [apply staged_set_files|]. split; [apply Hins|reflexivity].
Qed.

Lemma save_image_staged p d r s s' :
  save_image X p d s = (r, s') ->
  staged s s' /\ files_kept_but (fs_key p) s s'
  /\ promptCache s' = promptCache s.
Proof.
  unfold save_image, bind, existsSync, gets.
  destruct (stat (files s) (Path.dirname p)); cbn [negb].
  - unfold ret. apply writeFileSync_staged.
  - destruct (mkdirSync_recursive X (Path.dirname p) s) as [[[]|e] s1] eqn:E;
      apply mkdirSync_recursive_staged in E as (E1 & E2 & E3).
    + intros H. apply writeFileSync_staged in H as (H1 & H2 & H3).
      split; [exact (staged_trans _ _ _ E1 H1)|].
      split; [exact (files_kept_trans _ _ _ _ (E2 _) H2) | congruence].
    + intros [= _ <-]. split; [exact E1|]. split; [exact (E2 _) | exact E3].
Qed.

Lemma generateImage_staged options r s s' :
  generateImage X options s = (r, s') ->
  staged s s' /\ files_kept_but (fs_key (outputPath options)) s s'
  /\ promptCache s' = promptCache s.
Proof.
  intros H.
  apply generateImage_inv in H as [(_ & -> & _)|(_ & [[-> _]|[d H]])].
  - split; [apply staged_refl|].
    split; [apply files_kept_refl | reflexivity].
  - split; [apply staged_emit; reflexivity|].
    split; [intros k b H; right; exact H | reflexivity].
  - apply save_image_staged in H as (H1 & H2 & H3).
    split; [|split; [exact H2 | exact H3]].
    refine (staged_trans _ _ _ _ H1). apply staged_emit. reflexivity.
Qed.

Lemma generatePromptWithGPT_staged item category r s s' :
  generatePromptWithGPT X item category s = (r, s') ->
  staged s s' /\ files s' = files s.
Proof.
  destruct (Map_get (getCacheKey (name item) category) (promptCache s))
    as [v|] eqn:Hget.
  - rewrite (generatePromptWithGPT_hit _ _ _ _ Hget). intros [= _ <-].
    split; [apply staged_refl | reflexivity].
  - rewrite (generatePromptWithGPT_miss _ _ _ Hget). cbn zeta.
    assert (Hc : staged s (emit (ChatCompletionsCreate category item) s))
      by (apply staged_emit; reflexivity).
    destruct (chat_completions_create X (trace s) category item) as [e|resp];
      [intros [= _ <-]; split; [exact Hc | reflexivity]|].
    destruct (OpenAI.choices resp) as [|ch rest];
      [intros [= _ <-]; split; [exact Hc | reflexivity]|].
    destruct (OpenAI.content ch) as [[|c t]|];
      intros [= _ <-]; (split; [|reflexivity]); exact Hc.
Qed.

Lemma stages_staged categoryName p item r s s' :
  stages X categoryName p item s = (r, s') ->
  staged s s' /\ files_kept_but (fs_key p) s s'.
Proof.
  unfold stages, bind.
  destruct (generatePromptWithGPT X item categoryName s) as [[v|e] s1] eqn:E;
    apply generatePromptWithGPT_staged in E as (E1 & E2).
  - intros H. apply generateImage_staged in H as (H1 & H2 & _).
    split; [exact (staged_trans _ _ _ E1 H1)|].
    intros k b Hk. destruct (H2 k b Hk) as [->|Hk']; [left; reflexivity|].
    right. rewrite <- E2. exact Hk'.
  - intros [= _ <-]. split; [exact E1|]. intros k b Hk. right.
    rewrite <- E2. exact Hk.
Qed.

Lemma stages_ok_written categoryName p item s s' :
  stages X categoryName p item s = (Ok tt, s') ->
  exists bytes, files s' !! fs_key p = Some (File bytes).
Proof.
  unfold stages, bind.
  destruct (generatePromptWithGPT X item categoryName s) as [[v|e] s1];
    [|discriminate].
  intros H.
  apply generateImage_inv in H
    as [(_ & _ & e & F)|(_ & [[_ [e F]]|[d H]])]; try discriminate.
  cbn [outputPath] in H. eexists.
  exact (proj1 (save_image_written _ _ _ _ H)).
Qed.

(** *** One item *)

(** The three ways through the body of the innermost loop. *)
Lemma process_item_cases base seg cat fcat item s :
  process_item X base seg cat fcat item s
  = match files s !! item_outputPath base seg fcat item with
    | Some _ => (Ok tt, bump_skipped s)
    | None =>
        match stages X cat (item_outputPath base seg fcat item) item s with
        | (Ok _, s1) => (Ok tt, emit (SetTimeout 1000) (bump_processed s1))
        | (Throw _, s1) => (Ok tt, bump_failed s1)
        end
    end.
Proof.
  unfold process_item. unfold bind at 1. unfold existsSync, gets.
  rewrite item_outputPath_stat.
  destruct (files s !! item_outputPath base seg fcat item); [reflexivity|].
  unfold try_catch, bind.
  destruct (stages X cat (item_outputPath base seg fcat item) item s)
    as [[[]|e] s1]; reflexivity.
Qed.

Lemma existsSync_true p s :
  existsSync p s = (Ok true, s) -> exists n, stat (files s) p = Some n.
Proof.
  unfold existsSync, gets. destruct (stat (files s) p) as [n|]; [|discriminate].
  intros _. exists n. reflexivity.
Qed.

Lemma existsSync_false p s :
  existsSync p s = (Ok false, s) -> stat (files s) p = None.
Proof.
  unfold existsSync, gets. destruct (stat (files s) p) as [n|]; [discriminate|].
  reflexivity.
Qed.

(** C2.  Skip if the output exists.  When a file already stands at the
    item's output path, the item only adds one to [totalSkipped]: the two
    other counters, the prompt cache, the file tree and the trace of
    requests are as they were, so neither service is called, and the loop
    goes on with the next item. *)
Theorem process_item_skips_existing (base seg cat fcat : jsstring)
  (item : MenuItem) (s : State) :
  existsSync (item_outputPath base seg fcat item) s = (Ok true, s) ->
  exists s',
    process_item X base seg cat fcat item s = (Ok tt, s')
    /\ totalSkipped s' = totalSkipped s + 1
    /\ totalProcessed s' = totalProcessed s
    /\ totalFailed s' = totalFailed s
    /\ promptCache s' = promptCache s
    /\ trace s' = trace s
    /\ files s' = files s
    /\ forall rest,
         for_of (item :: rest) (process_item X base seg cat fcat) s
         = for_of rest (process_item X base seg cat fcat) s'.
Proof.
  intros H. apply existsSync_true in H as [n Hn].
  rewrite item_outputPath_stat in Hn.
  exists (bump_skipped s).
  assert (E : process_item X base seg cat fcat item s
              = (Ok tt, bump_skipped s))
    by (rewrite process_item_cases, Hn; reflexivity).
  repeat split; try exact E. intros rest. exact (for_of_cons _ _ _ _ _ E).
Qed.

(** The body of the item loop always completes. *)
Lemma process_item_total base seg cat fcat item s :
  exists s', process_item X base seg cat fcat item s = (Ok tt, s').
Proof.
  rewrite process_item_cases.
  destruct (files s !! item_outputPath base seg fcat item);
    [eexists; reflexivity|].
  destruct (stages X cat (item_outputPath base seg fcat item) item s)
    as [[[]|e] s1]; eexists; reflexivity.
Qed.

(** C1.  Failure isolation.  An item whose prompt or image generation
    throws adds exactly one to [totalFailed], leaves the two other counters
    alone, and the exception stops at the item: the body of the loop
    completes for every item, so the loop goes on with the items after it.
    When a later item [B] then succeeds, the two items together add one to
    [totalProcessed] and one to [totalFailed] (1 and 1 from the zeroes that
    [main] starts with) and the file of [B] is written. *)
Theorem failure_isolation (base seg cat fcat : jsstring) (A B : MenuItem)
  (s sA sB : State) (e : exn) :
  let pA := item_outputPath base seg fcat A in
  let pB := item_outputPath base seg fcat B in
  let body := process_item X base seg cat fcat in
  existsSync pA s = (Ok false, s) ->
  stages X cat pA A s = (Throw e, sA) ->
  existsSync pB (bump_failed sA) = (Ok false, bump_failed sA) ->
  stages X cat pB B (bump_failed sA) = (Ok tt, sB) ->
  (forall item s0, exists s1, body item s0 = (Ok tt, s1))
  /\ body A s = (Ok tt, bump_failed sA)
  /\ totalFailed (bump_failed sA) = totalFailed s + 1
  /\ totalProcessed (bump_failed sA) = totalProcessed s
  /\ totalSkipped (bump_failed sA) = totalSkipped s
  /\ (forall rest,
        for_of (A :: rest) body s = for_of rest body (bump_failed sA))
  /\ exists s',
       for_of [A; B] body s = (Ok tt, s')
       /\ totalProcessed s' = totalProcessed s + 1
       /\ totalFailed s' = totalFailed s + 1
       /\ totalSkipped s' = totalSkipped s
       /\ (totalProcessed s = 0 -> totalFailed s = 0 ->
           totalProcessed s' = 1 /\ totalFailed s' = 1)
       /\ exists bytes, files s' !! pB = Some (File bytes).
Proof.
  intros pA pB body HA0 HA HB0 HB.
  apply existsSync_false in HA0, HB0.
  unfold pA in HA0. unfold pB in HB0.
  rewrite item_outputPath_stat in HA0, HB0. fold pA in HA0. fold pB in HB0.
  assert (EA : body A s = (Ok tt, bump_failed sA)).
  { unfold body. rewrite process_item_cases. fold pA. rewrite HA0, HA.
    reflexivity. }
  assert (EB : body B (bump_failed sA)
               = (Ok tt, emit (SetTimeout 1000) (bump_processed sB))).
  { unfold body. rewrite process_item_cases. fold pB. rewrite HB0, HB.
    reflexivity. }
  destruct (stages_staged _ _ _ _ _ _ HA) as [(_ & _ & _ & P1 & K1 & F1 & _) _].
  destruct (stages_staged _ _ _ _ _ _ HB) as [(_ & _ & _ & P2 & K2 & F2 & _) _].
  cbn [bump_failed set_counters totalProcessed totalSkipped totalFailed]
    in P2, K2, F2.
  split; [intros item s0; apply process_item_total|].
  split; [exact EA|].
  split; [cbn; rewrite F1; reflexivity|].
  split; [exact P1|]. split; [exact K1|].
  split; [intros rest; exact (for_of_cons _ _ _ _ _ EA)|].
  exists (emit (SetTimeout 1000) (bump_processed sB)).
  assert (P : totalProcessed (emit (SetTimeout 1000) (bump_processed sB))
              = totalProcessed s + 1) by (cbn; rewrite P2, P1; reflexivity).
  assert (F : totalFailed (emit (SetTimeout 1000) (bump_processed sB))
              = totalFailed s + 1) by (cbn; rewrite F2, F1; reflexivity).
  split.
  { rewrite (for_of_cons _ _ _ _ _ EA), (for_of_cons _ _ _ _ _ EB).
    reflexivity. }
  split; [exact P|]. split; [exact F|].
  split; [cbn; rewrite K2, K1; reflexivity|].
  split; [intros Z1 Z2; rewrite P, F, Z1, Z2; split; reflexivity|].
  destruct (stages_ok_written _ _ _ _ _ HB) as [bytes Hb].
  unfold pB in Hb. rewrite item_outputPath_key in Hb.
  exists bytes. exact Hb.
Qed.

(** C6, as the code has it.  An item that is not skipped and whose two
    stages both succeed, the image being written by then, is followed by
    one pause of 1000 ms: the pause is the last thing the item does, and
    the next item starts after it. *)
Theorem pause_after_success (base seg cat fcat : jsstring) (item : MenuItem)
  (s s1 : State) :
  let p := item_outputPath base seg fcat item in
  existsSync p s = (Ok false, s) ->
  stages X cat p item s = (Ok tt, s1) ->
  exists s',
    process_item X base seg cat fcat item s = (Ok tt, s')
    /\ (exists bytes, files s' !! p = Some (File bytes))
    /\ trace s' = trace s1 ++ [SetTimeout 1000]
    /\ forall rest,
         for_of (item :: rest) (process_item X base seg cat fcat) s
         = for_of rest (process_item X base seg cat fcat) s'.
Proof.
  intros p H0 H. apply existsSync_false in H0.
  unfold p in H0. rewrite item_outputPath_stat in H0. fold p in H0.
  assert (E : process_item X base seg cat fcat item s
              = (Ok tt, emit (SetTimeout 1000) (bump_processed s1))).
  { rewrite process_item_cases. fold p. rewrite H0, H. reflexivity. }
  exists (emit (SetTimeout 1000) (bump_processed s1)).
  split; [exact E|]. split.
  { destruct (stages_ok_written _ _ _ _ _ H) as [bytes Hb].
    unfold p in Hb. rewrite item_outputPath_key in Hb.
    exists bytes. exact Hb. }
  split; [reflexivity|]. intros rest. exact (for_of_cons _ _ _ _ _ E).
Qed.

(** *** The loops *)

Lemma advanced_refl s : advanced 0 s s.
Proof.
  unfold advanced, counted. repeat split; try lia. intros k b _ H. exact H.
Qed.

Lemma advanced_trans n m s1 s2 s3 :
  advanced n s1 s2 -> advanced m s2 s3 -> advanced (n + m) s1 s3.
Proof.
  intros (A1 & A2 & A3 & A4 & A5 & A6) (B1 & B2 & B3 & B4 & B5 & B6).
  unfold advanced. repeat split; try congruence; try lia.
  intros k b Hk H. exact (A2 k b Hk (B2 k b Hk H)).
Qed.

Lemma stages_inputs_kept categoryName base seg fcat item r s s' :
  stages X categoryName (item_outputPath base seg fcat item) item s = (r, s') ->
  advanced 0 s s'.
Proof.
  intros H. apply stages_staged in H as [(C & _ & _ & P & K & F & _) Hf].
  unfold advanced, counted. rewrite C, P, K, F.
  repeat split; try lia.
  intros k b Hk Hb. destruct (Hf k b Hb) as [->|Hb']; [|exact Hb'].
  contradiction Hk. rewrite item_outputPath_key. apply item_outputPath_last.
Qed.

Lemma process_item_advanced base seg cat fcat item s :
  exists s',
    process_item X base seg cat fcat item s = (Ok tt, s')
    /\ advanced 1 s s'
    /\ ((totalProcessed s' = totalProcessed s + 1
         /\ totalSkipped s' = totalSkipped s
         /\ totalFailed s' = totalFailed s)
        \/ (totalProcessed s' = totalProcessed s
            /\ totalSkipped s' = totalSkipped s + 1
            /\ totalFailed s' = totalFailed s)
        \/ (totalProcessed s' = totalProcessed s
            /\ totalSkipped s' = totalSkipped s
            /\ totalFailed s' = totalFailed s + 1)).
Proof.
  rewrite process_item_cases.
  destruct (files s !! item_outputPath base seg fcat item).
  - eexists. split; [reflexivity|]. split.
    + unfold advanced, counted. cbn. repeat split; try lia.
      intros k b _ H. exact H.
    + right. left. repeat split.
  - destruct (stages X cat (item_outputPath base seg fcat item) item s)
      as [[[]|e] s1] eqn:E;
      apply stages_inputs_kept in E as (C & I & S & P & K & F);
      unfold counted in S; eexists; (split; [reflexivity|]); split.
    + unfold advanced, counted. cbn. repeat split; try lia; assumption.
    + left. cbn. lia.
    + unfold advanced, counted. cbn. repeat split; try lia; assumption.
    + right. right. cbn. lia.
Qed.

Lemma items_loop_advanced base seg cat fcat items s :
  exists s',
    for_of items (process_item X base seg cat fcat) s = (Ok tt, s')
    /\ advanced (N.of_nat (length items)) s s'.
Proof.
  revert s. induction items as [|item items IH]; intros s.
  - exists s. split; [reflexivity | apply advanced_refl].
  - destruct (process_item_advanced base seg cat fcat item s)
      as (s1 & E1 & A1 & _).
    destruct (IH s1) as (s' & E & A). exists s'.
    split; [rewrite (for_of_cons _ _ _ _ _ E1); exact E|].
    replace (N.of_nat (length (item :: items)))
      with (1 + N.of_nat (length items)) by (cbn [length]; lia).
    exact (advanced_trans _ _ _ _ _ A1 A).
Qed.

Lemma categories_loop_advanced base seg menuData s :
  exists s',
    for_of menuData (process_category X base seg) s = (Ok tt, s')
    /\ advanced (count_document menuData) s s'.
Proof.
  revert s. induction menuData as [|[categoryName category] rest IH]; intros s.
  - exists s. split; [reflexivity | apply advanced_refl].
  - destruct (items_loop_advanced base seg categoryName
                (formatFileName categoryName) (Items category) s)
      as (s1 & E1 & A1).
    destruct (IH s1) as (s' & E & A). exists s'. split.
    + rewrite (for_of_cons _ _ _ _ s1); [exact E | exact E1].
    + exact (advanced_trans _ _ _ _ _ A1 A).
Qed.

Lemma readFileSync_inv p r s s' :
  readFileSync X p s = (r, s') ->
  s' = s
  /\ forall bytes, r = Ok bytes -> stat (files s) p = Some (File bytes).
Proof.
  unfold readFileSync, bind, stat.
  destruct (fs_guard X p s) as [[[]|e] s1] eqn:G;
    apply fs_guard_state in G; subst s1.
  - destruct p as [|a p];
      [intros [= <- <-]; split; [reflexivity | discriminate]|].
    destruct (entry (files s) (fs_key (a :: p))) as [[b|]|];
      [destruct (dir_form (a :: p))| |]; intros [= <- <-];
      (split; [reflexivity|]); intros bytes [= ]; congruence.
  - intros [= <- <-]. split; [reflexivity | discriminate].
Qed.

(** One file of the input directory: when the body completes, the file
    was read and parsed, and its items were counted; when it throws,
    nothing was counted. *)
Lemma process_file_advanced inputDir base file r s s' :
  process_file X inputDir base file s = (r, s') ->
  match r with
  | Ok _ =>
      exists bytes menuData,
        stat (files s) (Path.join [inputDir; file]) = Some (File bytes)
        /\ JSON_parse X bytes = inr menuData
        /\ advanced (count_document menuData) s s'
  | Throw _ => s' = s
  end.
Proof.
  unfold process_file. unfold bind at 1.
  destruct (readFileSync X (Path.join [inputDir; file]) s) as [[bytes|e] s1]
    eqn:R; apply readFileSync_inv in R as [-> R].
  2:{ intros [= <- <-]. reflexivity. }
  specialize (R bytes eq_refl). unfold bind at 1.
  destruct (JSON_parse X bytes) as [e|menuData] eqn:Pe; cbn [lift].
  { intros [= <- <-]. reflexivity. }
  unfold ret at 1.
  destruct (categories_loop_advanced base (segment_of X file) menuData s)
    as (s2 & E & A).
  rewrite E. intros [= <- <-]. exists bytes, menuData. auto.
Qed.

(** The documents of a run that got through the loop over the files are
    those that the input directory held when the run started. *)
Lemma files_loop_advanced base names s0 s r s' :
  cwd s = cwd s0 ->
  inputs_kept s0 s ->
  Forall (fun file => endsWith file (lit ".json") = true) names ->
  for_of names (process_file X (Path.join [cwd s0; lit "input"]) base) s
  = (r, s') ->
  cwd s' = cwd s0
  /\ inputs_kept s0 s'
  /\ totalProcessed s <= totalProcessed s'
  /\ totalSkipped s <= totalSkipped s'
  /\ totalFailed s <= totalFailed s'
  /\ (r = Ok tt ->
      counted s'
      = counted s
        + fold_right
            (fun file n =>
               match input_document X s0 file with
               | Some menuData => count_document menuData
               | None => 0
               end + n)
            0 names).
Proof.
  intros Hc Hk Hn. revert s Hc Hk.
  induction Hn as [|file names Hfile _ IH]; intros s Hc Hk; cbn [for_of].
  - intros [= <- <-]. repeat split; try assumption; try lia.
    intros _. cbn. lia.
  - unfold bind.
    destruct (process_file X (Path.join [cwd s0; lit "input"]) base file s)
      as [[[]|e] s1] eqn:E; apply process_file_advanced in E.
    + destruct E as (bytes & menuData & Hb & Hp & C1 & I1 & S1 & P1 & K1 & F1).
      rewrite (json_path_stat _ _ _ Hfile) in Hb.
      intros H.
      assert (Hk1 : inputs_kept s0 s1).
      { intros k b Hl Hf. exact (Hk k b Hl (I1 k b Hl Hf)). }
      destruct (IH s1 (eq_trans C1 Hc) Hk1 H) as (C & I & P & K & F & S).
      repeat split; try assumption; try lia.
      intros ->. rewrite (S eq_refl), S1. cbn [fold_right].
      assert (D : input_document X s0 file = Some menuData).
      { unfold input_document.
        assert (L : last (Path.join [Path.join [cwd s0; lit "input"]; file])
                    <> Some 103)
          by (rewrite (json_path_last _ _ Hfile); discriminate).
        rewrite (Hk _ bytes L Hb), Hp. reflexivity. }
      rewrite D. lia.
    + subst s1. intros [= <- <-].
      repeat split; try assumption; try lia. discriminate.
Qed.

(** *** The whole run *)

Lemma filter_json_Forall names :
  Forall (fun file => endsWith file (lit ".json") = true)
    (filter (fun file => endsWith file (lit ".json") = true) names).
Proof.
  apply Forall_forall. intros file H. apply list_elem_of_filter in H as [H _].
  exact H.
Qed.

Lemma inputs_kept_refl s : inputs_kept s s.
Proof. intros k b _ H. exact H. Qed.

(** What [main_try] comes to.  When it returns, the report is read off the
    counters, which count the items of the documents found at the start,
    and the snapshot is on disk; when it throws, no regular file other
    than images was written, unless the loop over the files completed and
    the write of the snapshot was cut short, which leaves the bytes that
    got through at the path of the snapshot. *)
Lemma main_try_run r s s' :
  main_try X s = (r, s') ->
  match r with
  | Ok report =>
      Generated report = totalProcessed s'
      /\ Skipped report = totalSkipped s'
      /\ Failed report = totalFailed s'
      /\ Total report = Generated report + Skipped report + Failed report
      /\ Total report = enumerated_items X s
      /\ files s' !! Path.join [cwd s; lit "prompts-cache.json"]
         = Some (File (JSON_stringify X (promptCache s')))
  | Throw _ =>
      inputs_kept s s'
      \/ exists s1 e n,
           for_of (input_files X s)
             (process_file X (Path.join [cwd s; lit "input"])
                (Path.join [cwd s; lit "output"])) (set_counters 0 0 0 s)
           = (Ok tt, s1)
           /\ inputs_kept s s1
           /\ write_fault X (trace s1)
                (Path.join [cwd s; lit "prompts-cache.json"])
                (JSON_stringify X (promptCache s1)) = Some (e, n)
           /\ s' = set_files
                     (<[Path.join [cwd s; lit "prompts-cache.json"]
                        := File (take n (JSON_stringify X (promptCache s1)))]>
                        (files s1)) s1
  end.
Proof.
  unfold main_try. unfold bind at 1. unfold gets at 1.
  destruct (truthy (GOOGLE_API_KEY s)); cbn [negb];
    [|intros [= <- <-]; left; apply inputs_kept_refl].
  unfold bind at 1. unfold gets at 1.
  destruct (truthy (OPENAI_API_KEY s)); cbn [negb];
    [|intros [= <- <-]; left; apply inputs_kept_refl].
  unfold bind at 1. unfold gets at 1.
  unfold bind at 1. unfold existsSync, gets at 1.
  rewrite input_path_stat.
  destruct (files s !! Path.join [cwd s; lit "input"]) as [n|]; cbn [negb];
    [|intros [= <- <-]; left; apply inputs_kept_refl].
  unfold bind at 1. unfold readdirSync. unfold bind at 1.
  destruct (fs_guard X (Path.join [cwd s; lit "input"]) s) as [[[]|e] s1]
    eqn:G; apply fs_guard_state in G; subst s1;
    [|intros [= <- <-]; left; apply inputs_kept_refl].
  unfold enumerated_items, input_files.
  destruct (readdir_names X (files s) (Path.join [cwd s; lit "input"]))
    as [e|names]; cbn [lift];
    [intros [= <- <-]; left; apply inputs_kept_refl|].
  unfold ret at 1.
  pose proof (filter_json_Forall names) as Hjson.
  destruct (filter (fun file => endsWith file (lit ".json") = true) names)
    as [|file others] eqn:Ef;
    [intros [= <- <-]; left; apply inputs_kept_refl|].
  unfold bind at 1. unfold modify at 1. unfold bind at 1.
  destruct (for_of (file :: others)
              (process_file X (Path.join [cwd s; lit "input"])
                 (Path.join [cwd s; lit "output"])) (set_counters 0 0 0 s))
    as [r1 s1] eqn:L.
  pose proof L as L0.
  apply (files_loop_advanced _ _ s (set_counters 0 0 0 s)) in L;
    [|reflexivity|intros k b _ H; exact H|exact Hjson].
  destruct L as (C & I & _ & _ & _ & S).
  destruct r1 as [[]|e]; [|intros [= <- <-]; left; exact I].
  specialize (S eq_refl). unfold bind at 1. unfold gets at 1.
  unfold bind at 1.
  pose proof (json_path_key (cwd s) (lit "prompts-cache.json") eq_refl) as Hkey.
  destruct (writeFileSync X (Path.join [cwd s; lit "prompts-cache.json"])
              (JSON_stringify X (promptCache s1)) s1) as [r2 s2] eqn:W.
  apply writeFileSync_inv in W
    as [[-> [e ->]]
       |(_ & _ & _ & _ & _ & [(-> & _ & ->)|(e & m & -> & Hw & ->)])];
    rewrite ?Hkey.
  - intros [= <- <-]. left. exact I.
  - unfold bind, gets, ret. intros [= <- <-].
    cbn [Generated Skipped Failed Total totalProcessed totalSkipped
           totalFailed set_files promptCache files].
    repeat split; try apply lookup_insert_eq.
    unfold counted in S.
    cbn [set_counters totalProcessed totalSkipped totalFailed] in S. lia.
  - intros [= <- <-]. right. exists s1, e, m. auto.
Qed.

Lemma files_loop_monotone inputDir base names r s s' :
  for_of names (process_file X inputDir base) s = (r, s') ->
  totalProcessed s <= totalProcessed s'
  /\ totalSkipped s <= totalSkipped s'
  /\ totalFailed s <= totalFailed s'.
Proof.
  revert s. induction names as [|file names IH]; intros s; cbn [for_of].
  - intros [= _ <-]. lia.
  - unfold bind.
    destruct (process_file X inputDir base file s) as [[[]|e] s1] eqn:E;
      apply process_file_advanced in E.
    + destruct E as (_ & _ & _ & _ & _ & _ & _ & P & K & F).
      intros H. apply IH in H. lia.
    + subst s1. intros [= _ <-]. lia.
Qed.

Lemma process_item_counts_one base seg cat fcat item s :
  exists s',
    process_item X base seg cat fcat item s = (Ok tt, s')
    /\ ((totalProcessed s' = totalProcessed s + 1
         /\ totalSkipped s' = totalSkipped s
         /\ totalFailed s' = totalFailed s)
        \/ (totalProcessed s' = totalProcessed s
            /\ totalSkipped s' = totalSkipped s + 1
            /\ totalFailed s' = totalFailed s)
        \/ (totalProcessed s' = totalProcessed s
            /\ totalSkipped s' = totalSkipped s
            /\ totalFailed s' = totalFailed s + 1)).
Proof.
  destruct (process_item_advanced base seg cat fcat item s) as (s' & E & _ & H).
  exists s'. split; assumption.
Qed.

(** C10.  Counter accounting.  Every item that the innermost loop reaches
    adds one to exactly one of [totalProcessed], [totalSkipped] and
    [totalFailed] and leaves the two others as they were; no counter is
    lower after the loop over the files than before it, however the loop
    ends; and when [main] returns, the report shows the final counters and
    its total, their sum, is the number of items in the documents of the
    input directory. *)
Theorem counter_accounting :
  (forall base seg cat fcat item s,
     exists s',
       process_item X base seg cat fcat item s = (Ok tt, s')
       /\ ((totalProcessed s' = totalProcessed s + 1
            /\ totalSkipped s' = totalSkipped s
            /\ totalFailed s' = totalFailed s)
           \/ (totalProcessed s' = totalProcessed s
               /\ totalSkipped s' = totalSkipped s + 1
               /\ totalFailed s' = totalFailed s)
           \/ (totalProcessed s' = totalProcessed s
               /\ totalSkipped s' = totalSkipped s
               /\ totalFailed s' = totalFailed s + 1)))
  /\ (forall inputDir base names r s s',
        for_of names (process_file X inputDir base) s = (r, s') ->
        totalProcessed s <= totalProcessed s'
        /\ totalSkipped s <= totalSkipped s'
        /\ totalFailed s <= totalFailed s')
  /\ (forall s report s',
        main X s = (Returned report, s') ->
        Generated report = totalProcessed s'
        /\ Skipped report = totalSkipped s'
        /\ Failed report = totalFailed s'
        /\ Total report = Generated report + Skipped report + Failed report
        /\ Total report = enumerated_items X s).
Proof.
  split; [exact process_item_counts_one|].
  split; [exact files_loop_monotone|].
  intros s report s'. unfold main.
  destruct (main_try X s) as [[rep|e] s1] eqn:E; [|discriminate].
  intros [= <- <-]. apply main_try_run in E as (G & K & F & T & N & _).
  auto.
Qed.

(** C9.  A fatal error loses the prompt cache.  When the run ends through
    the [catch] block of [main], the status is 1 and no snapshot of the
    prompt cache is on disk: a regular file found at [prompts-cache.json]
    afterwards is the one that was there before the run, the one case
    apart where the loop over the documents had completed and the final
    write itself was cut short, which leaves the bytes of the snapshot
    that got through.  So after an error in the middle of the run, which
    is when the loop over the documents throws, the file is the one that
    was there before.  It happens in the middle of a run: with a second
    document that does not parse, the run exits with status 1 after the
    first document gave one image and put two prompts in the cache, and no
    snapshot is on disk. *)
Theorem fatal_exit_without_snapshot :
  (forall s code s',
     main X s = (Exited code, s') ->
     code = 1
     /\ exit_status (Exited code) <> 0
     /\ forall bytes,
          files s' !! Path.join [cwd s; lit "prompts-cache.json"]
          = Some (File bytes) ->
          files s !! Path.join [cwd s; lit "prompts-cache.json"]
          = Some (File bytes)
          \/ exists s1 e n,
               for_of (input_files X s)
                 (process_file X (Path.join [cwd s; lit "input"])
                    (Path.join [cwd s; lit "output"])) (set_counters 0 0 0 s)
               = (Ok tt, s1)
               /\ write_fault X (trace s1)
                    (Path.join [cwd s; lit "prompts-cache.json"])
                    (JSON_stringify X (promptCache s1)) = Some (e, n)
               /\ bytes = take n (JSON_stringify X (promptCache s1)))
  /\ (forall s code s' e s1,
        main X s = (Exited code, s') ->
        for_of (input_files X s)
          (process_file X (Path.join [cwd s; lit "input"])
             (Path.join [cwd s; lit "output"])) (set_counters 0 0 0 s)
        = (Throw e, s1) ->
        forall bytes,
          files s' !! Path.join [cwd s; lit "prompts-cache.json"]
          = Some (File bytes) ->
          files s !! Path.join [cwd s; lit "prompts-cache.json"]
          = Some (File bytes))
  /\ exists s',
       main Demo.services Demo.boot_broken = (Exited 1, s')
       /\ totalProcessed s' = 1
       /\ length (promptCache s') = 2%nat
       /\ files s' !! lit "/work/prompts-cache.json" = None.
Proof.
  assert (Hlast : forall s,
            last (Path.join [cwd s; lit "prompts-cache.json"]) <> Some 103).
  { intros s.
    rewrite (json_path_last (cwd s) (lit "prompts-cache.json") eq_refl).
    discriminate. }
  split; [|split].
  - intros s code s'. unfold main.
    destruct (main_try X s) as [[report|e] s1] eqn:E; [discriminate|].
    intros [= <- <-]. apply main_try_run in E.
    split; [reflexivity|]. split; [discriminate|].
    intros bytes Hb.
    destruct E as [E|(s2 & e' & n & L & _ & Hw & ->)].
    + left. exact (E _ _ (Hlast s) Hb).
    + right. exists s2, e', n. split; [exact L|]. split; [exact Hw|].
      cbn [files set_files] in Hb. rewrite lookup_insert_eq in Hb.
      congruence.
  - intros s code s' e s1. unfold main.
    destruct (main_try X s) as [[report|e0] s2] eqn:E; [discriminate|].
    intros [= <- <-] L bytes Hb. apply main_try_run in E.
    destruct E as [E|(s3 & e' & n & L' & _)].
    + exact (E _ _ (Hlast s) Hb).
    + rewrite L in L'. discriminate.
  - eexists. split; [vm_compute; reflexivity|]. vm_compute. auto.
Qed.

(** *** The path of an item, in general *)

Lemma under_app dir rel more : under dir (rel ++ more) = under dir rel ++ more.
Proof.
  unfold under. destruct (bool_decide (dir = lit "/")); [reflexivity|].
  rewrite <- app_assoc. reflexivity.
Qed.

Lemma Path_normalize_is_rooted a :
  exists r, Path.normalize (Char.slash :: a) = Char.slash :: r.
Proof.
  rewrite Path_normalize_rooted.
  destruct (fold_left (Path.normalize_step false) (Path.split a) []);
    eexists; reflexivity.
Qed.

Lemma Path_join_pair a b :
  b <> [] ->
  Path.join [Char.slash :: a; b]
  = Path.normalize (Char.slash :: a ++ Char.slash :: b).
Proof.
  intros Hb. unfold Path.join.
  rewrite !filter_cons_True by (exact Hb || discriminate).
  rewrite filter_nil. destruct b; [contradiction|reflexivity].
Qed.

(** Joining an absolute directory, a segment, a category and a file name
    gives the normal form of the four put together with separators,
    whatever the segment and the category are. *)
Lemma item_outputPath_normalized a seg fcat item :
  item_outputPath (Char.slash :: a) seg fcat item
  = Path.normalize
      (Char.slash :: a ++ Char.slash :: seg ++ Char.slash :: fcat
       ++ Char.slash :: formatFileName (name item) ++ lit ".png").
Proof.
  unfold item_outputPath.
  set (fileName := formatFileName (name item) ++ lit ".png").
  assert (Hfile : fileName <> [])
    by (unfold fileName; destruct (formatFileName _); discriminate).
  assert (Hinner : exists j,
             Path.join [Char.slash :: a; seg; fcat]
             = Path.normalize (Char.slash :: j)
             /\ Path.normalize (Char.slash :: j ++ Char.slash :: fileName)
                = Path.normalize
                    (Char.slash :: a ++ Char.slash :: seg
                     ++ Char.slash :: fcat ++ Char.slash :: fileName)).
  { unfold Path.join. rewrite filter_cons_True by discriminate.
    destruct seg as [|c seg]; destruct fcat as [|d fcat].
    - rewrite !filter_cons_False by (intros F; apply F; reflexivity).
      rewrite filter_nil. exists a. split; [reflexivity|].
      cbn [app]. rewrite !Path_normalize_double. reflexivity.
    - rewrite filter_cons_False by (intros F; apply F; reflexivity).
      rewrite filter_cons_True by discriminate. rewrite filter_nil.
      exists (a ++ Char.slash :: d :: fcat). split; [reflexivity|].
      cbn [app]. rewrite Path_normalize_double.
      rewrite <- app_assoc. reflexivity.
    - rewrite filter_cons_True by discriminate.
      rewrite filter_cons_False by (intros F; apply F; reflexivity).
      rewrite filter_nil.
      exists (a ++ Char.slash :: c :: seg). split; [reflexivity|].
      cbn [app].
      replace (a ++ Char.slash :: c :: seg
               ++ Char.slash :: Char.slash :: fileName)
        with ((a ++ Char.slash :: c :: seg)
              ++ Char.slash :: Char.slash :: fileName)
        by (rewrite <- app_assoc; reflexivity).
      rewrite Path_normalize_double. reflexivity.
    - rewrite !filter_cons_True by discriminate. rewrite filter_nil.
      exists (a ++ Char.slash :: (c :: seg) ++ Char.slash :: d :: fcat).
      split; [reflexivity|]. f_equal. f_equal.
      repeat (rewrite <- app_assoc || rewrite <- app_comm_cons).
      reflexivity. }
  destruct Hinner as (j & -> & Hj).
  destruct (Path_normalize_is_rooted j) as [r Hr]. rewrite Hr.
  rewrite (Path_join_pair r fileName Hfile).
  change (Char.slash :: r ++ Char.slash :: fileName)
    with ((Char.slash :: r) ++ Char.slash :: fileName).
  rewrite <- Hr, Path_normalize_prefix. exact Hj.
Qed.

(** C4, as the code has it.  For a document read from [file] in a working
    directory given by plain segments, the segment is the file name with
    ".json" taken off and lower-cased, and the path of an item is the
    normal form, as [path.join] gives it, of
    [cwd/output/segment/category/item.png] with the sanitized names of the
    category and of the item.  An empty segment or an empty sanitized
    category is left out together with its separator; with a segment other
    than "", "." and ".." and a sanitized category that is not empty, the
    path is that very text. *)
Theorem outputPath_derivation (dirs : list jsstring) (s : State)
  (file categoryName : jsstring) (item : MenuItem) :
  cwd s = absolute dirs ->
  Forall (fun seg => is_plain seg = true) dirs ->
  endsWith file (lit ".json") = true ->
  let template :=
    lit "output/" ++ segment_of X file ++ lit "/"
    ++ formatFileName categoryName ++ lit "/"
    ++ formatFileName (name item) ++ lit ".png" in
  let path :=
    item_outputPath (Path.join [cwd s; lit "output"]) (segment_of X file)
      (formatFileName categoryName) item in
  file = strip_json file ++ lit ".json"
  /\ segment_of X file = String_toLowerCase X (strip_json file)
  /\ path = Path.normalize (under (cwd s) template)
  /\ (segment_of X file = [] \/ is_plain (segment_of X file) = true ->
      path
      = under (cwd s)
          (Path.unsplit
             (filter (fun seg : jsstring => seg <> [])
                [lit "output"; segment_of X file; formatFileName categoryName;
                 formatFileName (name item) ++ lit ".png"])))
  /\ (is_plain (segment_of X file) = true ->
      formatFileName categoryName <> [] ->
      path = under (cwd s) template).
Proof.
  intros Hcwd Hd Hjson template path.
  split; [exact (strip_json_split _ Hjson)|]. split; [reflexivity|].
  split; [|split].
  - unfold path, template. rewrite Hcwd.
    rewrite (Path_join_absolute dirs [lit "output"])
      by (exact Hd || discriminate
          || (constructor; [reflexivity | constructor])).
    unfold absolute at 1. rewrite item_outputPath_normalized. f_equal.
    change (Char.slash :: Path.unsplit (dirs ++ [lit "output"]))
      with (absolute (dirs ++ [lit "output"])).
    rewrite (app_comm_cons _ _ Char.slash).
    change (Char.slash :: Path.unsplit (dirs ++ [lit "output"]))
      with (absolute (dirs ++ [lit "output"])).
    rewrite (absolute_under dirs [lit "output"] Hd) by discriminate.
    rewrite <- under_app. reflexivity.
  - intros Hseg.
    exact (proj1 (item_outputPath_plain dirs s file categoryName item
                    Hcwd Hd Hseg)).
  - intros Hseg Hcat.
    apply (proj2 (item_outputPath_plain dirs s file categoryName item
                    Hcwd Hd (or_intror Hseg))).
    + apply is_plain_inv in Hseg. tauto.
    + exact Hcat.
Qed.

End Properties.

(** ** The theorems, on the small catalogue *)

(** The steak fails at the image stage, the soup after it succeeds. *)
Lemma failure_isolation_witness :
  exists s',
    for_of [Demo.steak; Demo.soup]
      (process_item Demo.services Demo.base (lit "dinner") (lit "Mains")
         (lit "mains")) Demo.boot = (Ok tt, s')
    /\ totalProcessed s' = 1 /\ totalFailed s' = 1
    /\ exists bytes,
         files s' !! lit "/work/output/dinner/mains/onion-soup.png"
         = Some (File bytes).
Proof.
  pose (sA := snd (stages Demo.services (lit "Mains")
                     (lit "/work/output/dinner/mains/steak-frites.png")
                     Demo.steak Demo.boot)).
  pose (sB := snd (stages Demo.services (lit "Mains")
                     (lit "/work/output/dinner/mains/onion-soup.png")
                     Demo.soup (bump_failed sA))).
  destruct (failure_isolation Demo.services Demo.base (lit "dinner")
              (lit "Mains") (lit "mains") Demo.steak Demo.soup Demo.boot
              sA sB
              (Error (lit "No image generated. Please try a different prompt.")))
    as (_ & _ & _ & _ & _ & _ & s' & E & _ & _ & _ & Z & W);
    try (vm_compute; reflexivity).
  exists s'. destruct (Z eq_refl eq_refl) as [P F].
  split; [exact E|]. split; [exact P|]. split; [exact F|]. exact W.
Defined.

(** The image of the steak is there already. *)
Lemma process_item_skips_existing_witness :
  exists s',
    process_item Demo.services Demo.base (lit "dinner") (lit "Mains")
      (lit "mains") Demo.steak Demo.boot_resumed = (Ok tt, s')
    /\ totalSkipped s' = 1
    /\ trace s' = [].
Proof.
  destruct (process_item_skips_existing Demo.services Demo.base (lit "dinner")
              (lit "Mains") (lit "mains") Demo.steak Demo.boot_resumed)
    as (s' & E & K & _ & _ & _ & T & _); [vm_compute; reflexivity|].
  exists s'. split; [exact E|]. split; [exact K | exact T].
Defined.

(** A cached prompt comes back with the state as it was; a new one is
    asked for. *)
Lemma generatePromptWithGPT_memoizes_witness :
  generatePromptWithGPT Demo.services Demo.steak (lit "Mains")
    Demo.boot_cached
  = (Ok (lit "photo of Steak Frites"), Demo.boot_cached)
  /\ exists s',
       generatePromptWithGPT Demo.services Demo.steak (lit "Mains") Demo.boot
       = (Ok (lit "photo of Steak Frites"), s').
Proof.
  destruct (generatePromptWithGPT_memoizes Demo.services Demo.steak
              (lit "Mains") Demo.boot_cached) as (Hit & _).
  destruct (generatePromptWithGPT_memoizes Demo.services Demo.steak
              (lit "Mains") Demo.boot) as (_ & Miss & _).
  split.
  - apply Hit. vm_compute. reflexivity.
  - apply (Miss 112 (lit "hoto of Steak Frites")
             {| OpenAI.choices :=
                  [{| OpenAI.content := Some (lit "photo of Steak Frites") |}] |}
             []); vm_compute; reflexivity.
Defined.

(** The first of the two images of the first candidate is the one saved,
    in a directory that the call makes with the one above it. *)
Lemma generateImage_first_match_witness :
  files Demo.boot !! lit "/work/output" = None
  /\ exists s',
       generateImage Demo.services
         {| prompt := lit "a steak";
            outputPath := lit "/work/output/dinner/steak.png";
            model := None |} Demo.boot = (Ok tt, s')
       /\ files s' !! lit "/work/output/dinner/steak.png"
          = Some (File (lit "aGk="))
       /\ stat (files s') (lit "/work/output/dinner") = Some Dir.
Proof.
  split; [vm_compute; reflexivity|].
  destruct (generateImage_first_match Demo.services
              {| prompt := lit "a steak";
                 outputPath := lit "/work/output/dinner/steak.png";
                 model := None |} Demo.boot Demo.illustrated)
    as (_ & First & _); try (vm_compute; reflexivity).
  destruct (First
              (Demo.candidate_of [Demo.text_part (lit "here it is");
                                  Demo.image_part (lit "aGk=");
                                  Demo.image_part (lit "eA==")])
              [Demo.candidate_of [Demo.image_part (lit "eQ==")]]
              {| GenAI.parts :=
                   Some [Demo.text_part (lit "here it is");
                         Demo.image_part (lit "aGk=");
                         Demo.image_part (lit "eA==")] |}
              [Demo.text_part (lit "here it is")]
              (Demo.image_part (lit "aGk="))
              [Demo.image_part (lit "eA==")]
              (lit "aGk=")) as (_ & _ & Saved);
    try reflexivity.
  { constructor; [reflexivity | constructor]. }
  destruct Saved as (s' & E & W & D & _); try reflexivity.
  - vm_compute. discriminate.
  - intros q bytes Hq. vm_compute in Hq.
    destruct Hq as [<-|[<-|[<-|[]]]]; vm_compute; discriminate.
  - exists s'. split; [exact E|]. split; [exact W | exact D].
Defined.

(** With its prompt in the cache the steak succeeds, and the pause
    follows the request for its image. *)
Lemma pause_after_success_witness :
  exists s',
    process_item Demo.services Demo.base (lit "dinner") (lit "Mains")
      (lit "mains") Demo.steak Demo.boot_cached = (Ok tt, s')
    /\ trace s'
       = [GenerateContent default_model (lit "photo of Steak Frites");
          SetTimeout 1000].
Proof.
  pose (s1 := snd (stages Demo.services (lit "Mains")
                     (lit "/work/output/dinner/mains/steak-frites.png")
                     Demo.steak Demo.boot_cached)).
  destruct (pause_after_success Demo.services Demo.base (lit "dinner")
              (lit "Mains") (lit "mains") Demo.steak Demo.boot_cached s1)
    as (s' & E & _ & T & _); try (vm_compute; reflexivity).
  exists s'. split; [exact E|]. rewrite T. vm_compute. reflexivity.
Defined.

(** C6 as the specification words it fails for an attempted item that
    fails.  The mystery box is not skipped, its prompt is refused, and the
    item ends with the request as its only event, without a pause; the
    steak is not skipped, gets its prompt, gets no image, and ends after
    its two requests, without a pause either. *)
Lemma pause_missing_after_failure :
  existsSync (item_outputPath Demo.base (lit "dinner") (lit "mains")
                Demo.mystery) Demo.boot = (Ok false, Demo.boot)
  /\ fst (generatePromptWithGPT Demo.services Demo.mystery (lit "Mains")
            Demo.boot)
     = Throw (Rejected (lit "429 Too Many Requests"))
  /\ (exists s',
        process_item Demo.services Demo.base (lit "dinner") (lit "Mains")
          (lit "mains") Demo.mystery Demo.boot = (Ok tt, s')
        /\ trace s' = [ChatCompletionsCreate (lit "Mains") Demo.mystery]
        /\ ~ In (SetTimeout 1000) (trace s'))
  /\ existsSync (item_outputPath Demo.base (lit "dinner") (lit "mains")
                   Demo.steak) Demo.boot = (Ok false, Demo.boot)
  /\ fst (generatePromptWithGPT Demo.services Demo.steak (lit "Mains")
            Demo.boot)
     = Ok (lit "photo of Steak Frites")
  /\ exists s',
       process_item Demo.services Demo.base (lit "dinner") (lit "Mains")
         (lit "mains") Demo.steak Demo.boot = (Ok tt, s')
       /\ trace s'
          = [ChatCompletionsCreate (lit "Mains") Demo.steak;
             GenerateContent default_model (lit "photo of Steak Frites")]
       /\ ~ In (SetTimeout 1000) (trace s').
Proof.
  split; [vm_compute; reflexivity|]. split; [vm_compute; reflexivity|].
  split.
  { eexists. split; [vm_compute; reflexivity|].
    split; [vm_compute; reflexivity|].
    vm_compute. intros [H|[]]. discriminate. }
  split; [vm_compute; reflexivity|]. split; [vm_compute; reflexivity|].
  eexists. split; [vm_compute; reflexivity|].
  split; [vm_compute; reflexivity|].
  vm_compute. intros [H|[H|[]]]; discriminate.
Qed.

(** The run with the broken second document. *)
Lemma fatal_exit_without_snapshot_witness :
  exit_status (fst (main Demo.services Demo.boot_broken)) <> 0
  /\ forall bytes,
       files (snd (main Demo.services Demo.boot_broken))
       !! lit "/work/prompts-cache.json" = Some (File bytes) ->
       files Demo.boot_broken !! lit "/work/prompts-cache.json"
       = Some (File bytes).
Proof.
  destruct (proj1 (fatal_exit_without_snapshot Demo.services)
              Demo.boot_broken 1 (snd (main Demo.services Demo.boot_broken)))
    as (_ & Status & _); [vm_compute; reflexivity|].
  split; [vm_compute; discriminate|].
  apply (proj1 (proj2 (fatal_exit_without_snapshot Demo.services))
           Demo.boot_broken 1 (snd (main Demo.services Demo.boot_broken))
           (Error (lit "Unexpected token"))
           (snd (for_of (input_files Demo.services Demo.boot_broken)
                   (process_file Demo.services (lit "/work/input")
                      (lit "/work/output"))
                   (set_counters 0 0 0 Demo.boot_broken))));
    vm_compute; reflexivity.
Defined.

(** The run over the one good document: two items, two counted. *)
Lemma counter_accounting_witness :
  exists report s',
    main Demo.services Demo.boot = (Returned report, s')
    /\ Total report = 2
    /\ enumerated_items Demo.services Demo.boot = 2.
Proof.
  pose (report := {| Generated := 1; Skipped := 0; Failed := 1; Total := 2 |}).
  pose (s' := snd (main Demo.services Demo.boot)).
  destruct (proj2 (proj2 (counter_accounting Demo.services))
              Demo.boot report s')
    as (_ & _ & _ & _ & N); [vm_compute; reflexivity|].
  exists report, s'. split; [vm_compute; reflexivity|].
  split; [reflexivity|]. rewrite <- N. reflexivity.
Defined.

(** The path of the steak. *)
Lemma outputPath_derivation_witness :
  item_outputPath (Path.join [cwd Demo.boot; lit "output"])
    (segment_of Demo.services (lit "Dinner.json")) (formatFileName (lit "Mains")) Demo.steak
  = lit "/work/output/dinner/mains/steak-frites.png".
Proof.
  destruct (outputPath_derivation Demo.services [lit "work"] Demo.boot
              (lit "Dinner.json") (lit "Mains") Demo.steak)
    as (_ & _ & _ & _ & Template).
  - reflexivity.
  - constructor; [reflexivity | constructor].
  - vm_compute. reflexivity.
  - rewrite Template by (vm_compute; reflexivity || discriminate).
    vm_compute. reflexivity.
Defined.

(** C4 as the specification words it fails for a category whose name has
    no letter, digit or underscore: its sanitized name is empty, and the
    image goes straight into the directory of the segment, not to the
    path with an empty component that the pattern gives.  Nor does the
    segment go through the sanitizer: the blank of "My Menu.json" stays in
    the path. *)
Lemma outputPath_empty_category :
  formatFileName (lit "(&)") = []
  /\ item_outputPath (Path.join [cwd Demo.boot; lit "output"])
       (segment_of Demo.services (lit "Dinner.json"))
       (formatFileName (lit "(&)")) Demo.steak
     = lit "/work/output/dinner/steak-frites.png"
  /\ item_outputPath (Path.join [cwd Demo.boot; lit "output"])
       (segment_of Demo.services (lit "Dinner.json"))
       (formatFileName (lit "(&)")) Demo.steak
     <> under (cwd Demo.boot)
          (lit "output/" ++ segment_of Demo.services (lit "Dinner.json")
           ++ lit "/" ++ formatFileName (lit "(&)") ++ lit "/"
           ++ formatFileName (name Demo.steak) ++ lit ".png")
  /\ item_outputPath (Path.join [cwd Demo.boot; lit "output"])
       (segment_of Demo.services (lit "My Menu.json"))
       (formatFileName (lit "Mains")) Demo.steak
     = lit "/work/output/my menu/mains/steak-frites.png"
  /\ formatFileName (segment_of Demo.services (lit "My Menu.json"))
     = lit "my-menu".
Proof.
  split; [vm_compute; reflexivity|]. split; [vm_compute; reflexivity|].
  split; [vm_compute; discriminate|].
  split; vm_compute; reflexivity.
Qed.

(** * More properties of the program *)

(** ** [formatFileName] *)

Lemma word_chars_replace_runs p b s :
  (forall c, p c = true -> Char.is_word c = false) ->
  word_chars (replace_runs_from p b s) = word_chars s.
Proof.
  intros Hp. revert b. induction s as [|c s IH]; intros b; [reflexivity|].
  cbn [replace_runs_from]. destruct (p c) eqn:E.
  - cbn [word_chars]. rewrite (Hp c E).
    destruct b; [apply IH|]. cbn [word_chars].
    change (Char.is_word Char.hyphen) with false. apply IH.
  - cbn [word_chars]. rewrite IH. reflexivity.
Qed.

Lemma word_chars_replace_each p s :
  (forall c, p c = true -> Char.is_word c = false) ->
  word_chars (replace_each p s) = word_chars s.
Proof.
  intros Hp. induction s as [|c s IH]; [reflexivity|].
  cbn [replace_each map word_chars].
  fold (replace_each p s). rewrite IH. destruct (p c) eqn:E; [|reflexivity].
  rewrite (Hp c E). reflexivity.
Qed.

Lemma word_chars_strip b s :
  word_chars (strip_edges_from b s) = word_chars s.
Proof.
  revert b. induction s as [|c s IH]; intros b; [reflexivity|].
  cbn [strip_edges_from].
  destruct (c =? Char.hyphen) eqn:E; cbn [andb].
  - apply N.eqb_eq in E. subst c.
    destruct (b || match s with [] => true | _ :: _ => false end);
      cbn [word_chars]; change (Char.is_word Char.hyphen) with false;
      apply IH.
  - cbn [word_chars]. rewrite IH. reflexivity.
Qed.

Lemma to_lower_word c : Char.is_word (Char.to_lower c) = Char.is_word c.
Proof. char_cases. Qed.

Lemma word_chars_toLowerCase s :
  word_chars (toLowerCase s) = toLowerCase (word_chars s).
Proof.
  induction s as [|c s IH]; [reflexivity|].
  cbn [toLowerCase map word_chars]. rewrite to_lower_word.
  fold (toLowerCase s). rewrite IH.
  destruct (Char.is_word c); reflexivity.
Qed.

Lemma word_chars_formatFileName (x : jsstring) :
  word_chars (formatFileName x) = toLowerCase (word_chars x).
Proof.
  unfold formatFileName, formatFileName_cased, replace_runs, strip_edges.
  rewrite word_chars_toLowerCase. f_equal.
  rewrite word_chars_strip.
  rewrite word_chars_replace_runs by (intros c Hc; clear -Hc; char_cases).
  rewrite !word_chars_replace_each
    by (intros c Hc; clear -Hc; char_cases).
  apply word_chars_replace_runs. intros c Hc. clear -Hc. char_cases.
Qed.

(** X1.  The sanitizer neither drops nor reorders nor invents a character
    of [A-Za-z0-9_], that is a Basic Latin letter, an ASCII digit or an
    underscore: those of the output are those of the input, in lower
    case. *)
Theorem formatFileName_word_chars (x : jsstring) :
  word_chars (formatFileName x) = toLowerCase (word_chars x).
Proof. exact (word_chars_formatFileName x). Qed.

Lemma word_chars_nil_hyphens s :
  forallb safe_char s = true -> word_chars s = [] ->
  forallb (fun c => c =? Char.hyphen) s = true.
Proof.
  induction s as [|c s IH]; [reflexivity|]. cbn [forallb word_chars].
  intros H. apply andb_true_iff in H as [Hc Hs].
  destruct (Char.is_word c) eqn:E; [discriminate|].
  intros Hw. rewrite (IH Hs Hw), andb_true_r. clear -Hc E. char_cases.
Qed.

(** X2.  The sanitized name is empty exactly when the name holds no
    character of [A-Za-z0-9_]: no Basic Latin letter, no ASCII digit and
    no underscore.  Letters of other scripts do not count: a name written
    in Cyrillic letters only, U+0411 U+043E U+0440 U+0449, sanitizes to the
    empty text. *)
Theorem formatFileName_empty_iff :
  (forall x : jsstring, formatFileName x = [] <-> word_chars x = [])
  /\ word_chars [1041; 1086; 1088; 1097] = []
  /\ formatFileName [1041; 1086; 1088; 1097] = [].
Proof.
  split; [|split; reflexivity]. intros x.
  pose proof (word_chars_formatFileName x) as W. split; intros H.
  - rewrite H in W. cbn in W. destruct (word_chars x); [reflexivity|].
    discriminate.
  - rewrite H in W. cbn in W.
    pose proof (formatFileName_sanitized x) as S. unfold sanitized in S.
    apply andb_true_iff in S as [S _]. apply andb_true_iff in S as [S _].
    apply andb_true_iff in S as [Hsafe Hstart].
    pose proof (word_chars_nil_hyphens _ Hsafe W) as Hall.
    destruct (formatFileName x) as [|c s]; [reflexivity|].
    cbn [forallb] in Hall. apply andb_true_iff in Hall as [Hc _].
    cbn [starts_with_hyphen] in Hstart. rewrite Hc in Hstart. discriminate.
Qed.

Lemma replace_runs_from_length p b s :
  (length (replace_runs_from p b s) <= length s)%nat.
Proof.
  revert b. induction s as [|c s IH]; intros b; [reflexivity|].
  pose proof (IH true). pose proof (IH false).
  cbn [replace_runs_from]. destruct (p c); [destruct b|]; cbn [length]; lia.
Qed.

Lemma strip_edges_from_length b s :
  (length (strip_edges_from b s) <= length s)%nat.
Proof.
  revert b. induction s as [|c s IH]; intros b; [reflexivity|].
  cbn [strip_edges_from]. specialize (IH false).
  destruct ((c =? Char.hyphen)
            && (b || match s with [] => true | _ :: _ => false end));
    cbn [length]; lia.
Qed.

(** X3.  The sanitized name is never longer than the name. *)
Theorem formatFileName_length (x : jsstring) :
  (length (formatFileName x) <= length x)%nat.
Proof.
  unfold formatFileName, formatFileName_cased, replace_runs, strip_edges,
    toLowerCase, replace_each.
  rewrite length_map.
  etransitivity; [apply strip_edges_from_length|].
  etransitivity; [apply replace_runs_from_length|].
  rewrite !length_map. apply replace_runs_from_length.
Qed.

Lemma replace_runs_from_lower p b s :
  (forall c, p (Char.to_lower c) = p c) ->
  replace_runs_from p b (toLowerCase s)
  = toLowerCase (replace_runs_from p b s).
Proof.
  intros Hp. revert b. induction s as [|c s IH]; intros b; [reflexivity|].
  cbn [toLowerCase map replace_runs_from]. fold (toLowerCase s).
  rewrite Hp. destruct (p c); [destruct b|]; cbn [toLowerCase map];
    rewrite IH; reflexivity.
Qed.

Lemma replace_each_lower p s :
  (forall c, p (Char.to_lower c) = p c) ->
  replace_each p (toLowerCase s) = toLowerCase (replace_each p s).
Proof.
  intros Hp. induction s as [|c s IH]; [reflexivity|].
  cbn [toLowerCase map replace_each]. fold (toLowerCase s).
  fold (replace_each p (toLowerCase s)). fold (replace_each p s).
  fold (toLowerCase (replace_each p s)).
  rewrite Hp, IH. destruct (p c); reflexivity.
Qed.

Lemma strip_edges_from_lower b s :
  strip_edges_from b (toLowerCase s) = toLowerCase (strip_edges_from b s).
Proof.
  revert b. induction s as [|c s IH]; intros b; [reflexivity|].
  cbn [toLowerCase map strip_edges_from]. fold (toLowerCase s).
  rewrite to_lower_hyphen.
  replace (match toLowerCase s with [] => true | _ :: _ => false end)
    with (match s with [] => true | _ :: _ => false end)
    by (destruct s; reflexivity).
  destruct ((c =? Char.hyphen)
            && (b || match s with [] => true | _ :: _ => false end));
    cbn [toLowerCase map]; rewrite IH; reflexivity.
Qed.

Lemma toLowerCase_twice s : toLowerCase (toLowerCase s) = toLowerCase s.
Proof.
  induction s as [|c s IH]; [reflexivity|]. cbn [toLowerCase map].
  fold (toLowerCase s). fold (toLowerCase (toLowerCase s)). rewrite IH.
  f_equal. char_cases.
Qed.

(** X4.  Names that differ only in the case of their Basic Latin letters
    get the same sanitized name, and so the same file. *)
Theorem formatFileName_ignores_case (x : jsstring) :
  formatFileName (toLowerCase x) = formatFileName x.
Proof.
  unfold formatFileName, formatFileName_cased, replace_runs, strip_edges.
  rewrite (replace_runs_from_lower Char.is_space) by (intros c; char_cases).
  rewrite !replace_each_lower by (intros c; char_cases).
  rewrite replace_runs_from_lower by (intros c; char_cases).
  rewrite strip_edges_from_lower. apply toLowerCase_twice.
Qed.

(** ** [getCacheKey] *)

(** X5.  Keys tell apart what they should in a catalogue: one item name
    in two categories gives two keys, and two item names in one category
    give two keys.  They do not tell apart every pair: a category that
    holds "::" can borrow the key of another. *)
Theorem getCacheKey_separates :
  (forall itemName category category',
     getCacheKey itemName category = getCacheKey itemName category' ->
     category = category')
  /\ (forall itemName itemName' category,
        getCacheKey itemName category = getCacheKey itemName' category ->
        itemName = itemName')
  /\ exists itemName category itemName' category',
       category <> category'
       /\ getCacheKey itemName category = getCacheKey itemName' category'.
Proof.
  unfold getCacheKey. split; [|split].
  - intros n c c' H. rewrite !app_assoc in H.
    apply app_inv_tail in H. apply app_inv_tail in H. exact H.
  - intros n n' c H. apply app_inv_head in H. apply app_inv_head in H.
    exact H.
  - exists (lit "Soup"), (lit "Lunch::Hot"), (lit "Hot::Soup"), (lit "Lunch").
    split; [discriminate | reflexivity].
Qed.

(** X6.  With no colon in the category names, a key gives back its
    category and its item name. *)
Theorem getCacheKey_injective
  (itemName itemName' category category' : jsstring) :
  colon_free category = true ->
  colon_free category' = true ->
  getCacheKey itemName category = getCacheKey itemName' category' ->
  category = category' /\ itemName = itemName'.
Proof.
  unfold getCacheKey, colon_free. revert category'.
  induction category as [|a c IH]; intros [|a' c'] Hc Hc' H.
  - split; [reflexivity|]. cbn [app] in H. apply app_inv_head in H. exact H.
  - cbn in H. injection H as <- _. cbn in Hc'. discriminate.
  - cbn in H. injection H as -> _. cbn in Hc. discriminate.
  - cbn [app] in H. injection H as <- H.
    cbn [forallb] in Hc, Hc'.
    apply andb_true_iff in Hc as [_ Hc]. apply andb_true_iff in Hc' as [_ Hc'].
    destruct (IH c' Hc Hc' H) as [-> ->]. split; reflexivity.
Qed.

Section Extras.

Variable X : Externals.

(** ** The start of [main] *)

(** X7.  A run that lacks a credential, or the input directory, or any
    ".json" name in it, ends with status 1 and has done nothing: no
    request, no file written, the state as it was. *)
Theorem main_setup_failure (s : State) :
  truthy (GOOGLE_API_KEY s) = false
  \/ truthy (OPENAI_API_KEY s) = false
  \/ files s !! Path.join [cwd s; lit "input"] = None
  \/ input_files X s = [] ->
  main X s = (Exited 1, s).
Proof.
  intros H. unfold main, main_try. unfold bind at 1. unfold gets at 1.
  destruct (truthy (GOOGLE_API_KEY s)) eqn:G; cbn [negb]; [|reflexivity].
  unfold bind at 1. unfold gets at 1.
  destruct (truthy (OPENAI_API_KEY s)) eqn:O; cbn [negb]; [|reflexivity].
  unfold bind at 1. unfold gets at 1.
  unfold bind at 1. unfold existsSync, gets at 1.
  rewrite input_path_stat.
  destruct (files s !! Path.join [cwd s; lit "input"]) as [n|] eqn:D;
    cbn [negb]; [|reflexivity].
  unfold bind at 1. unfold readdirSync. unfold bind at 1.
  destruct (fs_guard X (Path.join [cwd s; lit "input"]) s) as [[[]|e] s1]
    eqn:F; apply fs_guard_state in F; subst s1; [|reflexivity].
  destruct H as [H|[H|[H|H]]]; try discriminate.
  unfold input_files in H.
  destruct (readdir_names X (files s) (Path.join [cwd s; lit "input"]))
    as [e|names]; cbn [lift]; [reflexivity|].
  unfold ret at 1. rewrite H. reflexivity.
Qed.

(** ** Stage 2 and the files *)

Lemma generateImage_changes (options : GenerateImageOptions)
  (r : result unit) (s s' : State) :
  generateImage X options s = (r, s') ->
  (truthy (GOOGLE_API_KEY s) = false -> s' = s /\ exists e, r = Throw e)
  /\ (truthy (GOOGLE_API_KEY s) = true ->
      trace s'
      = trace s
        ++ [GenerateContent (default default_model (model options))
              (prompt options)])
  /\ promptCache s' = promptCache s
  /\ totalProcessed s' = totalProcessed s
  /\ totalSkipped s' = totalSkipped s
  /\ totalFailed s' = totalFailed s
  /\ (forall k bytes,
        files s' !! k = Some (File bytes) ->
        k = fs_key (outputPath options) \/ files s !! k = Some (File bytes))
  /\ (forall e, r = Throw e ->
      forall k bytes,
        files s' !! k = Some (File bytes) ->
        files s !! k = Some (File bytes)
        \/ (k = fs_key (outputPath options)
            /\ exists imageData n,
                 write_fault X (trace s') (outputPath options)
                   (Buffer_from_base64 X imageData) = Some (e, n)
                 /\ bytes = take n (Buffer_from_base64 X imageData))).
Proof.
  intros H.
  destruct (generateImage_staged X _ _ _ _ H)
    as ((_ & _ & _ & P & K & F & _) & Hkept & Hcache).
  apply generateImage_inv in H as [(Key & -> & e & ->)|(Key & H)].
  { split; [intros _; eauto|]. split; [congruence|].
    repeat (split; [auto|]). intros e' _ k bytes Hk. left. exact Hk. }
  split; [congruence|].
  assert (T : trace s'
              = trace s
                ++ [GenerateContent (default default_model (model options))
                      (prompt options)]
              /\ forall e, r = Throw e ->
                 forall k bytes,
                   files s' !! k = Some (File bytes) ->
                   files s !! k = Some (File bytes)
                   \/ (k = fs_key (outputPath options)
                       /\ exists imageData n,
                            write_fault X (trace s') (outputPath options)
                              (Buffer_from_base64 X imageData) = Some (e, n)
                            /\ bytes = take n (Buffer_from_base64 X imageData))).
  { destruct H as [[-> [e ->]]|[d H]].
    - split; [reflexivity|]. intros e' _ k bytes Hk. left. exact Hk.
    - apply save_image_inv in H
        as (f1 & Hsub & Hf1 & [[-> [e ->]]
                              |(_ & [(-> & _ & ->)|(e & n & -> & Hw & ->)])]).
      + split; [reflexivity|]. intros e' _ k bytes Hk. left.
        cbn [files set_files emit] in Hk.
        destruct (Hf1 k) as [E|(_ & E & _)]; rewrite E in Hk;
          [exact Hk | discriminate].
      + split; [reflexivity | discriminate].
      + split; [reflexivity|]. intros e' [= <-] k bytes Hk.
        cbn [files set_files emit trace] in Hk |- *.
        destruct (decide (fs_key (outputPath options) = k)) as [<-|Hne].
        * rewrite lookup_insert_eq in Hk. injection Hk as <-. right.
          split; [reflexivity|]. exists d, n. split; [exact Hw | reflexivity].
        * rewrite lookup_insert_ne in Hk by exact Hne. left.
          destruct (Hf1 k) as [E|(_ & E & _)]; rewrite E in Hk;
            [exact Hk | discriminate]. }
  destruct T as [T Hthrow].
  split; [intros _; exact T|]. repeat (split; [auto|]). exact Hthrow.
Qed.


(** ** The ways for the [try] block of [main] to end *)

(** Before the loops, with the state as it was; in the loops or at the
    opening of the snapshot, with the state that the loops left; with a
    snapshot cut short; or after the snapshot. *)
Lemma main_try_cases r s s' :
  main_try X s = (r, s') ->
  (s' = s /\ exists e, r = Throw e)
  \/ exists r1 s1,
       for_of (input_files X s)
         (process_file X (Path.join [cwd s; lit "input"])
            (Path.join [cwd s; lit "output"])) (set_counters 0 0 0 s)
       = (r1, s1)
       /\ ((s' = s1 /\ exists e, r = Throw e)
           \/ (r1 = Ok tt
               /\ exists e n,
                    write_fault X (trace s1)
                      (Path.join [cwd s; lit "prompts-cache.json"])
                      (JSON_stringify X (promptCache s1)) = Some (e, n)
                    /\ s' = set_files
                              (<[Path.join [cwd s; lit "prompts-cache.json"] :=
                                   File (take n (JSON_stringify X
                                                   (promptCache s1)))]>
                                 (files s1)) s1
                    /\ r = Throw e)
           \/ (r1 = Ok tt
               /\ s' = set_files
                         (<[Path.join [cwd s; lit "prompts-cache.json"] :=
                              File (JSON_stringify X (promptCache s1))]>
                            (files s1)) s1
               /\ r = Ok {| Generated := totalProcessed s1;
                            Skipped := totalSkipped s1;
                            Failed := totalFailed s1;
                            Total := totalProcessed s1 + totalSkipped s1
                                     + totalFailed s1 |})).
Proof.
  unfold main_try. unfold bind at 1. unfold gets at 1.
  destruct (truthy (GOOGLE_API_KEY s)); cbn [negb];
    [|intros [= <- <-]; left; eauto].
  unfold bind at 1. unfold gets at 1.
  destruct (truthy (OPENAI_API_KEY s)); cbn [negb];
    [|intros [= <- <-]; left; eauto].
  unfold bind at 1. unfold gets at 1.
  unfold bind at 1. unfold existsSync, gets at 1.
  rewrite input_path_stat.
  destruct (files s !! Path.join [cwd s; lit "input"]) as [n|]; cbn [negb];
    [|intros [= <- <-]; left; eauto].
  unfold bind at 1. unfold readdirSync. unfold bind at 1.
  destruct (fs_guard X (Path.join [cwd s; lit "input"]) s) as [[[]|e] s1]
    eqn:G; apply fs_guard_state in G; subst s1;
    [|intros [= <- <-]; left; eauto].
  unfold input_files.
  destruct (readdir_names X (files s) (Path.join [cwd s; lit "input"]))
    as [e|names]; cbn [lift];
    [intros [= <- <-]; left; eauto|].
  unfold ret at 1.
  destruct (filter (fun file => endsWith file (lit ".json") = true) names)
    as [|file others];
    [intros [= <- <-]; left; eauto|].
  unfold bind at 1. unfold modify at 1. unfold bind at 1.
  destruct (for_of (file :: others)
              (process_file X (Path.join [cwd s; lit "input"])
                 (Path.join [cwd s; lit "output"])) (set_counters 0 0 0 s))
    as [r1 s1] eqn:L.
  intros H. right. exists r1, s1. split; [reflexivity|]. revert H.
  destruct r1 as [[]|e]; [|intros [= <- <-]; left; eauto].
  unfold bind at 1. unfold gets at 1.
  unfold bind at 1.
  pose proof (json_path_key (cwd s) (lit "prompts-cache.json") eq_refl) as Hkey.
  destruct (writeFileSync X (Path.join [cwd s; lit "prompts-cache.json"])
              (JSON_stringify X (promptCache s1)) s1) as [r2 s2] eqn:W.
  apply writeFileSync_inv in W
    as [[-> [e ->]]
       |(_ & _ & _ & _ & _ & [(-> & _ & ->)|(e & m & -> & Hw & ->)])];
    rewrite ?Hkey.
  - intros [= <- <-]. left. eauto.
  - unfold bind, gets, ret. intros [= <- <-]. right. right. auto.
  - intros [= <- <-]. right. left. split; [reflexivity|]. exists e, m. auto.
Qed.

(** ** What holds from item to item holds for the run *)

Section Run.

Variable R : State -> State -> Prop.
Hypothesis R_refl : forall s, R s s.
Hypothesis R_trans : forall a b c, R a b -> R b c -> R a c.
Hypothesis R_item :
  forall base seg cat fcat item r s s',
    process_item X base seg cat fcat item s = (r, s') -> R s s'.

Lemma for_of_rel {A} (body : A -> M unit) :
  (forall a r s s', body a s = (r, s') -> R s s') ->
  forall l r s s', for_of l body s = (r, s') -> R s s'.
Proof.
  intros Hbody l. induction l as [|a l IH]; intros r s s'; cbn [for_of].
  - intros [= _ <-]. apply R_refl.
  - unfold bind. destruct (body a s) as [[[]|e] s1] eqn:E;
      apply Hbody in E.
    + intros H. apply IH in H. exact (R_trans _ _ _ E H).
    + intros [= _ <-]. exact E.
Qed.

Lemma process_category_rel base seg entry r s s' :
  process_category X base seg entry s = (r, s') -> R s s'.
Proof.
  destruct entry as [categoryName category]. cbn [process_category].
  apply for_of_rel. intros item. apply R_item.
Qed.

Lemma process_file_rel inputDir base file r s s' :
  process_file X inputDir base file s = (r, s') -> R s s'.
Proof.
  unfold process_file. unfold bind at 1.
  destruct (readFileSync X (Path.join [inputDir; file]) s) as [[bytes|e] s1]
    eqn:E; apply readFileSync_inv in E as [-> _].
  2:{ intros [= _ <-]. apply R_refl. }
  unfold bind at 1.
  destruct (JSON_parse X bytes) as [e|menuData]; cbn [lift].
  { intros [= _ <-]. apply R_refl. }
  unfold ret at 1. apply for_of_rel. intros entry.
  apply process_category_rel.
Qed.

(** The same, for a relation that holds from item to item. *)
Lemma main_try_rel r s s' :
  main_try X s = (r, s') ->
  (s' = s /\ exists e, r = Throw e)
  \/ exists s1,
       R (set_counters 0 0 0 s) s1
       /\ ((s' = s1 /\ exists e, r = Throw e)
           \/ (exists e n,
                 write_fault X (trace s1)
                   (Path.join [cwd s; lit "prompts-cache.json"])
                   (JSON_stringify X (promptCache s1)) = Some (e, n)
                 /\ s' = set_files
                           (<[Path.join [cwd s; lit "prompts-cache.json"] :=
                                File (take n (JSON_stringify X
                                                (promptCache s1)))]>
                              (files s1)) s1
                 /\ r = Throw e)
           \/ (s' = set_files
                      (<[Path.join [cwd s; lit "prompts-cache.json"] :=
                           File (JSON_stringify X (promptCache s1))]>
                         (files s1)) s1
               /\ r = Ok {| Generated := totalProcessed s1;
                            Skipped := totalSkipped s1;
                            Failed := totalFailed s1;
                            Total := totalProcessed s1 + totalSkipped s1
                                     + totalFailed s1 |})).
Proof.
  intros H. apply main_try_cases in H as [H|(r1 & s1 & L & H)];
    [left; exact H|].
  right. exists s1.
  split; [exact (for_of_rel _ (process_file_rel _ _) _ _ _ _ L)|].
  destruct H as [H|[(_ & H)|(_ & H)]]; [left | right; left | right; right];
    exact H.
Qed.

End Run.

(** ** The prompt cache over a run *)

Lemma Map_get_set_ne k k' v m :
  k <> k' -> Map_get k' (Map_set k v m) = Map_get k' m.
Proof.
  intros N. induction m as [|[k0 v0] m IH]; cbn [Map_set Map_get].
  - rewrite bool_decide_eq_false_2; [reflexivity | exact N].
  - destruct (bool_decide (k0 = k)) eqn:E; cbn [Map_get].
    + apply bool_decide_eq_true_1 in E. subst k0.
      rewrite bool_decide_eq_false_2 by exact N. reflexivity.
    + destruct (bool_decide (k0 = k')); [reflexivity | exact IH].
Qed.

Lemma cache_grown_refl s : cache_grown s s.
Proof.
  exists []. rewrite app_nil_r. split; [reflexivity|]. split; auto.
Qed.

Lemma cache_grown_trans a b c :
  cache_grown a b -> cache_grown b c -> cache_grown a c.
Proof.
  intros (t1 & T1 & K1 & N1) (t2 & T2 & K2 & N2). exists (t1 ++ t2).
  split; [rewrite T2, T1, app_assoc; reflexivity|]. split; [auto|].
  intros k v H. destruct (N2 k v H) as [H'|(Hv & cat & item & -> & Hin)].
  - destruct (N1 k v H') as [?|(Hv & cat & item & -> & Hin)]; [auto|].
    right. split; [exact Hv|]. exists cat, item.
    split; [reflexivity | apply in_or_app; auto].
  - right. split; [exact Hv|]. exists cat, item.
    split; [reflexivity | apply in_or_app; auto].
Qed.

(** A step that leaves the cache alone. *)
Lemma cache_grown_same s s' t :
  trace s' = trace s ++ t -> promptCache s' = promptCache s ->
  cache_grown s s'.
Proof.
  intros T C. exists t. split; [exact T|]. rewrite C. split; auto.
Qed.

Lemma generatePromptWithGPT_grown item category r s s' :
  generatePromptWithGPT X item category s = (r, s') -> cache_grown s s'.
Proof.
  destruct (Map_get (getCacheKey (name item) category) (promptCache s))
    as [v|] eqn:Hget.
  - rewrite (generatePromptWithGPT_hit X _ _ _ _ Hget). intros [= _ <-].
    apply cache_grown_refl.
  - rewrite (generatePromptWithGPT_miss X _ _ _ Hget). cbv zeta.
    assert (Hc : cache_grown s (emit (ChatCompletionsCreate category item) s))
      by (apply (cache_grown_same _ _ [ChatCompletionsCreate category item]);
          reflexivity).
    destruct (chat_completions_create X (trace s) category item)
      as [e|response]; [intros [= _ <-]; exact Hc|].
    destruct (OpenAI.choices response) as [|choice others];
      [intros [= _ <-]; exact Hc|].
    destruct (OpenAI.content choice) as [[|c t]|];
      try (intros [= _ <-]; exact Hc).
    intros [= _ <-]. exists [ChatCompletionsCreate category item].
    split; [reflexivity|]. cbn [promptCache set_promptCache emit]. split.
    + intros k v H.
      destruct (decide (getCacheKey (name item) category = k)) as [<-|N];
        [congruence|].
      rewrite (Map_get_set_ne _ _ _ _ N). exact H.
    + intros k v H.
      destruct (decide (getCacheKey (name item) category = k)) as [<-|N].
      * rewrite Map_get_set in H. injection H as <-. right.
        split; [discriminate|]. exists category, item.
        split; [reflexivity | left; reflexivity].
      * rewrite (Map_get_set_ne _ _ _ _ N) in H. left. exact H.
Qed.

Lemma staged_grown s s' :
  staged s s' -> promptCache s' = promptCache s -> cache_grown s s'.
Proof.
  intros (_ & _ & _ & _ & _ & _ & t & T & _) C.
  exact (cache_grown_same _ _ _ T C).
Qed.

Lemma stages_grown categoryName p item r s s' :
  stages X categoryName p item s = (r, s') -> cache_grown s s'.
Proof.
  unfold stages, bind.
  destruct (generatePromptWithGPT X item categoryName s) as [[v|e] s1] eqn:E;
    apply generatePromptWithGPT_grown in E.
  - intros H. apply (generateImage_staged X) in H as (H1 & _ & H2).
    exact (cache_grown_trans _ _ _ E (staged_grown _ _ H1 H2)).
  - intros [= _ <-]. exact E.
Qed.

Lemma process_item_grown base seg cat fcat item r s s' :
  process_item X base seg cat fcat item s = (r, s') -> cache_grown s s'.
Proof.
  rewrite (process_item_cases X).
  destruct (files s !! item_outputPath base seg fcat item).
  - intros [= _ <-]. apply (cache_grown_same _ _ []);
      [rewrite app_nil_r|]; reflexivity.
  - destruct (stages X cat (item_outputPath base seg fcat item) item s)
      as [[[]|e] s1] eqn:E; apply stages_grown in E; intros [= _ <-];
      refine (cache_grown_trans _ _ _ E _).
    + apply (cache_grown_same _ _ [SetTimeout 1000]); reflexivity.
    + apply (cache_grown_same _ _ []); [rewrite app_nil_r|]; reflexivity.
Qed.

(** X9.  The prompt cache over a run of [main], however the run ends: no
    prompt that was cached is lost or changed, and every prompt that is new
    is a non-empty text under the key of a category and an item for which
    the run asked the chat service. *)
Theorem main_cache_provenance (e : Ending) (s s' : State) :
  main X s = (e, s') ->
  (forall k v,
     Map_get k (promptCache s) = Some v ->
     Map_get k (promptCache s') = Some v)
  /\ (forall k v,
        Map_get k (promptCache s) = None ->
        Map_get k (promptCache s') = Some v ->
        v <> []
        /\ exists category item,
             k = getCacheKey (name item) category
             /\ In (ChatCompletionsCreate category item) (trace s')).
Proof.
  intros H.
  assert (G : cache_grown s s').
  { revert H. unfold main.
    destruct (main_try X s) as [r s1] eqn:E.
    intros H. assert (s1 = s') by (destruct r; congruence). subst s1.
    destruct (main_try_rel cache_grown cache_grown_refl cache_grown_trans
                process_item_grown _ _ _ E)
      as [[-> _]|(s1 & G & [[-> _]|[(e0 & n & _ & -> & _)|[-> _]]])].
    - apply cache_grown_refl.
    - exact G.
    - exact G.
    - exact G. }
  destruct G as (t & T & K & N). split; [exact K|].
  intros k v H0 H1. destruct (N k v H1) as [?|(Hv & cat & item & -> & Hin)];
    [congruence|].
  split; [exact Hv|]. exists cat, item. split; [reflexivity|].
  rewrite T. apply in_or_app. auto.
Qed.

(** ** The file tree over a run *)

Lemma save_image_grows p d r s s' :
  files s !! fs_key p = None ->
  save_image X p d s = (r, s') -> files s ⊆ files s'.
Proof.
  intros Hp H.
  apply save_image_inv in H
    as (f1 & Hsub & _ & [[-> _]|(_ & [(_ & _ & ->)|(e & n & _ & _ & ->)])]);
    cbn [files set_files].
  - exact Hsub.
  - apply insert_subseteq_r; assumption.
  - apply insert_subseteq_r; assumption.
Qed.

Lemma generateImage_grows options r s s' :
  files s !! fs_key (outputPath options) = None ->
  generateImage X options s = (r, s') -> files s ⊆ files s'.
Proof.
  intros Hp H.
  apply generateImage_inv in H as [(_ & -> & _)|(_ & [[-> _]|[d H]])].
  - reflexivity.
  - reflexivity.
  - exact (save_image_grows _ _ _ (emit _ s) _ Hp H).
Qed.

Lemma stages_grows categoryName p item r s s' :
  files s !! fs_key p = None ->
  stages X categoryName p item s = (r, s') -> files s ⊆ files s'.
Proof.
  intros Hp. unfold stages, bind.
  destruct (generatePromptWithGPT X item categoryName s) as [[v|e] s0] eqn:E;
    apply (generatePromptWithGPT_staged X) in E as [_ E].
  - intros H. apply generateImage_grows in H.
    + rewrite <- E. exact H.
    + cbn [outputPath]. rewrite E. exact Hp.
  - intros [= _ <-]. rewrite E. reflexivity.
Qed.

Lemma process_item_grows base seg cat fcat item r s s' :
  process_item X base seg cat fcat item s = (r, s') -> files s ⊆ files s'.
Proof.
  rewrite (process_item_cases X).
  destruct (files s !! item_outputPath base seg fcat item) eqn:Hp.
  - intros [= _ <-]. reflexivity.
  - rewrite <- item_outputPath_key in Hp.
    destruct (stages X cat (item_outputPath base seg fcat item) item s)
      as [[[]|e] s1] eqn:E; apply (stages_grows _ _ _ _ _ _ Hp) in E;
      intros [= _ <-]; exact E.
Qed.

(** X10.  A run of [main] never removes or replaces what was in the file
    tree when it started: every file and directory is there afterwards as
    it was, [prompts-cache.json] in the working directory apart.  That one
    too is as it was when the run ends with status 1, unless the run came
    to the write of the snapshot and that write was cut short: then the
    tree is the one that the loops left, which holds all that was there
    at the start, with the bytes of the snapshot that got through at
    [prompts-cache.json]. *)
Theorem main_never_overwrites (e : Ending) (s s' : State) :
  main X s = (e, s') ->
  (forall k n,
     files s !! k = Some n ->
     k <> Path.join [cwd s; lit "prompts-cache.json"] ->
     files s' !! k = Some n)
  /\ (forall code,
        e = Exited code ->
        files s ⊆ files s'
        \/ exists s1 err n,
             files s ⊆ files s1
             /\ write_fault X (trace s1)
                  (Path.join [cwd s; lit "prompts-cache.json"])
                  (JSON_stringify X (promptCache s1)) = Some (err, n)
             /\ files s'
                = <[Path.join [cwd s; lit "prompts-cache.json"] :=
                      File (take n (JSON_stringify X (promptCache s1)))]>
                    (files s1)).
Proof.
  unfold main. destruct (main_try X s) as [r s1] eqn:E. intros H.
  assert (s1 = s') by (destruct r; congruence). subst s1.
  assert (He : e = match r with
                   | Ok report => Returned report
                   | Throw _ => Exited 1
                   end) by (destruct r; congruence).
  clear H.
  destruct (main_try_rel (fun a b => files a ⊆ files b)
              (fun a => reflexivity (files a))
              (fun a b c (H1 : files a ⊆ files b) (H2 : files b ⊆ files c) =>
                 transitivity H1 H2)
              process_item_grows _ _ _ E)
    as [[-> _]|(s1 & G & [[-> _]|[(err & n & Hw & -> & _)|[-> ->]]])].
  - split; [auto | left; reflexivity].
  - cbn [set_counters files] in G. split; [|intros _ _; left; exact G].
    intros k n Hk _. exact (lookup_weaken _ _ _ _ Hk G).
  - cbn [set_counters files] in G. split.
    + intros k m Hk Hne. cbn [set_files files].
      rewrite lookup_insert_ne by congruence.
      exact (lookup_weaken _ _ _ _ Hk G).
    + intros code _. right. exists s1, err, n. auto.
  - cbn [set_counters files] in G. subst e.
    split; [|intros code; discriminate].
    intros k n Hk Hne. cbn [set_files files].
    rewrite lookup_insert_ne by congruence.
    exact (lookup_weaken _ _ _ _ Hk G).
Qed.

(** ** Requests and pauses over a run *)

Lemma count_events_app f t1 t2 :
  count_events f (t1 ++ t2) = count_events f t1 + count_events f t2.
Proof.
  induction t1 as [|e t1 IH]; cbn [count_events app]; [reflexivity|].
  rewrite IH. lia.
Qed.

Lemma accounted_refl s : accounted s s.
Proof.
  split; [reflexivity|]. exists 0, 0, [].
  rewrite app_nil_r, !N.add_0_r. cbn [count_events].
  repeat split; try reflexivity; intros; lia.
Qed.

Lemma accounted_trans a b c : accounted a b -> accounted b c -> accounted a c.
Proof.
  intros (K1 & p1 & f1 & t1 & P1 & F1 & T1 & C1 & L1 & U1 & H1 & B1)
         (K2 & p2 & f2 & t2 & P2 & F2 & T2 & C2 & L2 & U2 & H2 & B2).
  split; [congruence|]. exists (p1 + p2), (f1 + f2), (t1 ++ t2).
  rewrite !count_events_app.
  split; [lia|]. split; [lia|].
  split; [rewrite T2, T1, app_assoc; reflexivity|].
  split; [lia|]. split; [lia|]. split; [lia|]. split; [lia|].
  intros K. specialize (B1 K). rewrite K1 in B2. specialize (B2 K). lia.
Qed.

(** The events of a call for a prompt: none on a hit, which returns, and
    one request on a miss. *)
Lemma generatePromptWithGPT_events item category r s s' :
  generatePromptWithGPT X item category s = (r, s') ->
  (s' = s /\ exists v, r = Ok v)
  \/ (Map_get (getCacheKey (name item) category) (promptCache s) = None
      /\ trace s' = trace s ++ [ChatCompletionsCreate category item]).
Proof.
  destruct (Map_get (getCacheKey (name item) category) (promptCache s))
    as [v|] eqn:Hget.
  - rewrite (generatePromptWithGPT_hit X _ _ _ _ Hget). intros [= <- <-].
    left. eauto.
  - rewrite (generatePromptWithGPT_miss X _ _ _ Hget). cbv zeta. intros H.
    right. split; [reflexivity|]. revert H.
    destruct (chat_completions_create X (trace s) category item)
      as [e|response]; [intros [= _ <-]; reflexivity|].
    destruct (OpenAI.choices response) as [|choice others];
      [intros [= _ <-]; reflexivity|].
    destruct (OpenAI.content choice) as [[|c t]|];
      intros [= _ <-]; reflexivity.
Qed.

(** The events of the two stages. *)
Lemma stages_events categoryName p item r s s' :
  stages X categoryName p item s = (r, s') ->
  exists t,
    trace s' = trace s ++ t
    /\ count_events is_pause t = 0
    /\ count_events is_chat_request t <= 1
    /\ count_events is_image_request t <= 1
    /\ (r = Ok tt -> count_events is_image_request t = 1)
    /\ (truthy (GOOGLE_API_KEY s) = true ->
        1 <= count_events is_chat_request t
             + count_events is_image_request t).
Proof.
  unfold stages, bind.
  destruct (generatePromptWithGPT X item categoryName s) as [[v|e] s1] eqn:E.
  - pose proof (generatePromptWithGPT_staged X _ _ _ _ _ E)
      as [(_ & K & _) _].
    apply generatePromptWithGPT_events in E. intros H.
    apply generateImage_changes in H as (H0 & H1 & _).
    assert (Ht : exists t1,
               trace s1 = trace s ++ t1
               /\ count_events is_pause t1 = 0
               /\ count_events is_chat_request t1 <= 1
               /\ count_events is_image_request t1 = 0).
    { destruct E as [[-> _]|[_ E]].
      - exists []. rewrite app_nil_r. cbn. repeat split; lia.
      - eexists. split; [exact E|]. cbn. repeat split; lia. }
    destruct Ht as (t1 & T1 & A & B & C).
    cbn [prompt model default] in H0, H1.
    destruct (truthy (GOOGLE_API_KEY s1)) eqn:Key.
    + specialize (H1 eq_refl). eexists.
      split; [rewrite H1, T1, <- app_assoc; reflexivity|].
      rewrite !count_events_app. cbn [count_events is_pause is_chat_request
                                        is_image_request].
      repeat split; try lia.
    + destruct (H0 eq_refl) as [-> [e ->]]. exists t1.
      split; [exact T1|]. repeat split; try lia; [discriminate|].
      rewrite <- K, Key. discriminate.
  - apply generatePromptWithGPT_events in E. intros [= <- <-].
    destruct E as [[_ [v Hv]]|[_ E]]; [discriminate|].
    eexists. split; [exact E|]. cbn. repeat split; try lia. discriminate.
Qed.

Lemma process_item_accounted base seg cat fcat item r s s' :
  process_item X base seg cat fcat item s = (r, s') -> accounted s s'.
Proof.
  rewrite (process_item_cases X).
  destruct (files s !! item_outputPath base seg fcat item).
  - intros [= _ <-]. split; [reflexivity|]. exists 0, 0, [].
    cbn [bump_skipped set_counters totalProcessed totalFailed trace
           count_events].
    rewrite app_nil_r, !N.add_0_r.
    repeat split; try reflexivity; intros; lia.
  - destruct (stages X cat (item_outputPath base seg fcat item) item s)
      as [[[]|e] s1] eqn:E;
      pose proof (stages_staged X _ _ _ _ _ _ E)
        as [(_ & K & _ & P & _ & F & _) _];
      apply stages_events in E as (t & T & A & B & C & D & L);
      intros [= _ <-]; (split; [exact K|]).
    + exists 1, 0, (t ++ [SetTimeout 1000]).
      cbn [emit bump_processed set_counters totalProcessed totalFailed trace].
      rewrite !count_events_app, T, P, F, (D eq_refl).
      cbn [count_events is_pause is_chat_request is_image_request].
      rewrite <- app_assoc. repeat split; try lia.
    + exists 0, 1, t.
      cbn [bump_failed set_counters totalProcessed totalFailed trace].
      rewrite P, F. repeat split; try lia; [exact T|].
      intros Key. specialize (L Key). lia.
Qed.

Lemma main_try_accounted report s s' :
  main_try X s = (Ok report, s') ->
  exists t,
    trace s' = trace s ++ t
    /\ count_events is_pause t = Generated report
    /\ Generated report <= count_events is_image_request t
    /\ count_events is_image_request t <= Generated report + Failed report
    /\ count_events is_chat_request t <= Generated report + Failed report
    /\ Generated report + Failed report
       <= count_events is_chat_request t + count_events is_image_request t.
Proof.
  intros E.
  assert (Key : truthy (GOOGLE_API_KEY s) = true).
  { revert E. unfold main_try. unfold bind at 1. unfold gets at 1.
    destruct (truthy (GOOGLE_API_KEY s)); [reflexivity | discriminate]. }
  destruct (main_try_rel accounted accounted_refl accounted_trans
              process_item_accounted _ _ _ E)
    as [[_ [e He]]
       |(s1 & G & [[_ [e He]]|[(e & n & _ & _ & He)|[-> [= ->]]]])];
    try discriminate.
  destruct G as (_ & p & f & t & P & F & T & C & L & U & H & B).
  cbn [set_counters totalProcessed totalFailed trace GOOGLE_API_KEY] in *.
  exists t. cbn [set_files trace Generated Failed].
  rewrite P, F, !N.add_0_l. specialize (B Key). auto 10.
Qed.

(** X11.  The requests and pauses of a run that returns, by its report:
    there are as many pauses as items generated; an image request for
    each of these and at most one for each failed item besides; at most one
    chat request for each item generated or failed; and at least one
    request for each of them.  So the skipped items cost nothing. *)
Theorem main_request_accounting (report : Summary) (s s' : State) :
  main X s = (Returned report, s') ->
  exists t,
    trace s' = trace s ++ t
    /\ count_events is_pause t = Generated report
    /\ Generated report <= count_events is_image_request t
    /\ count_events is_image_request t <= Generated report + Failed report
    /\ count_events is_chat_request t <= Generated report + Failed report
    /\ Generated report + Failed report
       <= count_events is_chat_request t + count_events is_image_request t.
Proof.
  unfold main. destruct (main_try X s) as [[rep|e] s1] eqn:E; [|discriminate].
  intros [= <- <-]. exact (main_try_accounted _ _ _ E).
Qed.

(** ** When the image is saved *)

(** X12.  When [generateImage] succeeds.  With a Google key, an answer
    whose first candidate holds a part with a payload, an output path that
    is absolute, in normal form, names a file and is not a directory, no
    regular file where a directory of the path should be, and no fault of
    the file system, neither when a directory is made or the file opened
    nor while it is written, the call returns after its one request; the
    file then holds the decoded payload of the first such part and its
    directory exists. *)
Theorem generateImage_succeeds (options : GenerateImageOptions) (s : State)
  (response : GenAI.GenerateContentResponse) (candidate : GenAI.Candidate)
  (others : list GenAI.Candidate) (content : GenAI.Content)
  (before after : list GenAI.Part) (part : GenAI.Part)
  (imageData : jsstring) :
  let p := outputPath options in
  let request :=
    GenerateContent (default default_model (model options)) (prompt options) in
  truthy (GOOGLE_API_KEY s) = true ->
  models_generateContent X (trace s) (default default_model (model options))
    (prompt options) = inr response ->
  GenAI.candidates response = Some (candidate :: others) ->
  GenAI.content candidate = Some content ->
  GenAI.parts content = Some (before ++ part :: after) ->
  Forall (fun q => inline_payload q = None) before ->
  inline_payload part = Some imageData ->
  Path.isAbsolute p = true ->
  Path.normalize p = p ->
  Path.trailingSeparator p = false ->
  files s !! p <> Some Dir ->
  (forall a b,
     In a (ancestors (Path.dirname p)) -> files s !! a <> Some (File b)) ->
  (forall a,
     In a (ancestors (Path.dirname p)) ->
     fs_fault X (trace s ++ [request]) a = None) ->
  fs_fault X (trace s ++ [request]) p = None ->
  write_fault X (trace s ++ [request]) p (Buffer_from_base64 X imageData)
  = None ->
  exists s',
    generateImage X options s = (Ok tt, s')
    /\ files s' !! p = Some (File (Buffer_from_base64 X imageData))
    /\ stat (files s') p = Some (File (Buffer_from_base64 X imageData))
    /\ stat (files s') (Path.dirname p) = Some Dir
    /\ trace s' = trace s ++ [request].
Proof.
  intros p request Hkey Hresp Hc Hco Hparts Hbefore Hpart Habs Hn Htrail
    Hp Hanc Gd Gp Gw.
  destruct (save_image_succeeds X p imageData (emit request s) Habs Hn Htrail
              Hp Hanc Gd Gp Gw) as (f & E & _ & D & _).
  pose proof (generateImage_saves X _ _ _ _ _ _ _ _ _ _ Hkey Hresp Hc Hco
                Hparts Hbefore Hpart) as G.
  fold p request in G. rewrite E in G.
  eexists. split; [exact G|].
  pose proof (save_image_written X _ _ _ _ E) as [_ W].
  cbn [files set_files trace emit] in W |- *.
  split; [apply lookup_insert_eq|]. split; [exact W|]. split; [|reflexivity].
  apply (stat_dirname _ p Habs Hn Htrail).
  unfold entry in *. destruct (always_dir (Path.dirname p)); [reflexivity|].
  rewrite lookup_insert_ne; [exact D|].
  intros Heq.
  destruct (Path_dirname_prefix p Habs Htrail) as (rest & Hrest & Hsplit).
  apply (f_equal (@length N)) in Hsplit. rewrite length_app, <- Heq in Hsplit.
  destruct rest; [congruence|]. cbn [length] in Hsplit. lia.
Qed.

(** ** A run over a tree that holds every image *)

Lemma idle_refl s : idle s s.
Proof. repeat split. Qed.

Lemma idle_trans a b c : idle a b -> idle b c -> idle a c.
Proof.
  intros (A1 & A2 & A3 & A4 & A5 & A6) (B1 & B2 & B3 & B4 & B5 & B6).
  repeat split; congruence.
Qed.

Lemma items_loop_idle base seg cat fcat items s :
  (forall item,
     In item items -> files s !! item_outputPath base seg fcat item <> None) ->
  exists s',
    for_of items (process_item X base seg cat fcat) s = (Ok tt, s')
    /\ idle s s'.
Proof.
  revert s. induction items as [|item items IH]; intros s H.
  - exists s. split; [reflexivity | apply idle_refl].
  - assert (E : process_item X base seg cat fcat item s
                = (Ok tt, bump_skipped s)).
    { rewrite (process_item_cases X).
      destruct (files s !! item_outputPath base seg fcat item) eqn:Hp;
        [reflexivity|].
      destruct (H item (or_introl eq_refl) Hp). }
    destruct (IH (bump_skipped s)) as (s' & L & I);
      [intros i Hi; apply H; right; exact Hi|].
    exists s'. split; [rewrite (for_of_cons _ _ _ _ _ E); exact L|].
    refine (idle_trans _ _ _ _ I). repeat split.
Qed.

Lemma categories_loop_idle base seg menuData s :
  (forall p,
     In p (flat_map
             (fun entry : jsstring * Category =>
                map (item_outputPath base seg (formatFileName (fst entry)))
                  (Items (snd entry))) menuData) ->
     files s !! p <> None) ->
  exists s',
    for_of menuData (process_category X base seg) s = (Ok tt, s')
    /\ idle s s'.
Proof.
  revert s. induction menuData as [|[categoryName category] rest IH];
    intros s H.
  - exists s. split; [reflexivity | apply idle_refl].
  - cbn [flat_map fst snd] in H.
    destruct (items_loop_idle base seg categoryName
                (formatFileName categoryName) (Items category) s)
      as (s1 & E1 & I1).
    { intros item Hi. apply H, in_or_app. left.
      apply in_map. exact Hi. }
    destruct (IH s1) as (s' & E & I).
    { intros p Hp. destruct I1 as (_ & -> & _). apply H, in_or_app.
      right. exact Hp. }
    exists s'. split; [|exact (idle_trans _ _ _ I1 I)].
    apply (for_of_cons (categoryName, category) rest
             (process_category X base seg) s s1) in E1 as ->. exact E.
Qed.

Lemma process_file_idle s0 file r s s' :
  endsWith file (lit ".json") = true ->
  cwd s = cwd s0 -> files s = files s0 ->
  (forall menuData p,
     input_document X s0 file = Some menuData ->
     In p (output_paths X s0 file menuData) -> files s0 !! p <> None) ->
  process_file X (Path.join [cwd s0; lit "input"])
    (Path.join [cwd s0; lit "output"]) file s = (r, s') ->
  idle s s'.
Proof.
  intros Hjson C F H. unfold process_file. unfold bind at 1.
  destruct (readFileSync X _ s) as [[bytes|e] s1] eqn:E;
    apply (readFileSync_inv X) in E as [-> E].
  2:{ intros [= _ <-]. apply idle_refl. }
  specialize (E bytes eq_refl). rewrite (json_path_stat _ _ _ Hjson) in E.
  unfold bind at 1.
  destruct (JSON_parse X bytes) as [e|menuData] eqn:Pe; cbn [lift].
  { intros [= _ <-]. apply idle_refl. }
  unfold ret at 1.
  destruct (categories_loop_idle (Path.join [cwd s0; lit "output"])
              (segment_of X file) menuData s) as (s2 & L & I2).
  { intros p Hp. rewrite F.
    apply (H menuData); [|exact Hp].
    unfold input_document. rewrite <- F, E, Pe. reflexivity. }
  rewrite L. intros [= _ <-]. exact I2.
Qed.

Lemma input_files_json s :
  Forall (fun file => endsWith file (lit ".json") = true) (input_files X s).
Proof.
  unfold input_files. destruct (readdir_names X (files s) _) as [e|names];
    [constructor | apply filter_json_Forall].
Qed.

Lemma files_loop_idle s0 names r s s' :
  Forall (fun file => endsWith file (lit ".json") = true) names ->
  cwd s = cwd s0 -> files s = files s0 ->
  (forall file menuData p,
     In file names ->
     input_document X s0 file = Some menuData ->
     In p (output_paths X s0 file menuData) -> files s0 !! p <> None) ->
  for_of names
    (process_file X (Path.join [cwd s0; lit "input"])
       (Path.join [cwd s0; lit "output"])) s = (r, s') ->
  idle s s'.
Proof.
  intros Hjson. revert s.
  induction Hjson as [|file names Hfile Hjson IH]; intros s C F H;
    cbn [for_of].
  - intros [= _ <-]. apply idle_refl.
  - unfold bind.
    destruct (process_file X _ _ file s) as [[[]|e] s1] eqn:E;
      apply (process_file_idle s0) in E; try assumption;
      try (intros menuData p; apply H; left; reflexivity).
    + intros L. apply IH in L.
      * exact (idle_trans _ _ _ E L).
      * destruct E as (-> & _). exact C.
      * destruct E as (_ & -> & _). exact F.
      * intros f m p Hf. apply H. right. exact Hf.
    + intros [= _ <-]. exact E.
Qed.

(** X13.  A run over a tree that holds the image of every item of every
    document costs nothing: it makes no request and no pause, leaves the
    prompt cache and every file other than [prompts-cache.json] as they
    were, and when it returns it reports no item generated, none failed and
    all of them skipped. *)
Theorem main_rerun_idle (e : Ending) (s s' : State) :
  (forall file menuData p,
     In file (input_files X s) ->
     input_document X s file = Some menuData ->
     In p (output_paths X s file menuData) -> files s !! p <> None) ->
  main X s = (e, s') ->
  trace s' = trace s
  /\ promptCache s' = promptCache s
  /\ (forall k,
        k <> Path.join [cwd s; lit "prompts-cache.json"] ->
        files s' !! k = files s !! k)
  /\ (forall report,
        e = Returned report ->
        Generated report = 0 /\ Failed report = 0
        /\ Skipped report = enumerated_items X s).
Proof.
  intros Hall. unfold main. destruct (main_try X s) as [r s1] eqn:E. intros H.
  assert (s1 = s') by (destruct r; congruence). subst s1.
  assert (He : e = match r with
                   | Ok report => Returned report
                   | Throw _ => Exited 1
                   end) by (destruct r; congruence).
  clear H. pose proof (main_try_run X _ _ _ E) as Hrun.
  apply main_try_cases in E as [[-> [e' ->]]|(r1 & s1 & L & E)].
  { subst e. repeat split; discriminate. }
  apply (files_loop_idle s) in L;
    [|apply input_files_json|reflexivity|reflexivity|exact Hall].
  destruct L as (_ & F & C & T & P & K).
  cbn [set_counters totalProcessed totalFailed] in P, K.
  destruct E as [[-> [e' ->]]|[(_ & e' & n & _ & -> & ->)|(_ & -> & ->)]];
    subst e.
  - split; [exact T|]. split; [exact C|]. split; [|discriminate].
    intros k _. rewrite F. reflexivity.
  - cbn [set_files trace promptCache files].
    split; [exact T|]. split; [exact C|]. split; [|discriminate].
    intros k Hk. rewrite lookup_insert_ne by congruence.
    rewrite F. reflexivity.
  - cbn [set_files trace promptCache files].
    split; [exact T|]. split; [exact C|]. split.
    + intros k Hk. rewrite lookup_insert_ne by congruence.
      rewrite F. reflexivity.
    + intros report [= <-]. cbn [Generated Failed Skipped].
      destruct Hrun as (_ & _ & _ & Ht & Hn & _).
      cbn [Generated Failed Skipped Total] in Ht, Hn.
      split; [exact P|]. split; [exact K|]. rewrite <- Hn, P, K. lia.
Qed.

(** ** Names that sanitize to the same text *)

Lemma item_outputPath_name base seg fcat A B :
  formatFileName (name B) = formatFileName (name A) ->
  item_outputPath base seg fcat B = item_outputPath base seg fcat A.
Proof. unfold item_outputPath. intros ->. reflexivity. Qed.

(** An item that did not fail leaves a file at its path. *)
Lemma process_item_leaves_file base seg cat fcat item r s s' :
  process_item X base seg cat fcat item s = (r, s') ->
  totalFailed s' = totalFailed s ->
  files s' !! item_outputPath base seg fcat item <> None.
Proof.
  rewrite (process_item_cases X).
  destruct (files s !! item_outputPath base seg fcat item) as [n|] eqn:Hp.
  - intros [= _ <-] _. cbn [bump_skipped set_counters files]. rewrite Hp.
    discriminate.
  - destruct (stages X cat (item_outputPath base seg fcat item) item s)
      as [[[]|e] s1] eqn:E.
    + apply (stages_ok_written X) in E as [bytes E]. intros [= _ <-] _.
      rewrite item_outputPath_key in E.
      cbn [emit bump_processed set_counters files]. rewrite E. discriminate.
    + apply (stages_staged X) in E as [(_ & _ & _ & _ & _ & F & _) _].
      intros [= _ <-]. cbn [bump_failed set_counters totalFailed].
      rewrite F. lia.
Qed.

(** X14.  Two items of a category whose names sanitize to the same text
    share one output path.  Once the first of them has been generated or
    skipped, the second one is skipped, whatever items come between them:
    it gets no prompt and no image of its own. *)
Theorem name_collision_skipped (base seg cat fcat : jsstring)
  (A B : MenuItem) (between : list MenuItem) (s s1 s2 : State) :
  formatFileName (name B) = formatFileName (name A) ->
  process_item X base seg cat fcat A s = (Ok tt, s1) ->
  totalFailed s1 = totalFailed s ->
  for_of between (process_item X base seg cat fcat) s1 = (Ok tt, s2) ->
  item_outputPath base seg fcat B = item_outputPath base seg fcat A
  /\ process_item X base seg cat fcat B s2 = (Ok tt, bump_skipped s2).
Proof.
  intros Hname HA HF Hmid.
  split; [exact (item_outputPath_name _ _ _ _ _ Hname)|].
  pose proof (process_item_leaves_file _ _ _ _ _ _ _ _ HA HF) as Hfile.
  assert (G : files s1 ⊆ files s2).
  { refine (for_of_rel (fun a b => files a ⊆ files b)
              (fun a => reflexivity (files a))
              (fun a b c (H1 : files a ⊆ files b) (H2 : files b ⊆ files c) =>
                 transitivity H1 H2)
              _ _ _ _ _ _ Hmid).
    intros item. apply process_item_grows. }
  rewrite (process_item_cases X), (item_outputPath_name _ _ _ _ _ Hname).
  destruct (files s1 !! item_outputPath base seg fcat A) as [n|] eqn:E;
    [|congruence].
  rewrite (lookup_weaken _ _ _ _ E G). reflexivity.
Qed.

(** ** A prompt outlives the failure of its image *)

Lemma generatePromptWithGPT_ok_cached item category v s s' :
  generatePromptWithGPT X item category s = (Ok v, s') ->
  Map_get (getCacheKey (name item) category) (promptCache s') = Some v.
Proof.
  destruct (Map_get (getCacheKey (name item) category) (promptCache s))
    as [v0|] eqn:Hget.
  - rewrite (generatePromptWithGPT_hit X _ _ _ _ Hget). intros [= <- <-].
    exact Hget.
  - rewrite (generatePromptWithGPT_miss X _ _ _ Hget). cbv zeta.
    destruct (chat_completions_create X (trace s) category item)
      as [e|response]; [discriminate|].
    destruct (OpenAI.choices response) as [|choice others]; [discriminate|].
    destruct (OpenAI.content choice) as [[|c t]|]; try discriminate.
    intros [= <- <-]. cbn [promptCache set_promptCache]. apply Map_get_set.
Qed.

(** X15.  Once stage 1 has given a prompt for an item, the prompt is in
    the cache under the key of the item when the two stages are over,
    whether stage 2 then returns or throws; asking for the prompt of that
    item again gives the same text with nothing else done, so without a
    second request to the chat service. *)
Theorem prompt_survives_image_failure (categoryName p : jsstring)
  (item : MenuItem) (v : jsstring) (r : result unit) (s s1 s' : State) :
  generatePromptWithGPT X item categoryName s = (Ok v, s1) ->
  stages X categoryName p item s = (r, s') ->
  Map_get (getCacheKey (name item) categoryName) (promptCache s') = Some v
  /\ generatePromptWithGPT X item categoryName s' = (Ok v, s').
Proof.
  intros H1. unfold stages, bind. rewrite H1. intros H2.
  apply (generateImage_staged X) in H2 as (_ & _ & C).
  apply generatePromptWithGPT_ok_cached in H1. rewrite <- C in H1.
  split; [exact H1|]. exact (generatePromptWithGPT_hit X _ _ _ _ H1).
Qed.

(** ** The snapshot of the prompt cache *)

(** X16.  When [main] returns, the process ends with status 0 and the
    file [prompts-cache.json] of the working directory holds the
    serialization of the prompt cache as it is at the end of the run. *)
Theorem main_returns_snapshot (report : Summary) (s s' : State) :
  main X s = (Returned report, s') ->
  exit_status (Returned report) = 0
  /\ files s' !! Path.join [cwd s; lit "prompts-cache.json"]
     = Some (File (JSON_stringify X (promptCache s'))).
Proof.
  unfold main. destruct (main_try X s) as [[rep|e] s1] eqn:E; [|discriminate].
  intros [= <- <-]. split; [reflexivity|].
  apply main_try_cases in E as [[_ [e He]]|(r1 & s2 & _ & E)];
    [discriminate|].
  destruct E as [[_ [e He]]|[(_ & e & n & _ & _ & He)|(_ & -> & _)]];
    try discriminate.
  cbn [set_files files promptCache]. apply lookup_insert_eq.
Qed.

(** ** The events of an item, in their order *)

(** The two stages under a Google key: the chat request, if any, comes
    first; the image request carries the prompt that the cache holds. *)
Lemma stages_trace categoryName p item r s s' :
  truthy (GOOGLE_API_KEY s) = true ->
  stages X categoryName p item s = (r, s') ->
  let key := getCacheKey (name item) categoryName in
  let chat := ChatCompletionsCreate categoryName item in
  (r <> Ok tt /\ Map_get key (promptCache s') = None
   /\ trace s' = trace s ++ [chat])
  \/ exists q,
       Map_get key (promptCache s') = Some q
       /\ (trace s' = trace s ++ [GenerateContent default_model q]
           \/ trace s' = trace s ++ [chat; GenerateContent default_model q]).
Proof.
  intros Key. unfold stages, bind. cbv zeta.
  destruct (generatePromptWithGPT X item categoryName s) as [[v|e] s1] eqn:E.
  - pose proof (generatePromptWithGPT_staged X _ _ _ _ _ E)
      as [(_ & K & _) _].
    pose proof (generatePromptWithGPT_ok_cached _ _ _ _ _ E) as Hv.
    apply generatePromptWithGPT_events in E. intros H.
    apply generateImage_changes in H as (_ & T & C & _).
    rewrite K in T. specialize (T Key). cbn [prompt model default] in T.
    right. exists v. rewrite C. split; [exact Hv|].
    destruct E as [[-> _]|[_ E]]; [left; exact T|].
    right. rewrite T, E, <- app_assoc. reflexivity.
  - intros [= <- <-]. left. split; [discriminate|].
    destruct (Map_get (getCacheKey (name item) categoryName) (promptCache s))
      as [v|] eqn:Hget.
    + rewrite (generatePromptWithGPT_hit X _ _ _ _ Hget) in E. discriminate.
    + rewrite (generatePromptWithGPT_miss X _ _ _ Hget) in E. cbv zeta in E.
      destruct (chat_completions_create X (trace s) categoryName item)
        as [e'|response];
        [injection E as _ <-; split; [exact Hget | reflexivity]|].
      destruct (OpenAI.choices response) as [|choice others];
        [injection E as _ <-; split; [exact Hget | reflexivity]|].
      destruct (OpenAI.content choice) as [[|c t]|]; try discriminate;
        injection E as _ <-; split; try exact Hget; reflexivity.
Qed.

(** X17.  The events of one item of a run, which has a Google key, in
    their order.  A skipped item has none.  A generated item has an image
    request and then the pause, after a chat request when its prompt was
    not in the cache.  A failed item has either a chat request alone, with
    no prompt in the cache for it, or an image request, after a chat
    request when its prompt was not in the cache.  The prompt of an image
    request is the one that the cache holds for the item. *)
Theorem process_item_events (base seg cat fcat : jsstring) (item : MenuItem)
  (r : result unit) (s s' : State) :
  truthy (GOOGLE_API_KEY s) = true ->
  process_item X base seg cat fcat item s = (r, s') ->
  let key := getCacheKey (name item) cat in
  let chat := ChatCompletionsCreate cat item in
  (totalSkipped s' = totalSkipped s + 1 /\ trace s' = trace s)
  \/ (totalProcessed s' = totalProcessed s + 1
      /\ exists q,
           Map_get key (promptCache s') = Some q
           /\ (trace s'
               = trace s ++ [GenerateContent default_model q; SetTimeout 1000]
               \/ trace s'
                  = trace s
                    ++ [chat; GenerateContent default_model q;
                        SetTimeout 1000]))
  \/ (totalFailed s' = totalFailed s + 1
      /\ ((Map_get key (promptCache s') = None
           /\ trace s' = trace s ++ [chat])
          \/ exists q,
               Map_get key (promptCache s') = Some q
               /\ (trace s' = trace s ++ [GenerateContent default_model q]
                   \/ trace s'
                      = trace s ++ [chat; GenerateContent default_model q]))).
Proof.
  intros Key. rewrite (process_item_cases X). cbv zeta.
  destruct (files s !! item_outputPath base seg fcat item).
  { intros [= _ <-]. left. split; reflexivity. }
  destruct (stages X cat (item_outputPath base seg fcat item) item s)
    as [[[]|e] s1] eqn:E;
    pose proof (stages_staged X _ _ _ _ _ _ E)
      as [(_ & _ & _ & P & _ & F & _) _];
    apply (stages_trace _ _ _ _ _ _ Key) in E; cbv zeta in E;
    intros [= _ <-]; right.
  - left.
    cbn [emit bump_processed set_counters totalProcessed trace promptCache].
    split; [rewrite P; reflexivity|].
    destruct E as [(N & _)|(q & Hq & [T|T])]; [destruct N; reflexivity| |];
      exists q; (split; [exact Hq|]); rewrite T, <- app_assoc;
      [left | right]; reflexivity.
  - right.
    cbn [bump_failed set_counters totalFailed trace promptCache].
    split; [rewrite F; reflexivity|].
    destruct E as [(_ & Hn & T)|E]; [left; split; assumption|].
    right. exact E.
Qed.

(** ** What an item that fails leaves *)

(** After a call that throws, the output path holds what it held, or the
    bytes that got through when the write was cut short. *)
Lemma generateImage_throw_path options e s s' :
  Path.isAbsolute (outputPath options) = true ->
  Path.normalize (outputPath options) = outputPath options ->
  Path.trailingSeparator (outputPath options) = false ->
  generateImage X options s = (Throw e, s') ->
  files s' !! outputPath options = files s !! outputPath options
  \/ exists imageData n,
       write_fault X (trace s') (outputPath options)
         (Buffer_from_base64 X imageData) = Some (e, n)
       /\ files s' !! outputPath options
          = Some (File (take n (Buffer_from_base64 X imageData))).
Proof.
  intros Habs Hn Htrail H.
  destruct (Path_normal_segments _ Habs Hn Htrail) as (dirs & file & Ep & Hs).
  destruct (absolute_names dirs file Hs) as (K1 & _ & _ & K4).
  pose proof (Path_dirname_absolute dirs file Hs) as Ed.
  rewrite <- Ep in K1, Ed. rewrite <- Ed in K4.
  pose proof (ancestors_dirname_fresh _ Habs Htrail) as Hfresh.
  apply generateImage_inv in H as [(_ & -> & _)|(_ & [[-> _]|[d H]])];
    [left; reflexivity | left; reflexivity |].
  apply save_image_inv in H
    as (f1 & _ & Hf1 & [[-> _]|(_ & [(F & _)|(e' & n & F & Hw & ->)])]).
  - left. cbn [files set_files emit].
    destruct (Hf1 (outputPath options)) as [E|(_ & _ & Hin)]; [exact E|].
    rewrite K4 in Hin. contradiction.
  - discriminate.
  - injection F as <-. right. exists d, n. rewrite K1.
    cbn [files set_files trace]. split; [exact Hw | apply lookup_insert_eq].
Qed.

Lemma Path_normalize_isAbsolute p :
  Path.isAbsolute p = true -> Path.isAbsolute (Path.normalize p) = true.
Proof.
  intros H. unfold Path.normalize. destruct p as [|c t]; [discriminate|].
  rewrite H. cbn [negb].
  destruct (Path.normalizeString (c :: t) false); reflexivity.
Qed.

Lemma Path_join_isAbsolute a rest :
  Path.isAbsolute a = true -> Path.isAbsolute (Path.join (a :: rest)) = true.
Proof.
  intros H. unfold Path.join.
  destruct a as [|c t]; [discriminate|].
  rewrite filter_cons_True by discriminate.
  apply Path_normalize_isAbsolute.
  destruct (filter (fun a : jsstring => a <> []) rest); exact H.
Qed.

Lemma item_outputPath_isAbsolute base seg fcat item :
  Path.isAbsolute base = true ->
  Path.isAbsolute (item_outputPath base seg fcat item) = true.
Proof.
  intros H. unfold item_outputPath.
  apply Path_join_isAbsolute, Path_join_isAbsolute, H.
Qed.

(** X18.  What an item that fails leaves, under an absolute output
    directory.  Nothing stood at the path of the item before, and no
    regular file other than that path is new or changed.  At the path
    itself there is nothing afterwards, and the test of the skip is false
    for the item again, unless the write of the image was cut short: then
    the bytes of the image that got through stay at the path, nothing
    removes them, and the item is skipped from then on. *)
Theorem failed_item_files (base seg cat fcat : jsstring)
  (item : MenuItem) (r : result unit) (s s' : State) :
  Path.isAbsolute base = true ->
  process_item X base seg cat fcat item s = (r, s') ->
  totalFailed s' = totalFailed s + 1 ->
  let p := item_outputPath base seg fcat item in
  files s !! p = None
  /\ (forall k bytes,
        k <> p ->
        files s' !! k = Some (File bytes) -> files s !! k = Some (File bytes))
  /\ ((files s' !! p = None /\ existsSync p s' = (Ok false, s'))
      \/ exists e imageData n,
           write_fault X (trace s') p (Buffer_from_base64 X imageData)
           = Some (e, n)
           /\ files s' !! p
              = Some (File (take n (Buffer_from_base64 X imageData)))
           /\ existsSync p s' = (Ok true, s')
           /\ process_item X base seg cat fcat item s'
              = (Ok tt, bump_skipped s')).
Proof.
  intros Habs Hrun Hfailed p. revert Hrun Hfailed.
  rewrite (process_item_cases X). fold p.
  pose proof (item_outputPath_isAbsolute base seg fcat item Habs) as Hp.
  pose proof (item_outputPath_normal base seg fcat item) as Hn.
  assert (Htrail : Path.trailingSeparator p = false).
  { unfold p, Path.trailingSeparator.
    rewrite (item_outputPath_last base seg fcat item). reflexivity. }
  fold p in Hp, Hn.
  destruct (files s !! p) as [n|] eqn:E0.
  { intros [= _ <-]. cbn [bump_skipped set_counters totalFailed]. lia. }
  destruct (stages X cat p item s) as [[[]|e] s1] eqn:E.
  { apply (stages_staged X) in E as [(_ & _ & _ & _ & _ & F & _) _].
    intros [= _ <-]. cbn [emit bump_processed set_counters totalFailed].
    rewrite F. lia. }
  intros [= _ <-] _. split; [reflexivity|].
  pose proof (stages_staged X _ _ _ _ _ _ E) as [_ Hkept].
  unfold p in Hkept. rewrite item_outputPath_key in Hkept. fold p in Hkept.
  split.
  { intros k bytes Hk Hb. cbn [bump_failed set_counters files] in Hb.
    destruct (Hkept k bytes Hb) as [->|Hb']; [contradiction | exact Hb']. }
  assert (Hexists : forall s2 : State,
            existsSync p s2
            = (Ok match files s2 !! p with Some _ => true | None => false end,
               s2)).
  { intros s2. unfold existsSync, gets, p. rewrite item_outputPath_stat.
    reflexivity. }
  assert (Hpath : files s1 !! p = None
                  \/ exists imageData n,
                       write_fault X (trace s1) p
                         (Buffer_from_base64 X imageData) = Some (e, n)
                       /\ files s1 !! p
                          = Some (File (take n
                                          (Buffer_from_base64 X imageData)))).
  { revert E. unfold stages, bind.
    destruct (generatePromptWithGPT X item cat s) as [[v|e'] s0] eqn:G;
      apply (generatePromptWithGPT_staged X) in G as [_ G].
    - intros H.
      apply (generateImage_throw_path
               {| prompt := v; outputPath := p; model := None |}) in H;
        try assumption.
      cbn [outputPath] in H. rewrite G, E0 in H. exact H.
    - intros [= _ <-]. left. rewrite G. exact E0. }
  destruct Hpath as [Hnone|(imageData & n & Hw & Hfile)].
  - left. rewrite Hexists. cbn [bump_failed set_counters files].
    rewrite Hnone. split; reflexivity.
  - right. exists e, imageData, n. rewrite Hexists, (process_item_cases X).
    fold p. cbn [bump_failed set_counters files trace]. rewrite Hfile.
    repeat split. exact Hw.
Qed.

(** ** No second request for a prompt *)

Lemma memoized_refl s : memoized s s.
Proof.
  exists []. rewrite app_nil_r. split; [reflexivity|]. split; [auto|].
  intros category item [].
Qed.

Lemma memoized_trans a b c : memoized a b -> memoized b c -> memoized a c.
Proof.
  intros (t1 & T1 & K1 & N1) (t2 & T2 & K2 & N2). exists (t1 ++ t2).
  split; [rewrite T2, T1, app_assoc; reflexivity|]. split; [auto|].
  intros category item H. apply in_app_or in H as [H|H]; [auto|].
  specialize (N2 _ _ H).
  destruct (Map_get (getCacheKey (name item) category) (promptCache a))
    as [v|] eqn:E; [|reflexivity].
  rewrite (K1 _ _ E) in N2. discriminate.
Qed.

(** A step with no chat request that leaves the cache alone. *)
Lemma memoized_quiet s s' t :
  trace s' = trace s ++ t -> promptCache s' = promptCache s ->
  count_events is_chat_request t = 0 ->
  memoized s s'.
Proof.
  intros T C Z. exists t. split; [exact T|]. rewrite C. split; [auto|].
  intros category item H. exfalso. clear - H Z.
  induction t as [|e t IH]; [destruct H|]. cbn [count_events] in Z.
  destruct H as [->|H]; [cbn [is_chat_request] in Z; lia|].
  apply IH; [destruct (is_chat_request e); lia | exact H].
Qed.

Lemma generatePromptWithGPT_memoized item category r s s' :
  generatePromptWithGPT X item category s = (r, s') -> memoized s s'.
Proof.
  intros H. pose proof (generatePromptWithGPT_grown _ _ _ _ _ H)
    as (t & T & K & _).
  apply generatePromptWithGPT_events in H as [[-> _]|[Hn T']];
    [apply memoized_refl|].
  exists [ChatCompletionsCreate category item]. split; [exact T'|].
  split; [exact K|]. intros c i [[= <- <-]|[]]. exact Hn.
Qed.

Lemma generateImage_memoized options r s s' :
  generateImage X options s = (r, s') -> memoized s s'.
Proof.
  intros H. apply generateImage_changes in H as (H0 & H1 & C & _).
  destruct (truthy (GOOGLE_API_KEY s)).
  - exact (memoized_quiet _ _ _ (H1 eq_refl) C eq_refl).
  - destruct (H0 eq_refl) as [-> _]. apply memoized_refl.
Qed.

Lemma process_item_memoized base seg cat fcat item r s s' :
  process_item X base seg cat fcat item s = (r, s') -> memoized s s'.
Proof.
  rewrite (process_item_cases X).
  destruct (files s !! item_outputPath base seg fcat item).
  - intros [= _ <-]. apply (memoized_quiet _ _ []);
      [rewrite app_nil_r| |]; reflexivity.
  - assert (H : forall r1 s1,
               stages X cat (item_outputPath base seg fcat item) item s
               = (r1, s1) -> memoized s s1).
    { intros r1 s1. unfold stages, bind.
      destruct (generatePromptWithGPT X item cat s) as [[v|e] s0] eqn:E;
        apply generatePromptWithGPT_memoized in E.
      - intros H. apply generateImage_memoized in H.
        exact (memoized_trans _ _ _ E H).
      - intros [= _ <-]. exact E. }
    destruct (stages X cat (item_outputPath base seg fcat item) item s)
      as [[[]|e] s1]; specialize (H _ _ eq_refl); intros [= _ <-];
      refine (memoized_trans _ _ _ H _).
    + apply (memoized_quiet _ _ [SetTimeout 1000]); reflexivity.
    + apply (memoized_quiet _ _ []); [rewrite app_nil_r| |]; reflexivity.
Qed.

(** X19.  From any point of a run on, the loop over the files makes no
    chat request for an item whose prompt the cache holds at that point,
    and the cache still holds that prompt when the loop ends, however it
    ends.  So a prompt is asked for once at most, unless the request for it
    fails. *)
Theorem no_chat_for_cached_prompt (inputDir base : jsstring)
  (names : list jsstring) (r : result unit) (s s' : State) :
  for_of names (process_file X inputDir base) s = (r, s') ->
  exists t,
    trace s' = trace s ++ t
    /\ (forall k v,
          Map_get k (promptCache s) = Some v ->
          Map_get k (promptCache s') = Some v)
    /\ (forall category item,
          In (ChatCompletionsCreate category item) t ->
          Map_get (getCacheKey (name item) category) (promptCache s) = None).
Proof.
  apply (for_of_rel memoized memoized_refl memoized_trans).
  apply (process_file_rel memoized memoized_refl memoized_trans).
  exact process_item_memoized.
Qed.
End Extras.

(** ** The further properties, on the small catalogue *)

Lemma getCacheKey_injective_witness :
  lit "Mains" = lit "Mains" /\ lit "Onion " ++ lit "Soup" = lit "Onion Soup".
Proof.
  apply (getCacheKey_injective (lit "Onion " ++ lit "Soup") (lit "Onion Soup")
           (lit "Mains") (lit "Mains")); reflexivity.
Defined.

(** Without an input directory nothing happens. *)
Lemma main_setup_failure_witness :
  main Demo.services (set_files ∅ Demo.boot)
  = (Exited 1, set_files ∅ Demo.boot).
Proof.
  apply main_setup_failure. right. right. left. vm_compute. reflexivity.
Defined.


(** The two prompts of the run are not empty. *)
Lemma main_cache_provenance_witness :
  exists e s',
    main Demo.services Demo.boot = (e, s')
    /\ forall k v, Map_get k (promptCache s') = Some v -> v <> [].
Proof.
  pose (run := main Demo.services Demo.boot).
  exists (fst run), (snd run). split; [vm_compute; reflexivity|].
  intros k v H.
  destruct (main_cache_provenance Demo.services (fst run) Demo.boot (snd run))
    as [_ N]; [vm_compute; reflexivity|].
  exact (proj1 (N k v eq_refl H)).
Defined.

(** The document is still there after the run. *)
Lemma main_never_overwrites_witness :
  exists e s',
    main Demo.services Demo.boot = (e, s')
    /\ files s' !! lit "/work/input/Dinner.json" = Some (File (lit "dinner")).
Proof.
  pose (run := main Demo.services Demo.boot).
  exists (fst run), (snd run). split; [vm_compute; reflexivity|].
  destruct (main_never_overwrites Demo.services (fst run) Demo.boot (snd run))
    as [K _]; [vm_compute; reflexivity|].
  apply K; [vm_compute; reflexivity | vm_compute; discriminate].
Defined.

(** One item generated and one failed: one pause. *)
Lemma main_request_accounting_witness :
  exists report s',
    main Demo.services Demo.boot = (Returned report, s')
    /\ Generated report = 1 /\ Failed report = 1
    /\ count_events is_pause (trace s') = 1.
Proof.
  pose (report := {| Generated := 1; Skipped := 0; Failed := 1; Total := 2 |}).
  pose (s' := snd (main Demo.services Demo.boot)).
  destruct (main_request_accounting Demo.services report Demo.boot s')
    as (t & T & P & _); [vm_compute; reflexivity|].
  exists report, s'. split; [vm_compute; reflexivity|].
  split; [reflexivity|]. split; [reflexivity|].
  rewrite T. exact P.
Defined.

(** An image two directories below the working directory. *)
Lemma generateImage_succeeds_witness :
  exists s',
    generateImage Demo.services
      {| prompt := lit "a steak";
         outputPath := lit "/work/output/dinner/steak.png";
         model := None |} Demo.boot = (Ok tt, s')
    /\ files s' !! lit "/work/output/dinner/steak.png"
       = Some (File (lit "aGk="))
    /\ stat (files s') (lit "/work/output/dinner") = Some Dir.
Proof.
  destruct (generateImage_succeeds Demo.services
              {| prompt := lit "a steak";
                 outputPath := lit "/work/output/dinner/steak.png";
                 model := None |} Demo.boot Demo.illustrated
              (Demo.candidate_of [Demo.text_part (lit "here it is");
                                  Demo.image_part (lit "aGk=");
                                  Demo.image_part (lit "eA==")])
              [Demo.candidate_of [Demo.image_part (lit "eQ==")]]
              {| GenAI.parts :=
                   Some [Demo.text_part (lit "here it is");
                         Demo.image_part (lit "aGk=");
                         Demo.image_part (lit "eA==")] |}
              [Demo.text_part (lit "here it is")]
              [Demo.image_part (lit "eA==")]
              (Demo.image_part (lit "aGk="))
              (lit "aGk=")) as (s' & E & W & _ & D & _);
    try (vm_compute; reflexivity); try (intros; reflexivity).
  - constructor; [reflexivity | constructor].
  - vm_compute. discriminate.
  - intros a b Ha. vm_compute in Ha.
    destruct Ha as [<-|[<-|[<-|[]]]]; vm_compute; discriminate.
  - exists s'. split; [exact E|]. split; [exact W | exact D].
Defined.

(** With both images there, the run asks for nothing. *)
Lemma main_rerun_idle_witness :
  exists e s',
    main Demo.services boot_complete = (e, s')
    /\ trace s' = []
    /\ promptCache s' = [].
Proof.
  pose (run := main Demo.services boot_complete).
  exists (fst run), (snd run). split; [vm_compute; reflexivity|].
  destruct (main_rerun_idle Demo.services (fst run) boot_complete (snd run))
    as (T & C & _); [|vm_compute; reflexivity|split; assumption].
  intros file menuData p Hf. vm_compute in Hf. destruct Hf as [<-|[]].
  intros Hd. vm_compute in Hd. injection Hd as <-.
  intros Hp. vm_compute in Hp.
  destruct Hp as [<-|[<-|[]]]; vm_compute; discriminate.
Defined.

(** The second steak finds the image of the first. *)
Lemma name_collision_skipped_witness :
  exists s1,
    process_item Demo.services Demo.base (lit "dinner") (lit "Mains")
      (lit "mains") Demo.steak Demo.boot_cached = (Ok tt, s1)
    /\ totalProcessed s1 = 1
    /\ process_item Demo.services Demo.base (lit "dinner") (lit "Mains")
         (lit "mains") steak_again s1 = (Ok tt, bump_skipped s1).
Proof.
  pose (s1 := snd (process_item Demo.services Demo.base (lit "dinner")
                     (lit "Mains") (lit "mains") Demo.steak
                     Demo.boot_cached)).
  destruct (name_collision_skipped Demo.services Demo.base (lit "dinner")
              (lit "Mains") (lit "mains") Demo.steak steak_again []
              Demo.boot_cached s1 s1) as [_ K];
    try (vm_compute; reflexivity).
  exists s1. split; [vm_compute; reflexivity|].
  split; [vm_compute; reflexivity | exact K].
Defined.

(** The steak gets its prompt and no image; the prompt stays. *)
Lemma prompt_survives_image_failure_witness :
  exists e s',
    stages Demo.services (lit "Mains")
      (lit "/work/output/dinner/mains/steak-frites.png") Demo.steak Demo.boot
    = (Throw e, s')
    /\ Map_get (lit "Mains::Steak Frites") (promptCache s')
       = Some (lit "photo of Steak Frites").
Proof.
  pose (s1 := snd (generatePromptWithGPT Demo.services Demo.steak
                     (lit "Mains") Demo.boot)).
  pose (s' := snd (stages Demo.services (lit "Mains")
                     (lit "/work/output/dinner/mains/steak-frites.png")
                     Demo.steak Demo.boot)).
  destruct (prompt_survives_image_failure Demo.services (lit "Mains")
              (lit "/work/output/dinner/mains/steak-frites.png") Demo.steak
              (lit "photo of Steak Frites")
              (Throw (Error (lit "No image generated. Please try a different prompt.")))
              Demo.boot s1 s') as [K _]; try (vm_compute; reflexivity).
  exists (Error (lit "No image generated. Please try a different prompt.")), s'.
  split; [vm_compute; reflexivity | exact K].
Defined.

(** The snapshot of the run holds its two prompts. *)
Lemma main_returns_snapshot_witness :
  exists report s',
    main Demo.services Demo.boot = (Returned report, s')
    /\ files s' !! lit "/work/prompts-cache.json"
       = Some (File (JSON_stringify Demo.services (promptCache s'))).
Proof.
  pose (report := {| Generated := 1; Skipped := 0; Failed := 1; Total := 2 |}).
  pose (s' := snd (main Demo.services Demo.boot)).
  destruct (main_returns_snapshot Demo.services report Demo.boot s')
    as [_ W]; [vm_compute; reflexivity|].
  exists report, s'. split; [vm_compute; reflexivity | exact W].
Defined.

(** With its prompt in the cache, the steak has an image request and the
    pause. *)
Lemma process_item_events_witness :
  exists s' q,
    process_item Demo.services Demo.base (lit "dinner") (lit "Mains")
      (lit "mains") Demo.steak Demo.boot_cached = (Ok tt, s')
    /\ Map_get (lit "Mains::Steak Frites") (promptCache s') = Some q
    /\ trace s' = [GenerateContent default_model q; SetTimeout 1000].
Proof.
  pose (s' := snd (process_item Demo.services Demo.base (lit "dinner")
                     (lit "Mains") (lit "mains") Demo.steak
                     Demo.boot_cached)).
  destruct (process_item_events Demo.services Demo.base (lit "dinner")
              (lit "Mains") (lit "mains") Demo.steak (Ok tt)
              Demo.boot_cached s')
    as [[K _]|[(_ & q & Hq & [T|T])|[F _]]]; try (vm_compute; reflexivity).
  - vm_compute in K. discriminate.
  - exists s', q. split; [vm_compute; reflexivity|]. split; [exact Hq|exact T].
  - vm_compute in T. discriminate.
  - vm_compute in F. discriminate.
Defined.

(** On the disk that takes one byte, the steak fails at the write of its
    image, the byte stays, and the steak is skipped the next time. *)
Lemma failed_item_files_witness :
  exists s',
    process_item Demo.flaky Demo.base (lit "dinner") (lit "Mains")
      (lit "mains") Demo.steak Demo.boot_cached = (Ok tt, s')
    /\ totalFailed s' = 1
    /\ files s' !! lit "/work/output/dinner/mains/steak-frites.png"
       = Some (File (lit "a"))
    /\ process_item Demo.flaky Demo.base (lit "dinner") (lit "Mains")
         (lit "mains") Demo.steak s' = (Ok tt, bump_skipped s').
Proof.
  pose (s' := snd (process_item Demo.flaky Demo.base (lit "dinner")
                     (lit "Mains") (lit "mains") Demo.steak
                     Demo.boot_cached)).
  destruct (failed_item_files Demo.flaky Demo.base (lit "dinner")
              (lit "Mains") (lit "mains") Demo.steak (Ok tt)
              Demo.boot_cached s')
    as (_ & _ & [[N _]|(e & d & n & _ & _ & _ & Skip)]);
    try (vm_compute; reflexivity).
  - vm_compute in N. discriminate.
  - exists s'. split; [vm_compute; reflexivity|].
    split; [vm_compute; reflexivity|].
    split; [vm_compute; reflexivity | exact Skip].
Defined.

(** With the prompt of the steak in the cache, the loop over the one
    document asks for the prompt of the soup only. *)
Lemma no_chat_for_cached_prompt_witness :
  exists s',
    for_of [lit "Dinner.json"]
      (process_file Demo.services (lit "/work/input") (lit "/work/output"))
      Demo.boot_cached = (Ok tt, s')
    /\ totalProcessed s' = 2
    /\ (In (ChatCompletionsCreate (lit "Mains") Demo.steak) (trace s') ->
        False).
Proof.
  pose (s' := snd (for_of [lit "Dinner.json"]
                     (process_file Demo.services (lit "/work/input")
                        (lit "/work/output")) Demo.boot_cached)).
  destruct (no_chat_for_cached_prompt Demo.services (lit "/work/input")
              (lit "/work/output") [lit "Dinner.json"] (Ok tt)
              Demo.boot_cached s') as (t & T & _ & N);
    [vm_compute; reflexivity|].
  exists s'. split; [vm_compute; reflexivity|].
  split; [vm_compute; reflexivity|].
  intros H. rewrite T in H. specialize (N _ _ H). vm_compute in N.
  discriminate.
Defined.
